(** * go-wal: a shallow embedding of the write-ahead log and its checked properties

    The development follows the Go sources of the repository:
    - [wal/wal_data.go]  the record type [WalData], its constructor and its CRC check;
    - [wal/wal.go]       the log itself: opening, writing, rotation, reading, repair.

    Library code the package calls ([hash/crc32], [encoding/json],
    [encoding/base64], [strconv], [strings], [bufio], [os]) is modelled next to
    the function that uses it, each model naming the library routine it stands for. *)

From Stdlib Require Import ZArith Lia List Bool Decimal DecimalZ.
From Stdlib.Strings Require Import Ascii String Byte.
From stdpp Require Import base option list gmap strings sorting.

Local Open Scope Z_scope.

(* ===================================================================== *)
(** * Machine integers and bytes *)
(* ===================================================================== *)

Module Int32.

Definition min_int : Z := - 2 ^ 31.
Definition max_int : Z := 2 ^ 31 - 1.

(** The value a Go [int32] holds after an arithmetic result [z]: two's
    complement wrap-around. *)
Definition wrap (z : Z) : Z := (z + 2 ^ 31) mod 2 ^ 32 - 2 ^ 31.

Definition in_range (z : Z) : Prop := min_int <= z <= max_int.
Definition in_rangeb (z : Z) : bool := (min_int <=? z) && (z <=? max_int).

End Int32.

#[global] Instance byte_eq_dec : EqDecision byte := Byte.byte_eq_dec.

(** Go's conversion [byte(x)] of a signed integer: the low eight bits. *)
Definition byte_of_Z (z : Z) : byte :=
  match Byte.of_N (Z.to_N (z mod 256)) with
  | Some b => b
  | None => x00
  end.

Definition Z_of_byte (b : byte) : Z := Z.of_N (Byte.to_N b).

(** [len(s)] as a Go [int]. *)
Definition len {A} (l : list A) : Z := Z.of_nat (length l).

(** Text constants of the sources are byte strings. *)
Definition bytes_of (s : string) : list byte := list_byte_of_string s.

(* ===================================================================== *)
(** * hash/crc32: the IEEE checksum *)
(* ===================================================================== *)

Module crc32.

(** Reflected IEEE polynomial. *)
Definition IEEE : Z := 0xEDB88320.

Definition shift1 (c : Z) : Z :=
  if Z.odd c then Z.lxor (Z.shiftr c 1) IEEE else Z.shiftr c 1.

Definition update_byte (c : Z) (b : byte) : Z :=
  Nat.iter 8 shift1 (Z.lxor c (Z_of_byte b)).

(** [crc32.ChecksumIEEE], a [uint32]. *)
Definition ChecksumIEEE (p : list byte) : Z :=
  Z.lxor (fold_left update_byte p 0xFFFFFFFF) 0xFFFFFFFF.

End crc32.

(* ===================================================================== *)
(** * wal_data.go *)
(* ===================================================================== *)

(** A Go [[]byte]: [None] is the nil slice, which [encoding/json] prints as
    [null]; [Some []] is the empty, non-nil slice, printed as an empty string. *)
Definition slice : Type := option (list byte).

Definition elems (s : slice) : list byte :=
  match s with Some l => l | None => [] end.

Record WalData : Type := mkWalData {
  Seq : Z;            (* int32  `json:"seq"`   *)
  Data : slice;       (* []byte `json:"data"`  *)
  CRC : Z;            (* int32  `json:"crc"`   *)
  Checkpoint : bool   (* bool   `json:"check"` *)
}.

(** [int32(crc32.ChecksumIEEE(append(data, byte(sequenceNo))))]. *)
Definition checksum (sequenceNo : Z) (data : slice) : Z :=
  Int32.wrap (crc32.ChecksumIEEE (elems data ++ [byte_of_Z sequenceNo])).

Definition NewWalData (sequenceNo : Z) (data : slice) : WalData :=
  {| Seq := sequenceNo;
     Data := data;
     CRC := checksum sequenceNo data;
     Checkpoint := false |}.

Definition GetLastSequence (w : WalData) : Z := Seq w.
Definition GetData (w : WalData) : slice := Data w.
Definition IsCheckpoint (w : WalData) : bool := Checkpoint w.

Definition IsValid (w : WalData) : bool :=
  CRC w =? checksum (Seq w) (Data w).

(** The zero value [WalData{}]. *)
Definition zeroWalData : WalData :=
  {| Seq := 0; Data := None; CRC := 0; Checkpoint := false |}.

(* ===================================================================== *)
(** * encoding/base64: the standard, padded encoding *)
(* ===================================================================== *)

Module base64.

Definition pad : byte := "="%byte.

(** The standard alphabet [A-Za-z0-9+/], by position. *)
Definition enc6 (i : Z) : byte :=
  if i <? 26 then byte_of_Z (i + 65)
  else if i <? 52 then byte_of_Z (i + 71)
  else if i <? 62 then byte_of_Z (i - 4)
  else if i =? 62 then "+"%byte
  else "/"%byte.

Definition dec6 (c : byte) : option Z :=
  let x := Z_of_byte c in
  if (65 <=? x) && (x <=? 90) then Some (x - 65)
  else if (97 <=? x) && (x <=? 122) then Some (x - 71)
  else if (48 <=? x) && (x <=? 57) then Some (x + 4)
  else if x =? 43 then Some 62
  else if x =? 47 then Some 63
  else None.

Fixpoint EncodeToString (src : list byte) : list byte :=
  match src with
  | [] => []
  | [a] =>
      let x := Z_of_byte a in
      [enc6 (x / 4); enc6 (x mod 4 * 16); pad; pad]
  | [a; b] =>
      let x := Z_of_byte a in
      let y := Z_of_byte b in
      [enc6 (x / 4); enc6 (x mod 4 * 16 + y / 16); enc6 (y mod 16 * 4); pad]
  | a :: b :: c :: rest =>
      let x := Z_of_byte a in
      let y := Z_of_byte b in
      let z := Z_of_byte c in
      enc6 (x / 4) :: enc6 (x mod 4 * 16 + y / 16)
        :: enc6 (y mod 16 * 4 + z / 64) :: enc6 (z mod 64)
        :: EncodeToString rest
  end.

(** [DecodeString]: quanta of four characters; padding only in the last
    quantum; the unused low bits of a padded quantum are not checked, as in
    the non-strict standard decoder. *)
Fixpoint DecodeString (s : list byte) : option (list byte) :=
  match s with
  | [] => Some []
  | c0 :: c1 :: c2 :: c3 :: rest =>
      match dec6 c0, dec6 c1 with
      | Some i0, Some i1 =>
          let b0 := byte_of_Z (i0 * 4 + i1 / 16) in
          if Byte.eqb c3 pad then
            match rest with
            | [] =>
                if Byte.eqb c2 pad then Some [b0]
                else
                  match dec6 c2 with
                  | Some i2 => Some [b0; byte_of_Z (i1 mod 16 * 16 + i2 / 4)]
                  | None => None
                  end
            | _ :: _ => None
            end
          else
            match dec6 c2, dec6 c3, DecodeString rest with
            | Some i2, Some i3, Some tl =>
                Some (b0 :: byte_of_Z (i1 mod 16 * 16 + i2 / 4)
                         :: byte_of_Z (i2 mod 4 * 64 + i3) :: tl)
            | _, _, _ => None
            end
      | _, _ => None
      end
  | _ => None
  end.

End base64.

(* ===================================================================== *)
(** * strconv: decimal integers *)
(* ===================================================================== *)

Module strconv.

Fixpoint digits (u : uint) : list byte :=
  match u with
  | Nil => []
  | D0 u => "0"%byte :: digits u
  | D1 u => "1"%byte :: digits u
  | D2 u => "2"%byte :: digits u
  | D3 u => "3"%byte :: digits u
  | D4 u => "4"%byte :: digits u
  | D5 u => "5"%byte :: digits u
  | D6 u => "6"%byte :: digits u
  | D7 u => "7"%byte :: digits u
  | D8 u => "8"%byte :: digits u
  | D9 u => "9"%byte :: digits u
  end.

(** [strconv.FormatInt(z, 10)] (what [%d] and the JSON encoder print). *)
Definition FormatInt (z : Z) : list byte :=
  match Z.to_int z with
  | Pos u => digits u
  | Neg u => "-"%byte :: digits u
  end.

Definition digit (c : byte) : option (uint -> uint) :=
  match c with
  | "0"%byte => Some D0 | "1"%byte => Some D1 | "2"%byte => Some D2
  | "3"%byte => Some D3 | "4"%byte => Some D4 | "5"%byte => Some D5
  | "6"%byte => Some D6 | "7"%byte => Some D7 | "8"%byte => Some D8
  | "9"%byte => Some D9
  | _ => None
  end.

(** The longest run of decimal digits at the head of [s], and what follows. *)
Fixpoint scan (s : list byte) : uint * list byte :=
  match s with
  | [] => (Nil, [])
  | c :: t =>
      match digit c with
      | Some d => let (u, r) := scan t in (d u, r)
      | None => (Nil, s)
      end
  end.

(** [strconv.Atoi]: an optional sign and at least one digit, nothing else;
    the value must fit an [int] (64 bits). *)
Definition Atoi (s : list byte) : option Z :=
  let (neg, body) :=
    match s with
    | c :: t =>
        if Byte.eqb c "-"%byte then (true, t)
        else if Byte.eqb c "+"%byte then (false, t)
        else (false, s)
    | [] => (false, s)
    end in
  match scan body with
  | (Nil, _) => None
  | (u, []) =>
      let z := Z.of_int (if neg : bool then Neg u else Pos u) in
      if (- 2 ^ 63 <=? z) && (z <=? 2 ^ 63 - 1) then Some z else None
  | (_, _ :: _) => None
  end.

End strconv.

(* ===================================================================== *)
(** * encoding/json on [WalData] *)
(* ===================================================================== *)

Module json.

Definition quote : byte := x22.
Definition backslash : byte := x5c.

Definition key (k : string) : list byte :=
  quote :: bytes_of k ++ [quote; ":"%byte].

Definition bytes_value (d : slice) : list byte :=
  match d with
  | None => bytes_of "null"
  | Some l => quote :: base64.EncodeToString l ++ [quote]
  end.

Definition bool_value (b : bool) : list byte :=
  if b then bytes_of "true" else bytes_of "false".

(** [json.Marshal] of a [WalData]: the fields in declaration order under
    their tags; it cannot fail on this type. *)
Definition Marshal (v : WalData) : list byte :=
  "{"%byte :: key "seq" ++ strconv.FormatInt (Seq v)
    ++ ","%byte :: key "data" ++ bytes_value (Data v)
    ++ ","%byte :: key "crc" ++ strconv.FormatInt (CRC v)
    ++ ","%byte :: key "check" ++ bool_value (Checkpoint v)
    ++ ["}"%byte].

(** ** Decoding

    [json.Unmarshal] is modelled on the documents whose members are the four
    tagged fields, in any order and each optional, written without
    insignificant white space and without string escapes; the literal [null]
    is accepted at top level and as any member value.  Every other input is
    reported as a syntax error.  Within this fragment the model keeps the
    decoder's observable rules: a member absent from the document leaves the
    destination field as it was, a later duplicate wins, [null] clears a
    slice and leaves numbers and booleans alone, a number must be a JSON
    integer that fits [int32]. *)

Definition starts_with (p s : list byte) : option (list byte) :=
  if decide (take (length p) s = p) then Some (drop (length p) s) else None.

(** A JSON integer literal at the head of [s]: an optional minus sign, then
    either a single zero or digits that do not start with a zero. *)
Definition int32_value (s : list byte) : option (Z * list byte) :=
  let (neg, body) :=
    match s with
    | c :: t => if Byte.eqb c "-"%byte then (true, t) else (false, s)
    | [] => (false, s)
    end in
  match strconv.scan body with
  | (Nil, _) => None
  | (u, rest) =>
      if uint_beq (unorm u) u then
        let z := Z.of_int (if neg : bool then Neg u else Pos u) in
        if Int32.in_rangeb z then Some (z, rest) else None
      else None
  end.

(** The characters of a string literal up to its closing quote. *)
Fixpoint string_body (s : list byte) : option (list byte * list byte) :=
  match s with
  | [] => None
  | c :: t =>
      if Byte.eqb c quote then Some ([], t)
      else if Byte.eqb c backslash then None
      else
        match string_body t with
        | Some (b, r) => Some (c :: b, r)
        | None => None
        end
  end.

(** Decode the value of member [k] at the head of [s] into [v]. *)
Definition member_value (k : list byte) (s : list byte) (v : WalData)
  : option (WalData * list byte) :=
  if decide (k = bytes_of "seq") then
    match starts_with (bytes_of "null") s with
    | Some r => Some (v, r)
    | None =>
        match int32_value s with
        | Some (z, r) =>
            Some ({| Seq := z; Data := Data v; CRC := CRC v;
                     Checkpoint := Checkpoint v |}, r)
        | None => None
        end
    end
  else if decide (k = bytes_of "data") then
    match starts_with (bytes_of "null") s with
    | Some r =>
        Some ({| Seq := Seq v; Data := None; CRC := CRC v;
                 Checkpoint := Checkpoint v |}, r)
    | None =>
        match s with
        | c :: t =>
            if Byte.eqb c quote then
              match string_body t with
              | Some (b, r) =>
                  match base64.DecodeString b with
                  | Some l =>
                      Some ({| Seq := Seq v; Data := Some l; CRC := CRC v;
                               Checkpoint := Checkpoint v |}, r)
                  | None => None
                  end
              | None => None
              end
            else None
        | [] => None
        end
    end
  else if decide (k = bytes_of "crc") then
    match starts_with (bytes_of "null") s with
    | Some r => Some (v, r)
    | None =>
        match int32_value s with
        | Some (z, r) =>
            Some ({| Seq := Seq v; Data := Data v; CRC := z;
                     Checkpoint := Checkpoint v |}, r)
        | None => None
        end
    end
  else if decide (k = bytes_of "check") then
    match starts_with (bytes_of "null") s with
    | Some r => Some (v, r)
    | None =>
        match starts_with (bytes_of "true") s with
        | Some r =>
            Some ({| Seq := Seq v; Data := Data v; CRC := CRC v;
                     Checkpoint := true |}, r)
        | None =>
            match starts_with (bytes_of "false") s with
            | Some r =>
                Some ({| Seq := Seq v; Data := Data v; CRC := CRC v;
                         Checkpoint := false |}, r)
            | None => None
            end
        end
    end
  else None.

(** The members of an object, [s] standing just after the opening brace or
    after a comma.  Every round consumes input, so [length s] rounds are
    enough. *)
Fixpoint members (fuel : nat) (s : list byte) (v : WalData) : option WalData :=
  match fuel with
  | O => None
  | S fuel =>
      match s with
      | c :: s1 =>
          if Byte.eqb c quote then
            match string_body s1 with
            | Some (k, c2 :: s2) =>
                if Byte.eqb c2 ":"%byte then
                  match member_value k s2 v with
                  | Some (v', c3 :: s3) =>
                      if Byte.eqb c3 ","%byte then members fuel s3 v'
                      else if Byte.eqb c3 "}"%byte then
                        match s3 with [] => Some v' | _ :: _ => None end
                      else None
                  | _ => None
                  end
                else None
            | _ => None
            end
          else None
      | [] => None
      end
  end.

Definition object (s : list byte) (v : WalData) : option WalData :=
  match s with
  | c :: t =>
      if Byte.eqb c "{"%byte then
        if decide (t = ["}"%byte]) then Some v else members (length t) t v
      else None
  | [] => None
  end.

(** The outcome of [json.Unmarshal(data, &p)] for [p] of type [*WalData]:
    an error, or the pointer afterwards ([None] is the nil pointer). *)
Inductive decoded : Type :=
| SyntaxError
| Pointer (p : option WalData).

(** [null] sets the pointer to nil; an object is decoded into the value the
    pointer refers to, a fresh zero value being allocated when it is nil. *)
Definition Unmarshal (data : list byte) (p : option WalData) : decoded :=
  if decide (data = bytes_of "null") then Pointer None
  else
    match object data (default zeroWalData p) with
    | Some v => Pointer (Some v)
    | None => SyntaxError
    end.

End json.

(* ===================================================================== *)
(** * os: the data directory *)
(* ===================================================================== *)

(** Errors the package returns. *)
Inductive error : Type :=
| ErrBrokenData      (* "broken data in log" *)
| ErrRead            (* "something went wrong while reading log file" *)
| ErrLoad            (* errors.New("failed to load data from log") *)
| ErrSegmentNo       (* errors.New("segment no must start from 1") *)
| ErrUnableToRead    (* fmt.Errorf("unable to read log file - %s", filename) *)
| ErrOS.             (* an error of the [os] package, passed on unchanged *)

Inductive panic : Type :=
| InvalidFileNameFormat (fileName : string)
| InvalidSegmentNumber (fileName : string)
| UnableToOpenFile (filePath : string)
| MakesliceLenOutOfRange     (* make([]byte, size) with size < 0 *)
| NilPointerDereference.     (* a method reading a field through a nil *WalData *)

Module os.

Inductive node : Type :=
| File (content : list byte)
| Dir.

(** The data directory: its entries by name.  Paths of the sources are
    [filepath.Join(directory, name)]; the model keeps [name]. *)
Abbreviation FS := (gmap string node).

(** A handle is the name its file has; the package never renames or removes a
    file it still holds a handle on without replacing the handle. *)
Abbreviation handle := string (only parsing).

(** [OpenFile(path, O_CREATE|O_RDONLY, 0644)] followed by reading the file:
    the content, and the directory with the file created when it was
    missing. *)
Definition OpenFile_CREATE_RDONLY (path : string) (fs : FS)
  : option (list byte * FS) :=
  match fs !! path with
  | Some (File c) => Some (c, fs)
  | Some Dir => None
  | None => Some ([], <[path := File []]> fs)
  end.

(** [OpenFile(path, O_CREATE|O_APPEND|O_WRONLY, 0644)]: an existing file is
    kept as it is. *)
Definition OpenFile_CREATE_APPEND_WRONLY (path : string) (fs : FS) : option FS :=
  match fs !! path with
  | Some (File _) => Some fs
  | Some Dir => None
  | None => Some (<[path := File []]> fs)
  end.

(** [f.Write(p)] on a handle opened with [O_APPEND]. *)
Definition Write (f : handle) (p : list byte) (fs : FS) : option FS :=
  match fs !! f with
  | Some (File c) => Some (<[f := File (c ++ p)]> fs)
  | _ => None
  end.

(** [f.Stat()], then [info.Size()]. *)
Definition Stat_Size (f : handle) (fs : FS) : option Z :=
  match fs !! f with
  | Some (File c) => Some (len c)
  | _ => None
  end.

Definition Rename (oldpath newpath : string) (fs : FS) : option FS :=
  match fs !! oldpath, fs !! newpath with
  | Some (File c), Some (File _) | Some (File c), None =>
      Some (<[newpath := File c]> (delete oldpath fs))
  | _, _ => None
  end.

Definition name_le (a b : string * node) : Prop := String.leb a.1 b.1 = true.

#[global] Instance name_le_dec : RelDecision name_le.
Proof. intros a b. unfold name_le. apply _. Defined.

(** [os.ReadDir]: all entries, sorted by file name. *)
Definition ReadDir (fs : FS) : list (string * node) :=
  merge_sort name_le (map_to_list fs).

End os.

Import os.

(* ===================================================================== *)
(** * bufio.Writer *)
(* ===================================================================== *)

Module bufio.

Definition defaultBufSize : Z := 4096.

(** [b.Write(p)] on a writer over handle [wr] holding [buf]: what does not
    fit is passed on; a write larger than the empty buffer goes to the file
    directly. *)
Definition Write (wr : handle) (buf p : list byte) (fs : FS)
  : option (list byte * FS) :=
  if len p <=? defaultBufSize - len buf then Some (buf ++ p, fs)
  else
    match buf with
    | [] =>
        match os.Write wr p fs with
        | Some fs' => Some ([], fs')
        | None => None
        end
    | _ :: _ =>
        let n := Z.to_nat (defaultBufSize - len buf) in
        match os.Write wr (buf ++ take n p) fs with
        | Some fs1 =>
            let p' := drop n p in
            if len p' <=? defaultBufSize then Some (p', fs1)
            else
              match os.Write wr p' fs1 with
              | Some fs2 => Some ([], fs2)
              | None => None
              end
        | None => None
        end
    end.

(** [b.Flush()]. *)
Definition Flush (wr : handle) (buf : list byte) (fs : FS)
  : option (list byte * FS) :=
  match buf with
  | [] => Some ([], fs)
  | _ :: _ =>
      match os.Write wr buf fs with
      | Some fs' => Some ([], fs')
      | None => None
      end
  end.

End bufio.

(* ===================================================================== *)
(** * wal.go: state and results *)
(* ===================================================================== *)

(** The fields of [Wal] that carry data.  [dataDirectory] is the directory the
    file system value stands for; [writer] is the content of the
    [bufio.Writer], which always writes to [logFile]; the ticker and the lock
    belong to the concurrent layer and are not part of this model. *)
Record Wal : Type := mkWal {
  logFile : handle;
  writer : list byte;
  maxLogSize : Z;
  lastSegmentNo : Z;
  lastSequenceNo : Z
}.

Definition state : Type := Wal * FS.

(** What a call leaves behind: a value, a returned [error], a panic, or no
    return at all. *)
Inductive res (S A : Type) : Type :=
| Ok (a : A) (s : S)
| Err (e : error) (s : S)
| Panic (p : panic)
| Loops.

Arguments Ok {S A} a s.
Arguments Err {S A} e s.
Arguments Panic {S A} p.
Arguments Loops {S A}.

Definition M (A : Type) : Type := state -> res state A.

Definition ret {A} (a : A) : M A := fun s => Ok a s.

Definition bind {A B} (m : M A) (k : A -> M B) : M B :=
  fun s =>
    match m s with
    | Ok a s' => k a s'
    | Err e s' => Err e s'
    | Panic p => Panic p
    | Loops => Loops
    end.

Declare Scope wal_scope.
Delimit Scope wal_scope with wal.
Notation "x <- m ;; k" := (bind m (fun x => k))
  (at level 100, m at next level, right associativity) : wal_scope.
Notation "m ;;; k" := (bind m (fun _ => k))
  (at level 100, right associativity) : wal_scope.

(** Results of the loops that walk a byte image. *)
Inductive scan (A : Type) : Type :=
| Got (a : A)
| Bad (e : error)
| Crash (p : panic)
| Hang.

Arguments Got {A} a.
Arguments Bad {A} e.
Arguments Crash {A} p.
Arguments Hang {A}.

(* ===================================================================== *)
(** * wal.go: helpers *)
(* ===================================================================== *)

Definition fileExt : string := "db".
Definition filePrefix : string := "wal".

(** [fmt.Sprintf("%s@%d.%s", filePrefix, segmentNo, fileExt)]. *)
Definition getLogFileName (segmentNo : Z) : string :=
  string_of_list_byte
    (bytes_of filePrefix ++ "@"%byte :: strconv.FormatInt segmentNo
       ++ "."%byte :: bytes_of fileExt).

(** [fmt.Sprintf("%s.tmp", name)]. *)
Definition tmpName (name : string) : string :=
  string_of_list_byte (bytes_of name ++ bytes_of ".tmp").

(** [intToBytes(num, binary.LittleEndian)] for [num] of type [int32];
    [binary.Write] cannot fail on a fixed-size value. *)
Definition intToBytes (num : Z) : list byte :=
  [byte_of_Z num; byte_of_Z (num / 2 ^ 8);
   byte_of_Z (num / 2 ^ 16); byte_of_Z (num / 2 ^ 24)].

(** The [int32] that [binary.Read(r, binary.LittleEndian, &size)] stores from
    four bytes. *)
Definition int32_le (bs : list byte) : Z :=
  match bs with
  | [b0; b1; b2; b3] =>
      Int32.wrap (Z_of_byte b0 + 2 ^ 8 * Z_of_byte b1
                  + 2 ^ 16 * Z_of_byte b2 + 2 ^ 24 * Z_of_byte b3)
  | _ => 0
  end.

(** [strings.SplitN(s, sep, 2)] for a one-byte separator: the text before and
    after its first occurrence, [None] when the result has a single part. *)
Fixpoint SplitN2 (sep : byte) (s : list byte) : option (list byte * list byte) :=
  match s with
  | [] => None
  | c :: t =>
      if Byte.eqb c sep then Some ([], t)
      else
        match SplitN2 sep t with
        | Some (a, b) => Some (c :: a, b)
        | None => None
        end
  end.

Definition getSegmentNumberFromFile (fileName : string) : panic + Z :=
  match SplitN2 "@"%byte (bytes_of fileName) with
  | None => inl (InvalidFileNameFormat fileName)
  | Some (_, part1) =>
      match SplitN2 "."%byte part1 with
      | None => inl (InvalidFileNameFormat fileName)
      | Some (segmentPart0, _) =>
          match strconv.Atoi segmentPart0 with
          | None => inl (InvalidSegmentNumber fileName)
          | Some segmentNumber => inr (Int32.wrap segmentNumber)
          end
      end
  end.

(* ===================================================================== *)
(** * wal.go: the log *)
(* ===================================================================== *)

Local Open Scope wal_scope.

Definition set_writer (buf : list byte) (w : Wal) : Wal :=
  {| logFile := logFile w; writer := buf; maxLogSize := maxLogSize w;
     lastSegmentNo := lastSegmentNo w; lastSequenceNo := lastSequenceNo w |}.

Definition set_lastSequenceNo (n : Z) (w : Wal) : Wal :=
  {| logFile := logFile w; writer := writer w; maxLogSize := maxLogSize w;
     lastSegmentNo := lastSegmentNo w; lastSequenceNo := n |}.

(** [w.Sync()]: [w.writer.Flush()]. *)
Definition Sync : M unit :=
  fun '(w, fs) =>
    match bufio.Flush (logFile w) (writer w) fs with
    | Some (buf, fs') => Ok tt (set_writer buf w, fs')
    | None => Err ErrOS (w, fs)
    end.

Definition rotateLog : M unit :=
  Sync ;;;
  fun '(w, fs) =>
    let newSegmentNo := Int32.wrap (lastSegmentNo w + 1) in
    let newLogFile := getLogFileName newSegmentNo in
    match OpenFile_CREATE_APPEND_WRONLY newLogFile fs with
    | None => Err ErrOS (w, fs)
    | Some fs' =>
        Ok tt ({| logFile := newLogFile; writer := [];
                  maxLogSize := maxLogSize w;
                  lastSegmentNo := newSegmentNo;
                  lastSequenceNo := lastSequenceNo w |}, fs')
    end.

Definition checkAndRotateLog (newSize : Z) : M unit :=
  fun '(w, fs) =>
    match Stat_Size (logFile w) fs with
    | None => Err ErrOS (w, fs)
    | Some size =>
        if size + newSize >? maxLogSize w then rotateLog (w, fs)
        else Ok tt (w, fs)
    end.

(** [w.writer.Write(byteData)]. *)
Definition writer_Write (byteData : list byte) : M unit :=
  fun '(w, fs) =>
    match bufio.Write (logFile w) (writer w) byteData fs with
    | Some (buf, fs') => Ok tt (set_writer buf w, fs')
    | None => Err ErrOS (w, fs)
    end.

Definition writeData (data : slice) : M unit :=
  fun '(w, fs) =>
    let w := set_lastSequenceNo (Int32.wrap (lastSequenceNo w + 1)) w in
    let walData := NewWalData (lastSequenceNo w) data in
    let byteData := json.Marshal walData in
    let size := intToBytes (Int32.wrap (len byteData)) in
    (checkAndRotateLog (len byteData + len size) ;;;
     writer_Write (size ++ byteData)) (w, fs).

Definition Write (data : slice) : M unit := writeData data.

(** The loop of [readSegment] over what is left of the file.  Every round
    that goes on takes at least the four length bytes, so [S (length rest)]
    rounds are never used up. *)
Fixpoint readSegment_loop (fuel : nat) (rest : list byte) (data : list WalData)
  : scan (list WalData) :=
  match fuel with
  | O => Hang
  | S fuel =>
      match rest with
      | [] => Got data                                   (* io.EOF *)
      | _ :: _ =>
          if len rest <? 4 then Bad ErrRead              (* io.ErrUnexpectedEOF *)
          else
            let size := int32_le (take 4 rest) in
            let rest := drop 4 rest in
            if size <? 0 then Crash MakesliceLenOutOfRange
            else if len rest <? size then Bad ErrRead
            else
              let byteData := take (Z.to_nat size) rest in
              match json.Unmarshal byteData None with
              | json.SyntaxError => Bad ErrLoad
              | json.Pointer None => Crash NilPointerDereference
              | json.Pointer (Some curData) =>
                  if IsValid curData
                  then readSegment_loop fuel (drop (Z.to_nat size) rest)
                         (data ++ [curData])
                  else Bad ErrBrokenData
              end
      end
  end.

Definition readSegment (segmentNo : Z) : M (list WalData) :=
  fun '(w, fs) =>
    match OpenFile_CREATE_RDONLY (getLogFileName segmentNo) fs with
    | None => Err ErrOS (w, fs)
    | Some (content, fs') =>
        match readSegment_loop (S (length content)) content [] with
        | Got data => Ok data (w, fs')
        | Bad e => Err e (w, fs')
        | Crash p => Panic p
        | Hang => Loops
        end
    end.

Definition readData (segmentNo : Z) : M (list slice) :=
  walDataSet <- readSegment segmentNo ;;
  ret (map GetData walDataSet).

Definition Read : M (list slice) :=
  fun '(w, fs) => readData (lastSegmentNo w) (w, fs).

(** The loop of [ReadFromSegment], [n] rounds from segment [i]. *)
Fixpoint ReadFromSegment_loop (n : nat) (i : Z) (data : list slice)
  : M (list slice) :=
  match n with
  | O => ret data
  | S n =>
      curData <- readData i ;;
      ReadFromSegment_loop n (i + 1) (data ++ curData)
  end.

(** [for i := segmentNo; i <= totalSegment; i++]: the counter is an [int32],
    so with [totalSegment] at its maximum the condition never fails; the
    model covers the other values of [totalSegment]. *)
Definition ReadFromSegment (segmentNo : Z) : M (list slice) :=
  fun '(w, fs) =>
    if segmentNo <? 1 then Err ErrSegmentNo (w, fs)
    else
      let totalSegment := lastSegmentNo w in
      ReadFromSegment_loop (Z.to_nat (totalSegment - segmentNo + 1))
        segmentNo [] (w, fs).

(** The loop of [repairSegment]: the image of the frames accepted so far and
    the record [lastData] points to.  A round that goes on has read a whole
    frame, so [S (length rest)] rounds are never used up. *)
Fixpoint repairSegment_loop (fuel : nat) (rest : list byte)
    (data : list byte) (lastData : option WalData)
  : scan (list byte * option WalData) :=
  match fuel with
  | O => Hang
  | S fuel =>
      match rest with
      | [] => Got (data, lastData)                       (* io.EOF *)
      | _ :: _ =>
          (* any other error of binary.Read leaves size at 0 *)
          let size := if len rest <? 4 then 0 else int32_le (take 4 rest) in
          let rest := drop 4 rest in
          if size <? 0 then Crash MakesliceLenOutOfRange
          else if len rest <? size then Got (data, lastData)
          else
            let byteData := take (Z.to_nat size) rest in
            match json.Unmarshal byteData (Some zeroWalData) with
            | json.SyntaxError => Got (data, lastData)
            | json.Pointer None => Crash NilPointerDereference
            | json.Pointer (Some walData) =>
                if IsValid walData then
                  let curSize := intToBytes (Int32.wrap (len byteData)) in
                  let data := (data ++ curSize) ++ byteData in
                  let lastData :=
                    match json.Unmarshal byteData lastData with
                    | json.Pointer p => p
                    | json.SyntaxError => lastData
                    end in
                  repairSegment_loop fuel (drop (Z.to_nat size) rest)
                    data lastData
                else Got (data, lastData)
            end
      end
  end.

Definition repairSegment (segmentNo : Z) : M unit :=
  fun '(w, fs) =>
    let segFileName := getLogFileName segmentNo in
    match OpenFile_CREATE_RDONLY segFileName fs with
    | None => Err ErrOS (w, fs)
    | Some (content, fs) =>
        match repairSegment_loop (S (length content)) content []
                (Some zeroWalData) with
        | Crash p => Panic p
        | Hang => Loops
        | Bad e => Err e (w, fs)
        | Got (data, lastData) =>
            let segFileNameNew := getLogFileName segmentNo in
            let segFileNewPath := tmpName segFileNameNew in
            match OpenFile_CREATE_APPEND_WRONLY segFileNewPath fs with
            | None => Err ErrOS (w, fs)
            | Some fs =>
                match os.Write segFileNewPath data fs with
                | None => Err ErrOS (w, fs)
                | Some fs =>
                    match os.Rename segFileNewPath segFileNameNew fs with
                    | None => Err ErrOS (w, fs)
                    | Some fs =>
                        if segmentNo =? lastSegmentNo w then
                          let w := {| logFile := segFileNameNew; writer := [];
                                      maxLogSize := maxLogSize w;
                                      lastSegmentNo := lastSegmentNo w;
                                      lastSequenceNo := lastSequenceNo w |} in
                          match lastData with
                          | Some d =>
                              Ok tt (set_lastSequenceNo (GetLastSequence d) w, fs)
                          | None => Ok tt (w, fs)
                          end
                        else Ok tt (w, fs)
                    end
                end
            end
        end
    end.

(** [for i := 1; i <= int(w.lastSegmentNo); i++], [n] rounds from [i]. *)
Fixpoint Repair_loop (n : nat) (i : Z) : M unit :=
  match n with
  | O => ret tt
  | S n => repairSegment i ;;; Repair_loop n (i + 1)
  end.

Definition Repair : M unit :=
  Sync ;;;
  fun '(w, fs) => Repair_loop (Z.to_nat (lastSegmentNo w)) 1 (w, fs).

(** The loop body of [getLastLogFile] folded over the directory entries:
    [(reqFile, maxSegment, hasFiles)]. *)
Fixpoint getLastLogFile_loop (entries : list (string * node))
    (reqFile : string) (maxSegment : Z) (hasFiles : bool)
  : panic + (string * Z * bool) :=
  match entries with
  | [] => inr (reqFile, maxSegment, hasFiles)
  | (fileName, entry) :: entries =>
      match entry with
      | Dir => getLastLogFile_loop entries reqFile maxSegment hasFiles
      | File _ =>
          match getSegmentNumberFromFile fileName with
          | inl p => inl p
          | inr segmentNumber =>
              if segmentNumber >? maxSegment
              then getLastLogFile_loop entries fileName segmentNumber true
              else getLastLogFile_loop entries reqFile maxSegment true
          end
      end
  end.

(** With [reqFile] empty the path is the directory itself, which cannot be
    opened for writing. *)
Definition getLastLogFile (fs : FS) : res FS (handle * Z) :=
  match getLastLogFile_loop (ReadDir fs) "" 0 false with
  | inl p => Panic p
  | inr (reqFile, maxSegment, hasFiles) =>
      let '(reqFile, maxSegment) :=
        if hasFiles then (reqFile, maxSegment) else (getLogFileName 1, 1) in
      if decide (reqFile = ""%string) then Panic (UnableToOpenFile reqFile)
      else
        match OpenFile_CREATE_APPEND_WRONLY reqFile fs with
        | None => Panic (UnableToOpenFile reqFile)
        | Some fs' => Ok (reqFile, maxSegment) fs'
        end
  end.

(** The loop of [getLastLogData] over the file: the read offset, the last
    length read and the offset just after it.  The next offset only depends on
    the current one, so a walk of more than [length content + 2] rounds has
    come back to an offset it has seen and never ends. *)
Fixpoint getLastLogData_loop (fuel : nat) (content : list byte)
    (offset size currentOffset : Z) : scan (option WalData) :=
  match fuel with
  | O => Hang
  | S fuel =>
      let avail := len content - offset in
      if avail <=? 0 then                                (* io.EOF *)
        if currentOffset =? 0 then Got None
        else if size <? 0 then Crash MakesliceLenOutOfRange
        else
          let tail := drop (Z.to_nat currentOffset) content in
          if len tail <? size then Bad ErrRead
          else
            match json.Unmarshal (take (Z.to_nat size) tail) None with
            | json.SyntaxError => Bad ErrLoad
            | json.Pointer None => Crash NilPointerDereference
            | json.Pointer (Some data) =>
                if IsValid data then Got (Some data) else Bad ErrBrokenData
            end
      else if avail <? 4 then Bad ErrRead
      else
        let curSize := int32_le (take 4 (drop (Z.to_nat offset) content)) in
        let currentOffset := offset + 4 in
        if currentOffset + curSize <? 0 then Bad ErrRead
        else
          getLastLogData_loop fuel content (currentOffset + curSize)
            curSize currentOffset
  end.

Definition getLastLogData (filename : string) (fs : FS) : scan (option WalData) :=
  match fs !! filename with
  | None => Bad ErrUnableToRead
  | Some Dir => Bad ErrRead
  | Some (File content) =>
      getLastLogData_loop (length content + 2) content 0 0 0
  end.

(** [NewWal(directory, maxLogSizeInKB)] on the directory [fs]; [os.MkdirAll]
    has made sure it exists.  The error of [Repair] is dropped. *)
Definition NewWal (maxLogSizeInKB : Z) (fs : FS) : res FS Wal :=
  match getLastLogFile fs with
  | Panic p => Panic p
  | Loops => Loops
  | Err e fs' => Err e fs'
  | Ok (file, lastSegmentNo) fs =>
      let wal := {| logFile := file; writer := [];
                    maxLogSize := Int32.wrap (maxLogSizeInKB * 1024);
                    lastSegmentNo := lastSegmentNo;
                    lastSequenceNo := 0 |} in
      match getLastLogData file fs with
      | Crash p => Panic p
      | Hang => Loops
      | Got None => Ok wal fs
      | Got (Some data) => Ok (set_lastSequenceNo (GetLastSequence data) wal) fs
      | Bad _ =>
          match Repair (wal, fs) with
          | Ok _ (wal, fs) | Err _ (wal, fs) => Ok wal fs
          | Panic p => Panic p
          | Loops => Loops
          end
      end
  end.

(* ===================================================================== *)
(** * Checkpoints *)
(* ===================================================================== *)

(** Modelled from the spec: [CreateCheckpoint], which the tests call and whose
    definition is not among the sources.  Section 4.7: under the exclusive
    lock, append a specially-flagged record whose payload is empty and whose
    checkpoint flag is true; its sequence number is assigned identically to
    any other record, and it is subject to the same framing, CRC and rotation
    rules. *)
Definition CreateCheckpoint : M unit :=
  fun '(w, fs) =>
    let w := set_lastSequenceNo (Int32.wrap (lastSequenceNo w + 1)) w in
    let plain := NewWalData (lastSequenceNo w) (Some []) in
    let walData := {| Seq := Seq plain; Data := Data plain; CRC := CRC plain;
                      Checkpoint := true |} in
    let byteData := json.Marshal walData in
    let size := intToBytes (Int32.wrap (len byteData)) in
    (checkAndRotateLog (len byteData + len size) ;;;
     writer_Write (size ++ byteData)) (w, fs).

(** The records strictly after the last checkpoint record of a segment;
    [None] when the segment holds no checkpoint. *)
Fixpoint after_last_checkpoint (recs : list WalData) : option (list WalData) :=
  match recs with
  | [] => None
  | r :: t =>
      match after_last_checkpoint t with
      | Some l => Some l
      | None => if IsCheckpoint r then Some t else None
      end
  end.

(** Modelled from the spec: the scan of [ReadFromLastCheckpoint], [n] rounds
    downwards from segment [i].  Section 4.5: scan segments from
    [lastSegmentNo] down to 1, within each segment locate the last record
    whose checkpoint flag is set; return all payloads strictly after that
    record, in write order, spanning all later segments; if no checkpoint
    exists anywhere, behave as [ReadFromSegment(1)]. *)
Fixpoint ReadFromLastCheckpoint_loop (n : nat) (i : Z) : M (list slice) :=
  match n with
  | O => ReadFromSegment 1
  | S n =>
      recs <- readSegment i ;;
      match after_last_checkpoint recs with
      | Some tail =>
          later <- ReadFromSegment (i + 1) ;;
          ret (map GetData tail ++ later)
      | None => ReadFromLastCheckpoint_loop n (i - 1)
      end
  end.

(** Modelled from the spec: [ReadFromLastCheckpoint], which the tests call and
    whose definition is not among the sources. *)
Definition ReadFromLastCheckpoint : M (list slice) :=
  fun '(w, fs) =>
    ReadFromLastCheckpoint_loop (Z.to_nat (lastSegmentNo w)) (lastSegmentNo w)
      (w, fs).

(** A client's calls, for traces. *)
Inductive op : Type :=
| OpWrite (data : slice)
| OpCheckpoint
| OpSync.

Definition step (o : op) : M unit :=
  match o with
  | OpWrite data => Write data
  | OpCheckpoint => CreateCheckpoint
  | OpSync => Sync
  end.

Fixpoint run (ops : list op) : M unit :=
  match ops with
  | [] => ret tt
  | o :: ops => step o ;;; run ops
  end.

(* ===================================================================== *)
(** * Notions used by the statements *)
(* ===================================================================== *)

(** A character that may stand in a JSON string literal as it is. *)
Definition plain (c : byte) : Prop :=
  Byte.eqb c json.quote = false /\ Byte.eqb c json.backslash = false.


(** The frame of a serialized record: [size] followed by [byteData], as
    [writeData] hands it to the writer and [repairSegment] copies it. *)
Definition frame (byteData : list byte) : list byte :=
  intToBytes (Int32.wrap (len byteData)) ++ byteData.

(** The frame [writeData] builds for a record. *)
Definition encode (v : WalData) : list byte := frame (json.Marshal v).

Definition frames (bs : list (list byte)) : list byte := concat (map frame bs).

(** A serialized record short enough for its length to be an [int32]. *)
Definition fits (byteData : list byte) : Prop := len byteData <= Int32.max_int.

(** [byteData] deserializes to the record [v], whose CRC check passes. *)
Definition holds (byteData : list byte) (v : WalData) : Prop :=
  fits byteData
  /\ json.Unmarshal byteData None = json.Pointer (Some v)
  /\ IsValid v = true.

Definition good (byteData : list byte) : Prop := exists v, holds byteData v.

(** The ways the frame at the head of what is left of an image can fail. *)
Definition short_length (t : list byte) : Prop := 0 < len t < 4.

Definition negative_length (t : list byte) : Prop :=
  4 <= len t /\ int32_le (take 4 t) < 0.

Definition short_payload (t : list byte) : Prop :=
  4 <= len t /\ 0 <= int32_le (take 4 t) /\ len t - 4 < int32_le (take 4 t).

Definition undecodable_head (t : list byte) : Prop :=
  exists b more, t = frame b ++ more /\ fits b
                 /\ json.Unmarshal b None = json.SyntaxError.

Definition null_head (t : list byte) : Prop :=
  exists b more, t = frame b ++ more /\ fits b
                 /\ json.Unmarshal b None = json.Pointer None.

Definition crc_mismatch_head (t : list byte) : Prop :=
  exists b v more, t = frame b ++ more /\ fits b
                   /\ json.Unmarshal b None = json.Pointer (Some v)
                   /\ IsValid v = false.

(** What is left makes [repairSegment] stop without a panic. *)
Definition torn (t : list byte) : Prop :=
  t = [] \/ short_length t \/ short_payload t \/ undecodable_head t
  \/ crc_mismatch_head t.

(** [readSegment] and [repairSegment] on the content of a file. *)
Definition read_image (content : list byte) : scan (list WalData) :=
  readSegment_loop (S (length content)) content [].

Definition repair_image (content : list byte)
  : scan (list byte * option WalData) :=
  repairSegment_loop (S (length content)) content [] (Some zeroWalData).

(** Line 287 of wal.go: [json.Unmarshal(byteData, &lastData)]. *)
Definition into_lastData (lastData : option WalData) (byteData : list byte)
  : option WalData :=
  match json.Unmarshal byteData lastData with
  | json.Pointer p => p
  | json.SyntaxError => lastData
  end.


(** How the walk over an image ends: at the end of the file or at the first
    frame that fails one of the four checks. *)
Inductive ending : Type :=
| AtEOF
| ShortLength
| NegativeLength
| ShortPayload
| Undecodable
| NullRecord
| CrcMismatch.

Definition at_head (e : ending) (t : list byte) : Prop :=
  match e with
  | AtEOF => t = []
  | ShortLength => short_length t
  | NegativeLength => negative_length t
  | ShortPayload => short_payload t
  | Undecodable => undecodable_head t
  | NullRecord => null_head t
  | CrcMismatch => crc_mismatch_head t
  end.

(** An image read as frames that pass the checks, followed by what ends the
    walk. *)
Definition parsed (t : list byte) (bs : list (list byte)) (vs : list WalData)
    (tl : list byte) (e : ending) : Prop :=
  t = frames bs ++ tl /\ Forall2 holds bs vs /\ at_head e tl.

(** What [readSegment] answers for each ending. *)
Definition read_ending (e : ending) (vs : list WalData) : scan (list WalData) :=
  match e with
  | AtEOF => Got vs
  | ShortLength | ShortPayload => Bad ErrRead
  | Undecodable => Bad ErrLoad
  | CrcMismatch => Bad ErrBrokenData
  | NegativeLength => Crash MakesliceLenOutOfRange
  | NullRecord => Crash NilPointerDereference
  end.

(** What the loop of [repairSegment] answers for each ending. *)
Definition repair_ending {A} (e : ending) (a : A) : scan A :=
  match e with
  | NegativeLength => Crash MakesliceLenOutOfRange
  | NullRecord => Crash NilPointerDereference
  | _ => Got a
  end.


(** The record [encode(seq, data, checkpoint)] frames: what [NewWalData]
    builds, with the checkpoint flag as given. *)
Definition record (seq : Z) (data : slice) (checkpoint : bool) : WalData :=
  {| Seq := Seq (NewWalData seq data);
     Data := Data (NewWalData seq data);
     CRC := CRC (NewWalData seq data);
     Checkpoint := checkpoint |}.


(** The common body of [writeData] and [CreateCheckpoint]: the next sequence
    number, the record, its frame, rotation, the buffered write. *)
Definition append_record (data : slice) (checkpoint : bool) : M unit :=
  fun '(w, fs) =>
    let w := set_lastSequenceNo (Int32.wrap (lastSequenceNo w + 1)) w in
    let walData := record (lastSequenceNo w) data checkpoint in
    let byteData := json.Marshal walData in
    let size := intToBytes (Int32.wrap (len byteData)) in
    (checkAndRotateLog (len byteData + len size) ;;;
     writer_Write (size ++ byteData)) (w, fs).

(** The bytes of the current segment: what is in its file and what the
    writer still holds. *)
Definition cur_bytes (s : state) : list byte :=
  match s.2 !! logFile s.1 with
  | Some (File c) => c ++ writer s.1
  | _ => writer s.1
  end.

(** A log that can take writes: the directory holds files only and the
    handle of the current segment refers to one of them. *)
Definition alive (s : state) : Prop :=
  (forall name, s.2 !! name <> Some Dir)
  /\ exists c, s.2 !! logFile s.1 = Some (File c).

(** A log whose earlier segments hold the serialized records [closed],
    segment by segment, and whose current segment holds [cur], counting what
    the writer has not flushed yet. *)
Record layout (closed : list (list (list byte))) (cur : list (list byte))
    (s : state) : Prop := mk_layout {
  lay_files : forall name, s.2 !! name <> Some Dir;
  lay_fresh : forall j, len closed + 1 < j -> s.2 !! getLogFileName j = None;
  lay_lastSegmentNo : lastSegmentNo s.1 = len closed + 1;
  lay_logFile : logFile s.1 = getLogFileName (len closed + 1);
  lay_closed : forall (j : nat) bs, closed !! j = Some bs ->
    s.2 !! getLogFileName (Z.of_nat j + 1) = Some (File (frames bs));
  lay_open : exists c,
    s.2 !! getLogFileName (len closed + 1) = Some (File c)
    /\ c ++ writer s.1 = frames cur;
  lay_buffer : len (writer s.1) <= bufio.defaultBufSize
}.

(** Records numbered 1, 2, 3, ... whose CRC is the one [NewWalData] stores. *)
Definition numbered (recs : list WalData) : Prop :=
  map Seq recs = seqZ 1 (len recs)
  /\ Forall (fun v => Int32.in_range (CRC v) /\ IsValid v = true) recs.

(** The log holds the records [closed] and [cur], and the next sequence
    number follows them. *)
Definition consistent (closed : list (list WalData)) (cur : list WalData)
    (s : state) : Prop :=
  layout (map (map json.Marshal) closed) (map json.Marshal cur) s
  /\ lastSequenceNo s.1 = len (concat closed ++ cur)
  /\ numbered (concat closed ++ cur).

(** The size a segment can reach: the threshold plus what the writer can
    hold back from [Stat], unless the segment has a single frame. *)
Definition seg_bounded (maxLog : Z) (bs : list (list byte)) : Prop :=
  len (frames bs) <= maxLog + bufio.defaultBufSize \/ (length bs <= 1)%nat.

(** The records a trace writes, numbered from [seq]. *)
Fixpoint records_of (seq : Z) (ops : list op) : list WalData :=
  match ops with
  | [] => []
  | OpWrite data :: ops => record seq data false :: records_of (seq + 1) ops
  | OpCheckpoint :: ops => record seq (Some []) true :: records_of (seq + 1) ops
  | OpSync :: ops => records_of seq ops
  end.

Definition is_checkpoint (o : op) : bool :=
  match o with OpCheckpoint => true | _ => false end.

(** The payloads a trace writes strictly after its most recent
    [OpCheckpoint]; all of them when it has none. *)
Fixpoint payloads_after_checkpoint (ops : list op) : list slice :=
  match ops with
  | [] => []
  | o :: ops =>
      if existsb is_checkpoint ops then payloads_after_checkpoint ops
      else
        match o with
        | OpWrite data => data :: payloads_after_checkpoint ops
        | _ => payloads_after_checkpoint ops
        end
  end.


(** A consistent log under the threshold [maxLog], each of whose segments is
    within the size a segment can reach. *)
Definition wellformed (maxLog : Z) (closed : list (list WalData))
    (cur : list WalData) (s : state) : Prop :=
  consistent closed cur s
  /\ maxLogSize s.1 = maxLog
  /\ Forall (seg_bounded maxLog)
       (map (map json.Marshal) closed ++ [map json.Marshal cur]).

(** The writes of a trace. *)
Definition writes (ops : list op) : Z := len (records_of 1 ops).


(** Every segment is on disk in full and reads back as its records. *)
Definition stored (segs : list (list WalData)) (s : state) : Prop :=
  lastSegmentNo s.1 = len segs
  /\ forall (j : nat) recs, segs !! j = Some recs ->
       s.2 !! getLogFileName (Z.of_nat j + 1)
       = Some (File (frames (map json.Marshal recs)))
       /\ Forall2 holds (map json.Marshal recs) recs.

(** The records after the last checkpoint record, or all of them when there
    is none. *)
Definition since_checkpoint (recs : list WalData) : list WalData :=
  match after_last_checkpoint recs with
  | Some l => l
  | None => recs
  end.


(** The [Wal] after [repairSegment] has replaced segment [segmentNo], with
    [lastData] as the loop left it (lines 306 to 313 of wal.go). *)
Definition repaired_wal (segmentNo : Z) (w : Wal) (lastData : option WalData)
  : Wal :=
  if segmentNo =? lastSegmentNo w then
    let w' := {| logFile := getLogFileName segmentNo; writer := [];
                 maxLogSize := maxLogSize w;
                 lastSegmentNo := lastSegmentNo w;
                 lastSequenceNo := lastSequenceNo w |} in
    match lastData with
    | Some d => set_lastSequenceNo (GetLastSequence d) w'
    | None => w'
    end
  else w.

(** The content [OpenFile] with [O_CREATE] finds under a name. *)
Definition content_of (fs : FS) (name : string) (content : list byte) : Prop :=
  fs !! name = Some (File content) \/ (fs !! name = None /\ content = []).

(** Segment [j] is as a repair leaves it. *)
Definition settled (j : Z) (s : state) : Prop :=
  exists bs vs,
    s.2 !! getLogFileName j = Some (File (frames bs))
    /\ Forall2 holds bs vs
    /\ s.2 !! tmpName (getLogFileName j) = None
    /\ (j = lastSegmentNo s.1 ->
        s.1 = repaired_wal j s.1 (fold_left into_lastData bs (Some zeroWalData))).

(** No file is left under the temporary name of a segment of the log. *)
Definition no_leftover (s : state) : Prop :=
  forall j, 1 <= j <= lastSegmentNo s.1 ->
    s.2 !! tmpName (getLogFileName j) = None.


(** A frame of the shape [{"data":...,"crc":...}], without a [seq] member,
    for the payload [data] and sequence number 0. *)
Definition frame_without_seq (data : list byte) : list byte :=
  frame ("{"%byte :: json.key "data" ++ json.bytes_value (Some data)
           ++ ","%byte :: json.key "crc"
           ++ strconv.FormatInt (checksum 0 (Some data)) ++ ["}"%byte]).


(** The only change a read makes to the directory: a segment file that was
    missing is there, empty. *)
Definition only_creates (fs fs' : FS) : Prop :=
  forall name,
    fs' !! name = fs !! name
    \/ (fs !! name = None /\ fs' !! name = Some (File [])
        /\ exists j, name = getLogFileName j).

(** A call that leaves the [Wal] as it was and at most creates empty segment
    files. *)
Definition read_effect {A} (r : res state A) (s : state) : Prop :=
  match r with
  | Ok _ s' | Err _ s' => s'.1 = s.1 /\ only_creates s.2 s'.2
  | Panic _ | Loops => True
  end.

(** A call that leaves the state as it was. *)
Definition unchanged {A} (r : res state A) (s : state) : Prop :=
  match r with
  | Ok _ s' | Err _ s' => s' = s
  | Panic _ | Loops => True
  end.

(** The files of the segments a read can ask for are all there. *)
Definition segments_present (s : state) : Prop :=
  forall j, 1 <= j <= lastSegmentNo s.1 \/ j = lastSegmentNo s.1 ->
    exists c, s.2 !! getLogFileName j = Some (File c).


(** What [getLastLogData] answers for the serialized record [byteData] of
    the last frame (lines 429 to 441 of wal.go). *)
Definition check_last (byteData : list byte) : scan (option WalData) :=
  match json.Unmarshal byteData None with
  | json.SyntaxError => Bad ErrLoad
  | json.Pointer None => Crash NilPointerDereference
  | json.Pointer (Some data) =>
      if IsValid data then Got (Some data) else Bad ErrBrokenData
  end.

(** Files are only appended to: every file of [fs] is in [fs'] with its
    content as a prefix. *)
Definition grows (fs fs' : FS) : Prop :=
  forall name c, fs !! name = Some (File c) ->
    exists more, fs' !! name = Some (File (c ++ more)).

(** The one name [fs'] may have that [fs] does not is [f]. *)
Definition creates_at_most (f : string) (fs fs' : FS) : Prop :=
  forall name, fs' !! name <> None -> fs !! name <> None \/ name = f.

(** Every entry of the directory has the name of a segment with a positive
    number. *)
Definition named_segments (fs : FS) : Prop :=
  forall name, fs !! name <> None -> exists j, 1 <= j /\ name = getLogFileName j.

(** The payloads a trace hands to [Write], in order. *)
Fixpoint payloads (ops : list op) : list slice :=
  match ops with
  | [] => []
  | OpWrite data :: ops => data :: payloads ops
  | _ :: ops => payloads ops
  end.

(* ===================================================================== *)
(** * Properties *)
(* ===================================================================== *)
(* --------------------------------------------------------------------- *)
(** ** Integers and bytes *)

Lemma wrap_in_range z : Int32.in_range (Int32.wrap z).
Proof.
  unfold Int32.in_range, Int32.wrap, Int32.min_int, Int32.max_int.
  pose proof (Z.mod_pos_bound (z + 2 ^ 31) (2 ^ 32)). lia.
Qed.

Lemma wrap_id z : Int32.in_range z -> Int32.wrap z = z.
Proof.
  unfold Int32.in_range, Int32.wrap, Int32.min_int, Int32.max_int. intros H.
  rewrite Z.mod_small; lia.
Qed.

Lemma in_rangeb_true z : Int32.in_range z -> Int32.in_rangeb z = true.
Proof.
  unfold Int32.in_range, Int32.in_rangeb. intros [H1 H2].
  apply andb_true_intro. split; now apply Z.leb_le.
Qed.

Lemma Z_of_byte_range b : 0 <= Z_of_byte b < 256.
Proof.
  unfold Z_of_byte. pose proof (Byte.to_N_bounded b). lia.
Qed.

Lemma byte_of_Z_of_byte b : byte_of_Z (Z_of_byte b) = b.
Proof.
  unfold byte_of_Z. rewrite Z.mod_small by apply Z_of_byte_range.
  unfold Z_of_byte. rewrite N2Z.id, Byte.of_to_N. reflexivity.
Qed.

Lemma Z_of_byte_of_Z z : Z_of_byte (byte_of_Z z) = z mod 256.
Proof.
  unfold byte_of_Z, Z_of_byte.
  pose proof (Z.mod_pos_bound z 256 ltac:(lia)) as Hm.
  destruct (Byte.of_N (Z.to_N (z mod 256))) as [b|] eqn:E.
  - apply Byte.to_of_N in E. rewrite E. lia.
  - apply Byte.of_N_None_iff in E. lia.
Qed.

Lemma len_app {A} (l1 l2 : list A) : len (l1 ++ l2) = len l1 + len l2.
Proof. unfold len. rewrite length_app. lia. Qed.

Lemma len_nonneg {A} (l : list A) : 0 <= len l.
Proof. unfold len. lia. Qed.

Lemma length_intToBytes n : length (intToBytes n) = 4%nat.
Proof. reflexivity. Qed.

Lemma int32_le_intToBytes n : int32_le (intToBytes n) = Int32.wrap n.
Proof.
  unfold intToBytes, int32_le. rewrite !Z_of_byte_of_Z.
  unfold Int32.wrap. 
  replace (n mod 256 + 2 ^ 8 * ((n / 2 ^ 8) mod 256)
           + 2 ^ 16 * ((n / 2 ^ 16) mod 256) + 2 ^ 24 * ((n / 2 ^ 24) mod 256))
    with (n mod 2 ^ 32).
  - rewrite Zplus_mod_idemp_l. reflexivity.
  - change (2 ^ 8) with 256. change (2 ^ 16) with (256 * 256).
    change (2 ^ 24) with (256 * 256 * 256). change (2 ^ 32) with (256 * 256 * 256 * 256).
    rewrite !Z.rem_mul_r by lia. reflexivity.
Qed.

(* --------------------------------------------------------------------- *)
(** ** base64 *)

Lemma below64 (P : Z -> bool) :
  forallb P (seqZ 0 64) = true -> forall i, 0 <= i < 64 -> P i = true.
Proof.
  intros H i Hi. rewrite forallb_forall in H. apply H.
  apply list_elem_of_In, elem_of_seqZ. lia.
Qed.

Lemma dec6_enc6 i : 0 <= i < 64 -> base64.dec6 (base64.enc6 i) = Some i.
Proof.
  intros Hi.
  pose proof (below64
    (fun i => bool_decide (base64.dec6 (base64.enc6 i) = Some i))) as H.
  specialize (H ltac:(vm_compute; reflexivity) i Hi).
  now apply bool_decide_eq_true in H.
Qed.

Lemma enc6_plain i : 0 <= i < 64 -> plain (base64.enc6 i).
Proof.
  intros Hi. unfold plain.
  pose proof (below64
    (fun i => negb (Byte.eqb (base64.enc6 i) json.quote)
              && negb (Byte.eqb (base64.enc6 i) json.backslash))) as H.
  specialize (H ltac:(vm_compute; reflexivity) i Hi). cbv beta in H.
  apply andb_true_iff in H as [H1 H2].
  apply negb_true_iff in H1, H2. auto.
Qed.

Lemma enc6_not_pad i : 0 <= i < 64 -> Byte.eqb (base64.enc6 i) base64.pad = false.
Proof.
  intros Hi.
  pose proof (below64
    (fun i => negb (Byte.eqb (base64.enc6 i) base64.pad))) as H.
  specialize (H ltac:(vm_compute; reflexivity) i Hi). cbv beta in H.
  now apply negb_true_iff in H.
Qed.

Lemma list_ind3 {A} (P : list A -> Prop) :
  P [] -> (forall a, P [a]) -> (forall a b, P [a; b]) ->
  (forall a b c l, P l -> P (a :: b :: c :: l)) ->
  forall l, P l.
Proof.
  intros H0 H1 H2 H3 l.
  assert (P l /\ (forall a, P (a :: l)) /\ (forall a b, P (a :: b :: l))) as [H _].
  { induction l as [|x l (IH0 & IH1 & IH2)]; [auto|].
    split; [apply IH1|]. split; [intros; apply IH2|]. intros; now apply H3. }
  exact H.
Qed.

Lemma quantum_fst x y : 0 <= x < 256 -> 0 <= y < 256 ->
  x / 4 * 4 + (x mod 4 * 16 + y / 16) / 16 = x.
Proof. intros. Z.div_mod_to_equations. lia. Qed.

Lemma quantum_snd x y z : 0 <= x < 256 -> 0 <= y < 256 -> 0 <= z < 256 ->
  (x mod 4 * 16 + y / 16) mod 16 * 16 + (y mod 16 * 4 + z / 64) / 4 = y.
Proof. intros. Z.div_mod_to_equations. lia. Qed.

Lemma quantum_trd y z : 0 <= y < 256 -> 0 <= z < 256 ->
  (y mod 16 * 4 + z / 64) mod 4 * 64 + z mod 64 = z.
Proof. intros. Z.div_mod_to_equations. lia. Qed.

Lemma sextet_1 x : 0 <= x < 256 -> 0 <= x / 4 < 64.
Proof. intros. Z.div_mod_to_equations. lia. Qed.

Lemma sextet_2 x y : 0 <= x < 256 -> 0 <= y < 256 -> 0 <= x mod 4 * 16 + y / 16 < 64.
Proof. intros. Z.div_mod_to_equations. lia. Qed.

Lemma sextet_3 y z : 0 <= y < 256 -> 0 <= z < 256 -> 0 <= y mod 16 * 4 + z / 64 < 64.
Proof. intros. Z.div_mod_to_equations. lia. Qed.

Lemma sextet_4 z : 0 <= z < 256 -> 0 <= z mod 64 < 64.
Proof. intros. Z.div_mod_to_equations. lia. Qed.

Lemma quantum_fst1 x : 0 <= x < 256 -> x / 4 * 4 + (x mod 4 * 16) / 16 = x.
Proof. intros. Z.div_mod_to_equations. lia. Qed.

Lemma quantum_snd2 x y : 0 <= x < 256 -> 0 <= y < 256 ->
  (x mod 4 * 16 + y / 16) mod 16 * 16 + (y mod 16 * 4) / 4 = y.
Proof. intros. Z.div_mod_to_equations. lia. Qed.

Lemma sextet_2' x : 0 <= x < 256 -> 0 <= x mod 4 * 16 < 64.
Proof. intros. Z.div_mod_to_equations. lia. Qed.

Lemma sextet_3' y : 0 <= y < 256 -> 0 <= y mod 16 * 4 < 64.
Proof. intros. Z.div_mod_to_equations. lia. Qed.

Lemma base64_roundtrip l :
  base64.DecodeString (base64.EncodeToString l) = Some l.
Proof.
  induction l as [|a|a b|a b c l IH] using list_ind3.
  - reflexivity.
  - pose proof (Z_of_byte_range a) as Ha.
    cbn [base64.EncodeToString base64.DecodeString].
    rewrite (dec6_enc6 _ (sextet_1 _ Ha)), (dec6_enc6 _ (sextet_2' _ Ha)).
    change (Byte.eqb base64.pad base64.pad) with true. cbv iota.
    rewrite (quantum_fst1 _ Ha), byte_of_Z_of_byte. reflexivity.
  - pose proof (Z_of_byte_range a) as Ha. pose proof (Z_of_byte_range b) as Hb.
    cbn [base64.EncodeToString base64.DecodeString].
    rewrite (dec6_enc6 _ (sextet_1 _ Ha)), (dec6_enc6 _ (sextet_2 _ _ Ha Hb)).
    change (Byte.eqb base64.pad base64.pad) with true. cbv iota.
    rewrite (enc6_not_pad _ (sextet_3' _ Hb)), (dec6_enc6 _ (sextet_3' _ Hb)).
    rewrite (quantum_fst _ _ Ha Hb), (quantum_snd2 _ _ Ha Hb), !byte_of_Z_of_byte.
    reflexivity.
  - pose proof (Z_of_byte_range a) as Ha. pose proof (Z_of_byte_range b) as Hb.
    pose proof (Z_of_byte_range c) as Hc.
    cbn [base64.EncodeToString base64.DecodeString].
    rewrite (dec6_enc6 _ (sextet_1 _ Ha)), (dec6_enc6 _ (sextet_2 _ _ Ha Hb)).
    rewrite (enc6_not_pad _ (sextet_4 _ Hc)).
    rewrite (dec6_enc6 _ (sextet_3 _ _ Hb Hc)), (dec6_enc6 _ (sextet_4 _ Hc)).
    rewrite IH.
    rewrite (quantum_fst _ _ Ha Hb), (quantum_snd _ _ _ Ha Hb Hc),
      (quantum_trd _ _ Hb Hc), !byte_of_Z_of_byte. reflexivity.
Qed.

Lemma plain_pad : plain base64.pad.
Proof. split; reflexivity. Qed.

Lemma base64_plain l : Forall plain (base64.EncodeToString l).
Proof.
  induction l as [|a|a b|a b c l IH] using list_ind3; cbn [base64.EncodeToString].
  - constructor.
  - pose proof (Z_of_byte_range a) as Ha.
    repeat constructor; try apply plain_pad; apply enc6_plain;
      Z.div_mod_to_equations; lia.
  - pose proof (Z_of_byte_range a) as Ha. pose proof (Z_of_byte_range b) as Hb.
    repeat constructor; try apply plain_pad; apply enc6_plain;
      Z.div_mod_to_equations; lia.
  - pose proof (Z_of_byte_range a) as Ha. pose proof (Z_of_byte_range b) as Hb.
    pose proof (Z_of_byte_range c) as Hc.
    repeat (constructor; [apply enc6_plain; Z.div_mod_to_equations; lia|]).
    exact IH.
Qed.

(* --------------------------------------------------------------------- *)
(** ** Decimal integers *)

Lemma scan_digits u rest :
  head rest ≫= strconv.digit = None ->
  strconv.scan (strconv.digits u ++ rest) = (u, rest).
Proof.
  intros Hr.
  induction u; cbn [strconv.digits app strconv.scan strconv.digit];
    try (rewrite IHu; reflexivity).
  destruct rest as [|c t]; [reflexivity|]. cbn in Hr.
  cbn [strconv.scan]. rewrite Hr. reflexivity.
Qed.

Lemma unorm_to_uint p : unorm (Pos.to_uint p) = Pos.to_uint p.
Proof.
  rewrite <- DecimalPos.Unsigned.to_of, DecimalPos.Unsigned.of_to. reflexivity.
Qed.

Lemma to_int_shape z :
  exists u, (Z.to_int z = Pos u \/ Z.to_int z = Neg u) /\ unorm u = u /\ u <> Nil.
Proof.
  destruct z as [|p|p]; cbn [Z.to_int].
  - exists Decimal.zero. split; [now left|]. split; [reflexivity|discriminate].
  - exists (Pos.to_uint p). split; [now left|].
    split; [apply unorm_to_uint|apply DecimalPos.Unsigned.to_uint_nonnil].
  - exists (Pos.to_uint p). split; [now right|].
    split; [apply unorm_to_uint|apply DecimalPos.Unsigned.to_uint_nonnil].
Qed.

Lemma uint_beq_refl u : uint_beq u u = true.
Proof. induction u; cbn; auto. Qed.

Lemma digits_head u :
  u <> Nil ->
  exists c t, strconv.digits u = c :: t /\ Byte.eqb c "-"%byte = false
              /\ Byte.eqb c "n"%byte = false.
Proof.
  intros Hu. destruct u; [congruence|..]; cbn [strconv.digits];
    eexists _, _; (split; [reflexivity|split; reflexivity]).
Qed.

Lemma FormatInt_inj z1 z2 : strconv.FormatInt z1 = strconv.FormatInt z2 -> z1 = z2.
Proof.
  assert (Hd : forall u1 u2, strconv.digits u1 = strconv.digits u2 -> u1 = u2).
  { induction u1; destruct u2; cbn [strconv.digits]; intros E;
      try discriminate; try reflexivity; f_equal; apply IHu1; congruence. }
  unfold strconv.FormatInt. intros E.
  rewrite <- (DecimalZ.of_to z1), <- (DecimalZ.of_to z2).
  destruct (to_int_shape z1) as (u1 & [E1|E1] & _ & N1);
    destruct (to_int_shape z2) as (u2 & [E2|E2] & _ & N2);
    rewrite E1, E2 in *.
  - now rewrite (Hd _ _ E).
  - destruct (digits_head u1 N1) as (c & t & Ec & Hc & _). rewrite Ec in E.
    injection E as -> _. discriminate.
  - destruct (digits_head u2 N2) as (c & t & Ec & Hc & _). rewrite Ec in E.
    injection E as <- _. discriminate.
  - injection E as E. now rewrite (Hd _ _ E).
Qed.

(* --------------------------------------------------------------------- *)
(** ** JSON: decoding what [Marshal] prints *)

Lemma starts_with_app p r : json.starts_with p (p ++ r) = Some r.
Proof.
  unfold json.starts_with.
  rewrite take_app_length, drop_app_length. now rewrite decide_True.
Qed.

Lemma starts_with_head p p0 c s :
  head p = Some p0 -> c <> p0 -> json.starts_with p (c :: s) = None.
Proof.
  intros Hp Hc. unfold json.starts_with.
  destruct p as [|p1 p]; [discriminate|]. injection Hp as ->.
  cbn [length take]. rewrite decide_False; [reflexivity|congruence].
Qed.

Lemma int32_value_FormatInt z rest :
  Int32.in_range z ->
  head rest ≫= strconv.digit = None ->
  json.int32_value (strconv.FormatInt z ++ rest) = Some (z, rest).
Proof.
  intros Hz Hr. unfold json.int32_value, strconv.FormatInt.
  pose proof (DecimalZ.of_to z) as Hof.
  destruct (to_int_shape z) as (u & [E|E] & Hn & Hu); rewrite E in *.
  - destruct (digits_head u Hu) as (c & t & Ec & Hc & _).
    rewrite Ec. cbn [app]. rewrite Hc. rewrite (app_comm_cons t rest c), <- Ec.
    rewrite scan_digits by assumption.
    destruct u; [congruence|..]; rewrite Hn, uint_beq_refl, Hof,
      (in_rangeb_true _ Hz); reflexivity.
  - cbn [app]. change (Byte.eqb "-" "-") with true. cbv iota.
    rewrite scan_digits by assumption.
    destruct u; [congruence|..]; rewrite Hn, uint_beq_refl, Hof,
      (in_rangeb_true _ Hz); reflexivity.
Qed.

Lemma FormatInt_not_null z rest :
  json.starts_with (bytes_of "null") (strconv.FormatInt z ++ rest) = None.
Proof.
  unfold strconv.FormatInt.
  destruct (to_int_shape z) as (u & [E|E] & _ & Hu); rewrite E.
  - destruct (digits_head u Hu) as (c & t & -> & _ & Hc). cbn [app].
    apply (starts_with_head _ "n"%byte); [reflexivity|]. intros ->. discriminate.
  - apply (starts_with_head _ "n"%byte); [reflexivity|discriminate].
Qed.

Lemma string_body_plain b rest :
  Forall plain b ->
  json.string_body (b ++ json.quote :: rest) = Some (b, rest).
Proof.
  induction 1 as [|c b [Hq Hb] _ IH]; cbn [app json.string_body].
  - reflexivity.
  - rewrite Hq, Hb, IH. reflexivity.
Qed.

Lemma member_seq z rest v :
  Int32.in_range z -> head rest ≫= strconv.digit = None ->
  json.member_value (bytes_of "seq") (strconv.FormatInt z ++ rest) v
  = Some ({| Seq := z; Data := Data v; CRC := CRC v;
             Checkpoint := Checkpoint v |}, rest).
Proof.
  intros Hz Hr. unfold json.member_value.
  rewrite decide_True by reflexivity.
  rewrite FormatInt_not_null, int32_value_FormatInt by assumption. reflexivity.
Qed.

Lemma member_crc z rest v :
  Int32.in_range z -> head rest ≫= strconv.digit = None ->
  json.member_value (bytes_of "crc") (strconv.FormatInt z ++ rest) v
  = Some ({| Seq := Seq v; Data := Data v; CRC := z;
             Checkpoint := Checkpoint v |}, rest).
Proof.
  intros Hz Hr. unfold json.member_value.
  rewrite decide_False by discriminate. rewrite decide_False by discriminate.
  rewrite decide_True by reflexivity.
  rewrite FormatInt_not_null, int32_value_FormatInt by assumption. reflexivity.
Qed.

Lemma member_data d rest v :
  json.member_value (bytes_of "data") (json.bytes_value d ++ rest) v
  = Some ({| Seq := Seq v; Data := d; CRC := CRC v;
             Checkpoint := Checkpoint v |}, rest).
Proof.
  unfold json.member_value.
  rewrite decide_False by discriminate. rewrite decide_True by reflexivity.
  destruct d as [l|]; cbn [json.bytes_value].
  - cbn [app].
    rewrite (starts_with_head (bytes_of "null") "n"%byte _ _ eq_refl) by discriminate.
    change (Byte.eqb json.quote json.quote) with true. cbv iota.
    rewrite <- app_assoc. cbn [app].
    rewrite string_body_plain by apply base64_plain.
    rewrite base64_roundtrip. reflexivity.
  - rewrite starts_with_app. reflexivity.
Qed.

Lemma member_check b rest v :
  json.member_value (bytes_of "check") (json.bool_value b ++ rest) v
  = Some ({| Seq := Seq v; Data := Data v; CRC := CRC v;
             Checkpoint := b |}, rest).
Proof.
  unfold json.member_value.
  do 3 rewrite decide_False by discriminate. rewrite decide_True by reflexivity.
  destruct b; cbn [json.bool_value].
  - change (bytes_of "true" ++ rest) with ("t"%byte :: bytes_of "rue" ++ rest).
    rewrite (starts_with_head (bytes_of "null") "n"%byte _ _ eq_refl) by discriminate.
    change ("t"%byte :: bytes_of "rue" ++ rest) with (bytes_of "true" ++ rest).
    rewrite starts_with_app. reflexivity.
  - change (bytes_of "false" ++ rest) with ("f"%byte :: bytes_of "alse" ++ rest).
    rewrite (starts_with_head (bytes_of "null") "n"%byte _ _ eq_refl) by discriminate.
    rewrite (starts_with_head (bytes_of "true") "t"%byte _ _ eq_refl) by discriminate.
    change ("f"%byte :: bytes_of "alse" ++ rest) with (bytes_of "false" ++ rest).
    rewrite starts_with_app. reflexivity.
Qed.

Lemma members_comma fuel k val rest v v' :
  Forall plain (bytes_of k) ->
  json.member_value (bytes_of k) (val ++ ","%byte :: rest) v
    = Some (v', ","%byte :: rest) ->
  json.members (S fuel) (json.key k ++ val ++ ","%byte :: rest) v
  = json.members fuel rest v'.
Proof.
  intros Hk Hv. unfold json.key. cbn [json.members app].
  change (Byte.eqb json.quote json.quote) with true. cbv iota.
  rewrite <- app_assoc. cbn [app].
  rewrite string_body_plain by assumption.
  change (Byte.eqb ":" ":") with true. cbv iota.
  rewrite Hv. reflexivity.
Qed.

Lemma members_close fuel k val v v' :
  Forall plain (bytes_of k) ->
  json.member_value (bytes_of k) (val ++ ["}"%byte]) v = Some (v', ["}"%byte]) ->
  json.members (S fuel) (json.key k ++ val ++ ["}"%byte]) v = Some v'.
Proof.
  intros Hk Hv. unfold json.key. cbn [json.members app].
  change (Byte.eqb json.quote json.quote) with true. cbv iota.
  rewrite <- app_assoc. cbn [app].
  rewrite string_body_plain by assumption.
  change (Byte.eqb ":" ":") with true. cbv iota.
  rewrite Hv. reflexivity.
Qed.

Lemma plain_key k :
  forallb (fun c => negb (Byte.eqb c json.quote) && negb (Byte.eqb c json.backslash))
    (bytes_of k) = true ->
  Forall plain (bytes_of k).
Proof.
  intros H. apply Forall_forall. intros c Hc.
  rewrite forallb_forall in H. apply list_elem_of_In in Hc. specialize (H c Hc).
  apply andb_true_iff in H as [H1 H2]. apply negb_true_iff in H1, H2. now split.
Qed.

(** A record whose integer fields are [int32] values. *)
Lemma Unmarshal_Marshal v p :
  Int32.in_range (Seq v) -> Int32.in_range (CRC v) ->
  json.Unmarshal (json.Marshal v) p = json.Pointer (Some v).
Proof.
  intros Hs Hc. unfold json.Unmarshal.
  rewrite decide_False by discriminate.
  unfold json.object, json.Marshal.
  change (Byte.eqb "{" "{") with true. cbv iota.
  rewrite decide_False by discriminate.
  set (v0 := default zeroWalData p).
  match goal with |- context [json.members (length ?t) ?t v0] => set (body := t) end.
  assert (Hlen : (4 <= length body)%nat).
  { subst body. unfold json.key. cbn [app length]. rewrite !length_app.
    cbn [length]. lia. }
  destruct (length body) as [|[|[|[|fuel]]]]; try lia. subst body.
  erewrite (members_comma _ "seq");
    [|exact (plain_key "seq" eq_refl)|apply member_seq; [assumption|reflexivity]].
  erewrite (members_comma _ "data");
    [|exact (plain_key "data" eq_refl)|apply member_data].
  erewrite (members_comma _ "crc");
    [|exact (plain_key "crc" eq_refl)|apply member_crc; [assumption|reflexivity]].
  erewrite (members_close _ "check");
    [|exact (plain_key "check" eq_refl)|apply member_check].
  destruct v. reflexivity.
Qed.

(* --------------------------------------------------------------------- *)
(** ** Frames *)

Lemma byte_of_Z_eq z b : z mod 256 = Z_of_byte b -> byte_of_Z z = b.
Proof.
  intros E. rewrite <- (byte_of_Z_of_byte b), <- E.
  unfold byte_of_Z. rewrite Z.mod_mod by lia. reflexivity.
Qed.

Lemma intToBytes_int32_le hdr :
  length hdr = 4%nat -> intToBytes (int32_le hdr) = hdr.
Proof.
  destruct hdr as [|b0 [|b1 [|b2 [|b3 [|? ?]]]]]; try discriminate. intros _.
  pose proof (Z_of_byte_range b0). pose proof (Z_of_byte_range b1).
  pose proof (Z_of_byte_range b2). pose proof (Z_of_byte_range b3).
  unfold intToBytes, int32_le, Int32.wrap.
  change (2 ^ 8) with 256. change (2 ^ 16) with 65536.
  change (2 ^ 24) with 16777216. change (2 ^ 31) with 2147483648.
  change (2 ^ 32) with 4294967296.
  f_equal; [|f_equal; [|f_equal; [|f_equal]]];
    apply byte_of_Z_eq; Z.div_mod_to_equations; lia.
Qed.

Lemma fits_wrap b : fits b -> Int32.wrap (len b) = len b.
Proof.
  intros Hb. apply wrap_id. unfold fits in Hb. unfold Int32.in_range, Int32.min_int.
  pose proof (len_nonneg b). lia.
Qed.

Lemma frame_length b : len (frame b) = 4 + len b.
Proof. unfold frame. rewrite len_app. reflexivity. Qed.

Lemma frame_take b rest :
  take 4 (frame b ++ rest) = intToBytes (Int32.wrap (len b)).
Proof. reflexivity. Qed.

Lemma frame_drop b rest : drop 4 (frame b ++ rest) = b ++ rest.
Proof. unfold frame. rewrite <- app_assoc. reflexivity. Qed.

Lemma frame_size b rest : fits b -> int32_le (take 4 (frame b ++ rest)) = len b.
Proof.
  intros Hb. rewrite frame_take, int32_le_intToBytes, !fits_wrap by assumption.
  reflexivity.
Qed.

Lemma take_len {A} (b rest : list A) : take (Z.to_nat (len b)) (b ++ rest) = b.
Proof. unfold len. rewrite Nat2Z.id. apply take_app_length. Qed.

Lemma drop_len {A} (b rest : list A) : drop (Z.to_nat (len b)) (b ++ rest) = rest.
Proof. unfold len. rewrite Nat2Z.id. apply drop_app_length. Qed.

Lemma int32_le_range hdr : Int32.in_range (int32_le hdr).
Proof.
  unfold int32_le.
  destruct hdr as [|b0 [|b1 [|b2 [|b3 [|? ?]]]]]; try apply wrap_in_range;
    unfold Int32.in_range, Int32.min_int, Int32.max_int; lia.
Qed.

(** An image with a whole header splits into a frame and what follows. *)
Lemma split_frame t :
  4 <= len t -> 0 <= int32_le (take 4 t) <= len t - 4 ->
  let b := take (Z.to_nat (int32_le (take 4 t))) (drop 4 t) in
  t = frame b ++ drop (Z.to_nat (int32_le (take 4 t))) (drop 4 t)
  /\ fits b /\ len b = int32_le (take 4 t).
Proof.
  intros H4 Hs b.
  assert (Hlen : len b = int32_le (take 4 t)).
  { subst b. unfold len in *. rewrite length_take, length_drop. lia. }
  assert (Hfit : fits b).
  { unfold fits. rewrite Hlen. apply int32_le_range. }
  split; [|split; assumption].
  unfold frame. rewrite Hlen, wrap_id.
  - rewrite intToBytes_int32_le by (rewrite length_take; unfold len in H4; lia).
    subst b. rewrite <- app_assoc, !take_drop. reflexivity.
  - unfold fits in Hfit. rewrite Hlen in Hfit.
    unfold Int32.in_range, Int32.min_int. lia.
Qed.

Lemma Unmarshal_zero b : json.Unmarshal b (Some zeroWalData) = json.Unmarshal b None.
Proof. reflexivity. Qed.

(* --------------------------------------------------------------------- *)
(** ** The loop of [readSegment] *)

Lemma readSegment_loop_eq fuel rest data :
  rest <> [] ->
  readSegment_loop (S fuel) rest data =
    if len rest <? 4 then Bad ErrRead
    else if int32_le (take 4 rest) <? 0 then Crash MakesliceLenOutOfRange
    else if len (drop 4 rest) <? int32_le (take 4 rest) then Bad ErrRead
    else
      match json.Unmarshal
              (take (Z.to_nat (int32_le (take 4 rest))) (drop 4 rest)) None with
      | json.SyntaxError => Bad ErrLoad
      | json.Pointer None => Crash NilPointerDereference
      | json.Pointer (Some curData) =>
          if IsValid curData
          then readSegment_loop fuel
                 (drop (Z.to_nat (int32_le (take 4 rest))) (drop 4 rest))
                 (data ++ [curData])
          else Bad ErrBrokenData
      end.
Proof. destruct rest; [congruence|reflexivity]. Qed.

Lemma frame_nonempty b rest : frame b ++ rest <> [].
Proof. discriminate. Qed.

Lemma frame_len_ge b rest : (len (frame b ++ rest) <? 4) = false.
Proof.
  apply Z.ltb_ge. rewrite len_app, frame_length.
  pose proof (len_nonneg b). pose proof (len_nonneg rest). lia.
Qed.

(** The checks [readSegment] makes on the frame [frame b] at the head of an
    image, by what [b] decodes to. *)
Lemma read_frame fuel b rest data :
  fits b ->
  readSegment_loop (S fuel) (frame b ++ rest) data =
    match json.Unmarshal b None with
    | json.SyntaxError => Bad ErrLoad
    | json.Pointer None => Crash NilPointerDereference
    | json.Pointer (Some curData) =>
        if IsValid curData then readSegment_loop fuel rest (data ++ [curData])
        else Bad ErrBrokenData
    end.
Proof.
  intros Hb. rewrite readSegment_loop_eq by apply frame_nonempty.
  rewrite frame_len_ge, frame_size, frame_drop by assumption.
  pose proof (len_nonneg b) as H0. pose proof (len_nonneg rest) as H1.
  rewrite (proj2 (Z.ltb_ge _ _)) by lia.
  rewrite (proj2 (Z.ltb_ge _ _)) by (rewrite len_app; lia).
  rewrite take_len, drop_len. reflexivity.
Qed.

Lemma read_good fuel b v rest data :
  holds b v ->
  readSegment_loop (S fuel) (frame b ++ rest) data
  = readSegment_loop fuel rest (data ++ [v]).
Proof.
  intros (Hb & Hd & Hv). rewrite read_frame, Hd, Hv by assumption. reflexivity.
Qed.

(** Every image starts with a frame that passes the checks or with one of
    the endings. *)
Lemma classify t :
  (exists e, at_head e t)
  \/ (exists b v rest, t = frame b ++ rest /\ holds b v).
Proof.
  destruct (decide (t = [])) as [->|Hne]; [left; now exists AtEOF|].
  pose proof (len_nonneg t) as Hlen.
  assert (0 < len t) by (destruct t; [congruence|unfold len; cbn; lia]).
  destruct (Z.ltb_spec (len t) 4) as [H4|H4].
  { left. exists ShortLength. split; lia. }
  destruct (Z.ltb_spec (int32_le (take 4 t)) 0) as [Hn|Hn].
  { left. exists NegativeLength. split; assumption. }
  destruct (Z.ltb_spec (len t - 4) (int32_le (take 4 t))) as [Hp|Hp].
  { left. exists ShortPayload. split; [|split]; lia. }
  destruct (split_frame t H4 ltac:(lia)) as (Et & Hfit & Hb).
  set (b := take (Z.to_nat (int32_le (take 4 t))) (drop 4 t)) in *.
  set (rest := drop (Z.to_nat (int32_le (take 4 t))) (drop 4 t)) in *.
  destruct (json.Unmarshal b None) as [|[v|]] eqn:Ed.
  - left. exists Undecodable, b, rest. auto.
  - destruct (IsValid v) eqn:Ev.
    + right. exists b, v, rest. split; [exact Et|]. repeat split; assumption.
    + left. exists CrcMismatch, b, v, rest. auto.
  - left. exists NullRecord, b, rest. auto.
Qed.

Lemma read_at e fuel t data :
  at_head e t -> readSegment_loop (S fuel) t data = read_ending e data.
Proof.
  destruct e; cbn [at_head read_ending].
  - intros ->. reflexivity.
  - intros [H0 H4]. rewrite readSegment_loop_eq
      by (intros ->; unfold len in H0; cbn in H0; lia).
    rewrite (proj2 (Z.ltb_lt _ _)) by lia. reflexivity.
  - intros [H4 Hn]. rewrite readSegment_loop_eq
      by (intros ->; unfold len in H4; cbn in H4; lia).
    rewrite (proj2 (Z.ltb_ge _ _)) by lia.
    rewrite (proj2 (Z.ltb_lt _ _)) by lia. reflexivity.
  - intros (H4 & Hn & Hp). rewrite readSegment_loop_eq
      by (intros ->; unfold len in H4; cbn in H4; lia).
    rewrite (proj2 (Z.ltb_ge _ _)) by lia.
    rewrite (proj2 (Z.ltb_ge (int32_le _) _)) by lia.
    rewrite (proj2 (Z.ltb_lt _ _)); [reflexivity|].
    unfold len in *. rewrite length_drop. lia.
  - intros (b & more & -> & Hb & Hd). rewrite read_frame, Hd by assumption.
    reflexivity.
  - intros (b & more & -> & Hb & Hd). rewrite read_frame, Hd by assumption.
    reflexivity.
  - intros (b & v & more & -> & Hb & Hd & Hv).
    rewrite read_frame, Hd, Hv by assumption. reflexivity.
Qed.

(* --------------------------------------------------------------------- *)
(** ** The loop of [repairSegment] *)

Lemma repairSegment_loop_eq fuel rest data lastData :
  rest <> [] ->
  repairSegment_loop (S fuel) rest data lastData =
    let size := if len rest <? 4 then 0 else int32_le (take 4 rest) in
    if size <? 0 then Crash MakesliceLenOutOfRange
    else if len (drop 4 rest) <? size then Got (data, lastData)
    else
      match json.Unmarshal (take (Z.to_nat size) (drop 4 rest))
              (Some zeroWalData) with
      | json.SyntaxError => Got (data, lastData)
      | json.Pointer None => Crash NilPointerDereference
      | json.Pointer (Some walData) =>
          if IsValid walData then
            repairSegment_loop fuel (drop (Z.to_nat size) (drop 4 rest))
              ((data ++ intToBytes (Int32.wrap
                   (len (take (Z.to_nat size) (drop 4 rest)))))
                 ++ take (Z.to_nat size) (drop 4 rest))
              (into_lastData lastData (take (Z.to_nat size) (drop 4 rest)))
          else Got (data, lastData)
      end.
Proof. destruct rest; [congruence|reflexivity]. Qed.

Lemma repair_frame fuel b rest data lastData :
  fits b ->
  repairSegment_loop (S fuel) (frame b ++ rest) data lastData =
    match json.Unmarshal b None with
    | json.SyntaxError => Got (data, lastData)
    | json.Pointer None => Crash NilPointerDereference
    | json.Pointer (Some walData) =>
        if IsValid walData
        then repairSegment_loop fuel rest (data ++ frame b)
               (into_lastData lastData b)
        else Got (data, lastData)
    end.
Proof.
  intros Hb. rewrite repairSegment_loop_eq by apply frame_nonempty.
  rewrite frame_len_ge. cbv zeta. rewrite frame_size, frame_drop by assumption.
  pose proof (len_nonneg b) as H0. pose proof (len_nonneg rest) as H1.
  rewrite (proj2 (Z.ltb_ge _ _)) by lia.
  rewrite (proj2 (Z.ltb_ge _ _)) by (rewrite len_app; lia).
  rewrite take_len, drop_len, Unmarshal_zero.
  unfold frame. rewrite app_assoc. reflexivity.
Qed.

Lemma repair_good fuel b v rest data lastData :
  holds b v ->
  repairSegment_loop (S fuel) (frame b ++ rest) data lastData
  = repairSegment_loop fuel rest (data ++ frame b) (into_lastData lastData b).
Proof.
  intros (Hb & Hd & Hv). rewrite repair_frame, Hd, Hv by assumption. reflexivity.
Qed.

Lemma repair_at e fuel t data lastData :
  at_head e t ->
  repairSegment_loop (S fuel) t data lastData = repair_ending e (data, lastData).
Proof.
  destruct e; cbn [at_head repair_ending].
  - intros ->. reflexivity.
  - intros [H0 H4]. rewrite repairSegment_loop_eq
      by (intros ->; unfold len in H0; cbn in H0; lia).
    rewrite (proj2 (Z.ltb_lt (len t) _)) by lia. cbv zeta.
    change (0 <? 0) with false. cbv iota.
    pose proof (len_nonneg (drop 4 t)).
    rewrite (proj2 (Z.ltb_ge _ _)) by lia. reflexivity.
  - intros [H4 Hn]. rewrite repairSegment_loop_eq
      by (intros ->; unfold len in H4; cbn in H4; lia).
    rewrite (proj2 (Z.ltb_ge (len t) _)) by lia. cbv zeta.
    rewrite (proj2 (Z.ltb_lt _ _)) by lia. reflexivity.
  - intros (H4 & Hn & Hp). rewrite repairSegment_loop_eq
      by (intros ->; unfold len in H4; cbn in H4; lia).
    rewrite (proj2 (Z.ltb_ge (len t) _)) by lia. cbv zeta.
    rewrite (proj2 (Z.ltb_ge (int32_le _) _)) by lia.
    rewrite (proj2 (Z.ltb_lt _ _)); [reflexivity|].
    unfold len in *. rewrite length_drop. lia.
  - intros (b & more & -> & Hb & Hd). rewrite repair_frame, Hd by assumption.
    reflexivity.
  - intros (b & more & -> & Hb & Hd). rewrite repair_frame, Hd by assumption.
    reflexivity.
  - intros (b & v & more & -> & Hb & Hd & Hv).
    rewrite repair_frame, Hd, Hv by assumption. reflexivity.
Qed.

(* --------------------------------------------------------------------- *)
(** ** Images as frames and an ending *)

Lemma frames_cons b bs : frames (b :: bs) = frame b ++ frames bs.
Proof. reflexivity. Qed.

Lemma frames_app bs1 bs2 : frames (bs1 ++ bs2) = frames bs1 ++ frames bs2.
Proof. unfold frames. rewrite map_app, concat_app. reflexivity. Qed.

Lemma length_frame_app b rest :
  length (frame b ++ rest) = (4 + length b + length rest)%nat.
Proof. unfold frame. rewrite !length_app. reflexivity. Qed.

Lemma parse_exists t : exists bs vs tl e, parsed t bs vs tl e.
Proof.
  remember (length t) as n eqn:Hn. revert t Hn.
  induction n as [n IH] using lt_wf_ind. intros t ->.
  destruct (classify t) as [[e He]|(b & v & rest & -> & Hb)].
  - exists [], [], t, e. repeat split; [constructor|assumption].
  - destruct (IH (length rest)) with (t := rest)
      as (bs & vs & tl & e & -> & Hvs & He); [|reflexivity|].
    { rewrite length_frame_app. lia. }
    exists (b :: bs), (v :: vs), tl, e. split; [|split].
    + rewrite frames_cons, <- app_assoc. reflexivity.
    + now constructor.
    + assumption.
Qed.

Lemma read_parsed_loop t bs vs tl e :
  parsed t bs vs tl e ->
  forall fuel data, (length t < fuel)%nat ->
    readSegment_loop fuel t data = read_ending e (data ++ vs).
Proof.
  intros (-> & Hvs & He). induction Hvs as [|b v bs vs Hb _ IH];
    intros fuel data Hf; (destruct fuel as [|fuel]; [lia|]).
  - cbn [frames map concat app]. rewrite app_nil_r. now apply read_at.
  - rewrite frames_cons, <- app_assoc in *.
    rewrite (read_good _ _ _ _ _ Hb), IH.
    + rewrite <- app_assoc. reflexivity.
    + rewrite length_frame_app in Hf. lia.
Qed.

Lemma read_image_parsed t bs vs tl e :
  parsed t bs vs tl e -> read_image t = read_ending e vs.
Proof. intros H. unfold read_image. now rewrite (read_parsed_loop _ _ _ _ _ H) by lia. Qed.

Lemma repair_parsed_loop t bs vs tl e :
  parsed t bs vs tl e ->
  forall fuel data lastData, (length t < fuel)%nat ->
    repairSegment_loop fuel t data lastData
    = repair_ending e (data ++ frames bs, fold_left into_lastData bs lastData).
Proof.
  intros (-> & Hvs & He). induction Hvs as [|b v bs vs Hb _ IH];
    intros fuel data lastData Hf; (destruct fuel as [|fuel]; [lia|]).
  - cbn [frames map concat app fold_left]. rewrite app_nil_r. now apply repair_at.
  - rewrite frames_cons, <- app_assoc in *.
    rewrite (repair_good _ _ _ _ _ _ Hb), IH.
    + rewrite <- app_assoc. reflexivity.
    + rewrite length_frame_app in Hf. lia.
Qed.

Lemma repair_image_parsed t bs vs tl e :
  parsed t bs vs tl e ->
  repair_image t
  = repair_ending e (frames bs, fold_left into_lastData bs (Some zeroWalData)).
Proof.
  intros H. unfold repair_image.
  now rewrite (repair_parsed_loop _ _ _ _ _ H) by lia.
Qed.

(** Frames that pass the checks, and nothing else, parse as themselves. *)
Lemma parsed_frames bs vs : Forall2 holds bs vs -> parsed (frames bs) bs vs [] AtEOF.
Proof. intros H. split; [now rewrite app_nil_r|]. split; [assumption|reflexivity]. Qed.

(** What [writeData] frames passes the checks, provided it fits. *)
Lemma IsValid_NewWalData seq data : IsValid (NewWalData seq data) = true.
Proof. unfold IsValid, NewWalData. cbn. apply Z.eqb_refl. Qed.

Lemma checksum_range seq data : Int32.in_range (checksum seq data).
Proof. apply wrap_in_range. Qed.

Lemma holds_Marshal v :
  Int32.in_range (Seq v) -> Int32.in_range (CRC v) -> IsValid v = true ->
  fits (json.Marshal v) -> holds (json.Marshal v) v.
Proof.
  intros Hs Hc Hv Hf. split; [assumption|]. split; [|assumption].
  now apply Unmarshal_Marshal.
Qed.

(* --------------------------------------------------------------------- *)
(** ** File names *)

Lemma string_of_list_byte_inj l1 l2 :
  string_of_list_byte l1 = string_of_list_byte l2 -> l1 = l2.
Proof.
  intros E. apply (f_equal list_byte_of_string) in E.
  now rewrite !list_byte_of_string_of_list_byte in E.
Qed.

Lemma getLogFileName_inj a b : getLogFileName a = getLogFileName b -> a = b.
Proof.
  unfold getLogFileName. intros E. apply string_of_list_byte_inj in E.
  apply app_inv_head in E. injection E as E. apply app_inv_tail in E.
  now apply FormatInt_inj.
Qed.

Lemma bytes_of_getLogFileName n :
  bytes_of (getLogFileName n)
  = bytes_of filePrefix ++ "@"%byte :: strconv.FormatInt n ++ "."%byte :: bytes_of fileExt.
Proof. unfold getLogFileName, bytes_of. apply list_byte_of_string_of_list_byte. Qed.

Lemma tmpName_ne a b : tmpName (getLogFileName a) <> getLogFileName b.
Proof.
  unfold tmpName. rewrite bytes_of_getLogFileName. unfold getLogFileName.
  intros E. apply string_of_list_byte_inj in E.
  apply (f_equal last) in E.
  rewrite !last_app, !last_cons, !last_app in E. cbn in E. discriminate.
Qed.

(* --------------------------------------------------------------------- *)
(** ** The record codec *)

Lemma record_in_range seq data ckpt :
  Int32.in_range seq ->
  Int32.in_range (Seq (record seq data ckpt))
  /\ Int32.in_range (CRC (record seq data ckpt))
  /\ IsValid (record seq data ckpt) = true.
Proof.
  intros Hs. split; [exact Hs|]. split; [apply checksum_range|].
  unfold IsValid, record. cbn. apply Z.eqb_refl.
Qed.

Lemma holds_record seq data ckpt :
  Int32.in_range seq -> fits (json.Marshal (record seq data ckpt)) ->
  holds (json.Marshal (record seq data ckpt)) (record seq data ckpt).
Proof.
  intros Hs Hf. destruct (record_in_range seq data ckpt Hs) as (H1 & H2 & H3).
  now apply holds_Marshal.
Qed.

Lemma record_false seq data : record seq data false = NewWalData seq data.
Proof. reflexivity. Qed.

(** C5. For every sequence number [seq] (an [int32]), payload [data] and
    checkpoint flag [ckpt]: decoding the serialized record of
    [encode(seq, data, ckpt)] gives the record back, and it passes [IsValid],
    its stored CRC being the IEEE CRC-32 of [data] followed by the byte
    [seq mod 256], read as an [int32].  When the serialized record fits the
    [int32] length prefix, reading the frame as a segment gives the record. *)
Theorem decode_encode_is_valid seq data ckpt :
  Int32.in_range seq ->
  let v := record seq data ckpt in
  json.Unmarshal (json.Marshal v) None = json.Pointer (Some v)
  /\ IsValid v = true
  /\ CRC v = Int32.wrap (crc32.ChecksumIEEE (elems data ++ [byte_of_Z (seq mod 256)]))
  /\ (fits (json.Marshal v) -> read_image (encode v) = Got [v]).
Proof.
  intros Hs v. destruct (record_in_range seq data ckpt Hs) as (H1 & H2 & H3).
  split; [now apply Unmarshal_Marshal|]. split; [exact H3|]. split.
  - cbn. unfold checksum. do 3 f_equal. unfold byte_of_Z.
    now rewrite Z.mod_mod by lia.
  - intros Hf.
    rewrite (read_image_parsed (encode v) [json.Marshal v] [v] [] AtEOF).
    + reflexivity.
    + unfold encode. replace (frame (json.Marshal v)) with (frames [json.Marshal v])
        by (cbn; now rewrite app_nil_r).
      apply parsed_frames. constructor; [|constructor].
      now apply holds_record.
Qed.

Lemma decode_encode_is_valid_witness :
  Int32.in_range 1
  /\ fits (json.Marshal (record 1 (Some (bytes_of "test data")) true))
  /\ read_image (encode (record 1 (Some (bytes_of "test data")) true))
     = Got [record 1 (Some (bytes_of "test data")) true].
Proof.
  assert (H1 : Int32.in_range 1) by (unfold Int32.in_range, Int32.min_int, Int32.max_int; lia).
  assert (Hf : fits (json.Marshal (record 1 (Some (bytes_of "test data")) true)))
    by (vm_compute; discriminate).
  split; [exact H1|]. split; [exact Hf|].
  exact (proj2 (proj2 (proj2
    (decode_encode_is_valid 1 (Some (bytes_of "test data")) true H1))) Hf).
Defined.

(* --------------------------------------------------------------------- *)
(** ** Reading a segment *)

Lemma readSegment_on_file segmentNo w fs content :
  fs !! getLogFileName segmentNo = Some (File content) ->
  readSegment segmentNo (w, fs) =
    match read_image content with
    | Got data => Ok data (w, fs)
    | Bad e => Err e (w, fs)
    | Crash p => Panic p
    | Hang => Loops
    end.
Proof.
  intros Hf. unfold readSegment, OpenFile_CREATE_RDONLY. rewrite Hf. reflexivity.
Qed.

(** C7, as amended.  For every segment image [content] in the file of segment
    [segmentNo]: [readSegment] fails with [ErrBrokenData] exactly when the
    image is a run of frames that pass all checks followed by a frame that
    deserializes to a record whose CRC check fails; with [ErrRead] exactly
    when that run is followed by a short length read or a short payload read;
    with the third error, "failed to load data from log", exactly when it is
    followed by a frame that does not deserialize; and it returns the records
    exactly when the image consists of frames that all pass. *)
Theorem readSegment_errors segmentNo w fs content :
  fs !! getLogFileName segmentNo = Some (File content) ->
  (readSegment segmentNo (w, fs) = Err ErrBrokenData (w, fs)
   <-> exists bs vs tl, parsed content bs vs tl CrcMismatch)
  /\ (readSegment segmentNo (w, fs) = Err ErrRead (w, fs)
      <-> exists bs vs tl, parsed content bs vs tl ShortLength
                           \/ parsed content bs vs tl ShortPayload)
  /\ (readSegment segmentNo (w, fs) = Err ErrLoad (w, fs)
      <-> exists bs vs tl, parsed content bs vs tl Undecodable)
  /\ (forall vs, readSegment segmentNo (w, fs) = Ok vs (w, fs)
                 <-> exists bs, content = frames bs /\ Forall2 holds bs vs).
Proof.
  intros Hf. rewrite (readSegment_on_file _ _ _ _ Hf).
  destruct (parse_exists content) as (bs0 & vs0 & tl0 & e0 & Hp).
  rewrite (read_image_parsed _ _ _ _ _ Hp).
  repeat split.
  - intros E. destruct e0; try discriminate. eauto.
  - intros (bs & vs & tl & Hp'). pose proof (read_image_parsed _ _ _ _ _ Hp') as E.
    rewrite (read_image_parsed _ _ _ _ _ Hp) in E. now rewrite E.
  - intros E. destruct e0; try discriminate; eauto 6.
  - intros (bs & vs & tl & [Hp'|Hp']);
      pose proof (read_image_parsed _ _ _ _ _ Hp') as E;
      rewrite (read_image_parsed _ _ _ _ _ Hp) in E; now rewrite E.
  - intros E. destruct e0; try discriminate. eauto.
  - intros (bs & vs & tl & Hp'). pose proof (read_image_parsed _ _ _ _ _ Hp') as E.
    rewrite (read_image_parsed _ _ _ _ _ Hp) in E. now rewrite E.
  - intros E. destruct e0; try discriminate. injection E as <-.
    destruct Hp as (Hc & Hvs & Ht). cbn in Ht. subst tl0 content.
    exists bs0. now rewrite app_nil_r.
  - intros (bs & -> & Hvs).
    pose proof (read_image_parsed _ _ _ _ _ (parsed_frames _ _ Hvs)) as E.
    rewrite (read_image_parsed _ _ _ _ _ Hp) in E. now rewrite E.
Qed.

Lemma readSegment_errors_witness :
  let fs : FS := {[ getLogFileName 1 := File (encode (NewWalData 1 (Some (bytes_of "k")))) ]} in
  let w := mkWal (getLogFileName 1) [] 1024 1 1 in
  fs !! getLogFileName 1 = Some (File (encode (NewWalData 1 (Some (bytes_of "k")))))
  /\ (readSegment 1 (w, fs) = Ok [NewWalData 1 (Some (bytes_of "k"))] (w, fs)
      <-> exists bs, encode (NewWalData 1 (Some (bytes_of "k"))) = frames bs
                     /\ Forall2 holds bs [NewWalData 1 (Some (bytes_of "k"))]).
Proof.
  intros fs w.
  assert (Hf : fs !! getLogFileName 1
               = Some (File (encode (NewWalData 1 (Some (bytes_of "k"))))))
    by apply lookup_singleton_eq.
  split; [exact Hf|].
  exact (proj2 (proj2 (proj2 (readSegment_errors 1 w fs _ Hf))) _).
Defined.

(** C7 as stated fails: a frame whose payload does not deserialize makes the
    read fail, but not with the read error. *)
Lemma readSegment_decode_failure_is_not_ErrRead :
  let content := frame (bytes_of "x") in
  let fs : FS := {[ getLogFileName 1 := File content ]} in
  let w := mkWal (getLogFileName 1) [] 1024 1 0 in
  parsed content [] [] content Undecodable
  /\ readSegment 1 (w, fs) = Err ErrLoad (w, fs)
  /\ readSegment 1 (w, fs) <> Err ErrRead (w, fs).
Proof.
  intros content fs w.
  assert (Hp : parsed content [] [] content Undecodable).
  { split; [reflexivity|]. split; [constructor|].
    exists (bytes_of "x"), []. split; [now rewrite app_nil_r|].
    split; [vm_compute; discriminate|reflexivity]. }
  assert (E : readSegment 1 (w, fs) = Err ErrLoad (w, fs)).
  { rewrite (readSegment_on_file 1 w fs content) by apply lookup_singleton_eq.
    now rewrite (read_image_parsed _ _ _ _ _ Hp). }
  split; [exact Hp|]. split; [exact E|]. rewrite E. discriminate.
Qed.

(* --------------------------------------------------------------------- *)
(** ** The writer *)

Lemma writeData_append data : writeData data = append_record data false.
Proof. reflexivity. Qed.

Lemma CreateCheckpoint_append : CreateCheckpoint = append_record (Some []) true.
Proof. reflexivity. Qed.

Lemma os_Write_file f p (fs : FS) c :
  fs !! f = Some (File c) -> os.Write f p fs = Some (<[f := File (c ++ p)]> fs).
Proof. intros H. unfold os.Write. now rewrite H. Qed.

Lemma Flush_file f buf (fs : FS) c :
  fs !! f = Some (File c) ->
  bufio.Flush f buf fs = Some ([], <[f := File (c ++ buf)]> fs).
Proof.
  intros H. unfold bufio.Flush. destruct buf as [|x buf].
  - rewrite app_nil_r, insert_id by assumption. reflexivity.
  - now rewrite (os_Write_file _ _ _ _ H).
Qed.

(** Whatever the writer does with [p], the file followed by the buffer grows
    by [p], and the buffer stays within its size. *)
Lemma bufio_Write_file f buf p (fs : FS) c :
  fs !! f = Some (File c) -> len buf <= bufio.defaultBufSize ->
  exists c' buf',
    bufio.Write f buf p fs = Some (buf', <[f := File c']> fs)
    /\ c' ++ buf' = (c ++ buf) ++ p
    /\ len buf' <= bufio.defaultBufSize.
Proof.
  intros Hf Hb. unfold bufio.Write.
  destruct (Z.leb_spec (len p) (bufio.defaultBufSize - len buf)) as [Hfit|Hbig].
  { exists c, (buf ++ p). rewrite insert_id by assumption.
    split; [reflexivity|]. split; [now rewrite app_assoc|].
    rewrite len_app. lia. }
  destruct buf as [|x buf'].
  { rewrite (os_Write_file _ _ _ _ Hf). exists (c ++ p), [].
    split; [reflexivity|]. split; [now rewrite !app_nil_r|].
    unfold len, bufio.defaultBufSize. cbn. lia. }
  set (buf := x :: buf') in *.
  set (n := Z.to_nat (bufio.defaultBufSize - len buf)).
  rewrite (os_Write_file _ _ _ _ Hf).
  destruct (Z.leb_spec (len (drop n p)) bufio.defaultBufSize) as [Hrest|Hrest].
  - exists (c ++ buf ++ take n p), (drop n p).
    split; [reflexivity|]. split; [|assumption].
    rewrite <- !app_assoc. do 2 f_equal. apply firstn_skipn.
  - rewrite (os_Write_file _ _ _ (c ++ buf ++ take n p))
      by apply lookup_insert_eq.
    rewrite insert_insert_eq.
    exists ((c ++ buf ++ take n p) ++ drop n p), [].
    split; [reflexivity|]. split.
    + rewrite app_nil_r, <- !app_assoc. do 2 f_equal. apply firstn_skipn.
    + unfold len, bufio.defaultBufSize. cbn. lia.
Qed.

(* --------------------------------------------------------------------- *)
(** ** A log that can take writes *)

Lemma alive_insert w w' (fs : FS) f c :
  alive (w, fs) -> logFile w' = f \/ logFile w' = logFile w ->
  alive (w', <[f := File c]> fs).
Proof.
  intros [Hd [c0 Hc]] Hl. split.
  - intros name. cbn. destruct (decide (f = name)) as [->|Hne].
    + rewrite lookup_insert_eq. discriminate.
    + rewrite lookup_insert_ne by assumption. apply Hd.
  - cbn in *. destruct (decide (f = logFile w')) as [->|Hne].
    + rewrite lookup_insert_eq. eauto.
    + rewrite lookup_insert_ne by assumption. destruct Hl as [Hl|Hl];
        [congruence|]. rewrite Hl. eauto.
Qed.

Lemma Sync_alive s :
  alive s ->
  exists fs', Sync s = Ok tt (set_writer [] s.1, fs')
              /\ alive (set_writer [] s.1, fs').
Proof.
  destruct s as [w fs]. intros Ha. pose proof Ha as [Hd [c Hc]]. cbn in Hc.
  unfold Sync. rewrite (Flush_file _ _ _ _ Hc).
  eexists. split; [reflexivity|]. apply (alive_insert w); [assumption|now left].
Qed.

Lemma rotateLog_alive s :
  alive s ->
  exists w' fs', rotateLog s = Ok tt (w', fs') /\ alive (w', fs')
                 /\ lastSequenceNo w' = lastSequenceNo s.1
                 /\ maxLogSize w' = maxLogSize s.1
                 /\ writer w' = [].
Proof.
  intros Ha. destruct (Sync_alive s Ha) as (fs1 & E1 & Ha1).
  unfold rotateLog, bind. rewrite E1.
  destruct Ha1 as [Hd Hc]. cbn [fst snd] in *.
  set (name := getLogFileName (Int32.wrap (lastSegmentNo (set_writer [] s.1) + 1))).
  unfold OpenFile_CREATE_APPEND_WRONLY. fold name.
  destruct (fs1 !! name) as [[c|]|] eqn:En.
  - eexists _, _. split; [reflexivity|]. split; [|auto].
    split; [exact Hd|]. cbn. eauto.
  - now apply Hd in En.
  - eexists _, _. split; [reflexivity|]. split; [|auto].
    apply (alive_insert (set_writer [] s.1)); [now split|now left].
Qed.

Lemma writer_Write_alive s p :
  alive s -> len (writer s.1) <= bufio.defaultBufSize ->
  exists buf' fs', writer_Write p s = Ok tt (set_writer buf' s.1, fs')
                   /\ alive (set_writer buf' s.1, fs')
                   /\ cur_bytes (set_writer buf' s.1, fs') = cur_bytes s ++ p
                   /\ len buf' <= bufio.defaultBufSize.
Proof.
  destruct s as [w fs]. intros Ha Hb. pose proof Ha as [Hd [c Hc]].
  cbn [fst snd] in *. unfold writer_Write.
  destruct (bufio_Write_file _ _ p _ _ Hc Hb) as (c' & buf' & -> & Hcat & Hb').
  exists buf', (<[logFile w := File c']> fs). split; [reflexivity|].
  split; [apply (alive_insert w); [assumption|now left]|]. split; [|assumption].
  unfold cur_bytes. cbn. rewrite lookup_insert_eq, Hc. exact Hcat.
Qed.

(** Every write on a live log succeeds: it takes the next sequence number and
    its frame ends up at the end of the current segment. *)
Lemma append_record_alive s data ckpt :
  alive s -> len (writer s.1) <= bufio.defaultBufSize ->
  let seq := Int32.wrap (lastSequenceNo s.1 + 1) in
  exists s', append_record data ckpt s = Ok tt s'
             /\ alive s' /\ len (writer s'.1) <= bufio.defaultBufSize
             /\ lastSequenceNo s'.1 = seq
             /\ maxLogSize s'.1 = maxLogSize s.1
             /\ exists pre, cur_bytes s' = pre ++ encode (record seq data ckpt).
Proof.
  destruct s as [w fs]. intros Ha Hb seq. cbn [fst snd] in *.
  unfold append_record, bind. cbn [lastSequenceNo set_lastSequenceNo]. fold seq.
  set (w1 := set_lastSequenceNo seq w).
  assert (Ha1 : alive (w1, fs)) by exact Ha.
  unfold checkAndRotateLog.
  destruct Ha as [Hd [c Hc]]. cbn [fst snd] in *.
  unfold Stat_Size. change (logFile w1) with (logFile w). rewrite Hc.
  match goal with |- context [if ?b then _ else _] => destruct b end.
  - destruct (rotateLog_alive _ Ha1) as (w2 & fs2 & -> & Ha2 & Hs2 & Hm2 & Hw2).
    destruct (writer_Write_alive (w2, fs2)
                (intToBytes (Int32.wrap (len (json.Marshal (record seq data ckpt))))
                   ++ json.Marshal (record seq data ckpt)) Ha2)
      as (buf' & fs' & -> & Ha' & Hcur & Hb').
    { cbn. rewrite Hw2. unfold len, bufio.defaultBufSize. cbn. lia. }
    eexists. split; [reflexivity|]. cbn [fst snd].
    repeat split; try assumption; try apply Ha'; eauto.
  - destruct (writer_Write_alive (w1, fs)
                (intToBytes (Int32.wrap (len (json.Marshal (record seq data ckpt))))
                   ++ json.Marshal (record seq data ckpt)) Ha1 Hb)
      as (buf' & fs' & -> & Ha' & Hcur & Hb').
    eexists. split; [reflexivity|]. cbn [fst snd].
    repeat split; try assumption; try apply Ha'; eauto.
Qed.

(* --------------------------------------------------------------------- *)
(** ** Opening an empty directory, and writing *)

Lemma NewWal_empty maxLogSizeInKB :
  NewWal maxLogSizeInKB ∅
  = Ok {| logFile := getLogFileName 1; writer := [];
          maxLogSize := Int32.wrap (maxLogSizeInKB * 1024);
          lastSegmentNo := 1; lastSequenceNo := 0 |}
       {[ getLogFileName 1 := File [] ]}.
Proof. reflexivity. Qed.

Lemma alive_opened maxLogSizeInKB w0 fs0 :
  NewWal maxLogSizeInKB ∅ = Ok w0 fs0 ->
  alive (w0, fs0) /\ writer w0 = [] /\ lastSequenceNo w0 = 0
  /\ maxLogSize w0 = Int32.wrap (maxLogSizeInKB * 1024).
Proof.
  rewrite NewWal_empty. intros [= <- <-]. split; [|auto]. split.
  - intros name. cbn [fst snd]. destruct (decide (getLogFileName 1 = name)) as [<-|Hne].
    + rewrite lookup_singleton_eq. discriminate.
    + rewrite lookup_singleton_ne by assumption. discriminate.
  - exists []. apply lookup_singleton_eq.
Qed.

Lemma wrap_wrap_add a b : Int32.wrap (Int32.wrap a + b) = Int32.wrap (a + b).
Proof.
  unfold Int32.wrap. f_equal.
  replace ((a + 2 ^ 31) mod 2 ^ 32 - 2 ^ 31 + b + 2 ^ 31)
    with ((a + 2 ^ 31) mod 2 ^ 32 + b) by lia.
  rewrite Zplus_mod_idemp_l. f_equal. lia.
Qed.

Lemma run_writes_alive payloads s :
  alive s -> len (writer s.1) <= bufio.defaultBufSize ->
  Int32.in_range (lastSequenceNo s.1) ->
  exists s', run (map OpWrite payloads) s = Ok tt s'
             /\ alive s' /\ len (writer s'.1) <= bufio.defaultBufSize
             /\ lastSequenceNo s'.1
                = Int32.wrap (lastSequenceNo s.1 + len payloads)
             /\ maxLogSize s'.1 = maxLogSize s.1.
Proof.
  revert s. induction payloads as [|d payloads IH]; intros s Ha Hb Hr.
  - exists s. split; [reflexivity|]. split; [assumption|]. split; [assumption|].
    split; [|reflexivity]. unfold len. cbn [length]. rewrite Z.add_0_r.
    symmetry. now apply wrap_id.
  - destruct (append_record_alive s d false Ha Hb)
      as (s1 & E1 & Ha1 & Hb1 & Hs1 & Hm1 & _).
    destruct (IH s1 Ha1 Hb1) as (s' & E' & Ha' & Hb' & Hs' & Hm').
    { rewrite Hs1. apply wrap_in_range. }
    exists s'. split.
    + cbn [map run step]. unfold bind, Write. rewrite writeData_append, E1.
      exact E'.
    + split; [assumption|]. split; [assumption|]. split; [|congruence].
      rewrite Hs', Hs1, wrap_wrap_add. f_equal. unfold len. cbn [length]. lia.
Qed.

(** C2. For every log opened on an empty directory and every sequence of
    write calls on it: each call succeeds, and the call at position [i]
    (counting from 0) takes sequence number [i + 1] and hands the frame of the
    record with that number to the current segment, as long as [i + 1] is an
    [int32].  So the records are numbered 1, 2, 3, ... in write order, without
    gaps and strictly increasing. *)
Theorem sequence_numbers_from_one maxLogSizeInKB (payloads : list slice)
    (i : nat) data :
  payloads !! i = Some data ->
  Z.of_nat i + 1 <= Int32.max_int ->
  exists w0 fs0 s s',
    NewWal maxLogSizeInKB ∅ = Ok w0 fs0
    /\ run (map OpWrite (take i payloads)) (w0, fs0) = Ok tt s
    /\ lastSequenceNo s.1 = Z.of_nat i
    /\ Write data s = Ok tt s'
    /\ lastSequenceNo s'.1 = Z.of_nat i + 1
    /\ exists pre,
         cur_bytes s' = pre ++ encode (NewWalData (Z.of_nat i + 1) data).
Proof.
  intros Hi Hmax.
  destruct (alive_opened maxLogSizeInKB _ _ (NewWal_empty maxLogSizeInKB))
    as (Ha0 & Hw0 & Hs0 & _).
  eexists _, _. 
  destruct (run_writes_alive (take i payloads) _ Ha0) as (s & E & Ha & Hb & Hs & _).
  { cbn [fst snd writer]. unfold len, bufio.defaultBufSize. cbn. lia. }
  { cbn [fst snd lastSequenceNo].
    unfold Int32.in_range, Int32.min_int, Int32.max_int. lia. }
  assert (Hlen : len (take i payloads) = Z.of_nat i).
  { unfold len. rewrite length_take. apply lookup_lt_Some in Hi. lia. }
  cbn [fst snd lastSequenceNo] in Hs. rewrite Hlen, Z.add_0_l in Hs.
  rewrite wrap_id in Hs
    by (unfold Int32.in_range, Int32.min_int, Int32.max_int in *; lia).
  destruct (append_record_alive s data false Ha Hb)
    as (s' & E' & _ & _ & Hs' & _ & pre & Hpre).
  rewrite Hs, wrap_id in Hs', Hpre
    by (unfold Int32.in_range, Int32.min_int, Int32.max_int in *; lia).
  exists s, s'. split; [reflexivity|]. split; [exact E|]. split; [exact Hs|].
  split; [exact E'|]. split; [exact Hs'|]. exists pre. exact Hpre.
Qed.

Lemma sequence_numbers_from_one_witness :
  [Some (bytes_of "a"); Some (bytes_of "b"); None] !! 2%nat = Some None
  /\ Z.of_nat 2 + 1 <= Int32.max_int
  /\ exists w0 fs0 s s',
       NewWal 1 ∅ = Ok w0 fs0
       /\ run (map OpWrite (take 2 [Some (bytes_of "a"); Some (bytes_of "b"); None]))
            (w0, fs0) = Ok tt s
       /\ lastSequenceNo s.1 = Z.of_nat 2
       /\ Write None s = Ok tt s'
       /\ lastSequenceNo s'.1 = Z.of_nat 2 + 1
       /\ exists pre,
            cur_bytes s' = pre ++ encode (NewWalData (Z.of_nat 2 + 1) None).
Proof.
  assert (H1 : [Some (bytes_of "a"); Some (bytes_of "b"); None] !! 2%nat
               = Some (None : slice)) by reflexivity.
  assert (H2 : Z.of_nat 2 + 1 <= Int32.max_int)
    by (unfold Int32.max_int; cbn; lia).
  split; [exact H1|]. split; [exact H2|].
  exact (sequence_numbers_from_one 1 _ 2 None H1 H2).
Defined.

(* --------------------------------------------------------------------- *)
(** ** The layout of the segments under writes *)

Lemma len_snoc {A} (l : list A) x : len (l ++ [x]) = len l + 1.
Proof. rewrite len_app. reflexivity. Qed.

Lemma layout_alive closed cur s : layout closed cur s -> alive s.
Proof.
  intros H. split; [apply (lay_files _ _ _ H)|].
  destruct (lay_open _ _ _ H) as (c & Hc & _).
  rewrite (lay_logFile _ _ _ H). eauto.
Qed.

(** Only the file of the current segment and the buffer change. *)
Lemma layout_insert closed cur cur' w (fs : FS) c' buf' :
  layout closed cur (w, fs) ->
  c' ++ buf' = frames cur' -> len buf' <= bufio.defaultBufSize ->
  layout closed cur' (set_writer buf' w, <[logFile w := File c']> fs).
Proof.
  intros H Hcat Hb. pose proof (lay_logFile _ _ _ H) as Hl. cbn [fst snd] in Hl.
  constructor; cbn [fst snd set_writer logFile writer lastSegmentNo].
  - intros name. destruct (decide (logFile w = name)) as [<-|Hne].
    + rewrite lookup_insert_eq. discriminate.
    + rewrite lookup_insert_ne by assumption. apply (lay_files _ _ _ H).
  - intros j Hj. rewrite lookup_insert_ne.
    + now apply (lay_fresh _ _ _ H).
    + rewrite Hl. intros E%getLogFileName_inj. lia.
  - apply (lay_lastSegmentNo _ _ _ H).
  - exact Hl.
  - intros j bs Hj. rewrite lookup_insert_ne.
    + now apply (lay_closed _ _ _ H).
    + rewrite Hl. intros E%getLogFileName_inj.
      apply lookup_lt_Some in Hj. unfold len in E. lia.
  - exists c'. rewrite <- Hl, lookup_insert_eq. auto.
  - exact Hb.
Qed.

Lemma layout_set_lastSequenceNo closed cur w fs n :
  layout closed cur (w, fs) -> layout closed cur (set_lastSequenceNo n w, fs).
Proof. intros []. constructor; assumption. Qed.

Lemma Sync_layout closed cur s :
  layout closed cur s ->
  exists fs', Sync s = Ok tt (set_writer [] s.1, fs')
              /\ layout closed cur (set_writer [] s.1, fs')
              /\ fs' !! getLogFileName (len closed + 1) = Some (File (frames cur)).
Proof.
  destruct s as [w fs]. intros H. cbn [fst snd].
  destruct (lay_open _ _ _ H) as (c & Hc & Hcat). cbn [fst snd] in *.
  pose proof (lay_logFile _ _ _ H) as Hl. cbn [fst snd] in Hl.
  unfold Sync. rewrite Hl, (Flush_file _ _ _ _ Hc), <- Hl.
  eexists. split; [reflexivity|]. split.
  - apply (layout_insert closed cur); [assumption|now rewrite app_nil_r|].
    unfold len, bufio.defaultBufSize. cbn. lia.
  - rewrite Hl, lookup_insert_eq, Hcat. reflexivity.
Qed.

Lemma rotateLog_layout closed cur s :
  layout closed cur s -> len closed + 2 <= Int32.max_int ->
  exists s', rotateLog s = Ok tt s'
             /\ layout (closed ++ [cur]) [] s'
             /\ lastSequenceNo s'.1 = lastSequenceNo s.1
             /\ maxLogSize s'.1 = maxLogSize s.1.
Proof.
  destruct s as [w fs]. intros H Hmax. cbn [fst snd].
  destruct (Sync_layout _ _ _ H) as (fs1 & E1 & H1 & Hcur). cbn [fst snd] in *.
  unfold rotateLog, bind. rewrite E1.
  cbn [set_writer lastSegmentNo maxLogSize lastSequenceNo].
  pose proof (lay_lastSegmentNo _ _ _ H) as Hn. cbn [fst snd] in Hn. rewrite Hn.
  pose proof (len_nonneg closed) as H0.
  rewrite wrap_id
    by (unfold Int32.in_range, Int32.min_int, Int32.max_int in *; lia).
  unfold OpenFile_CREATE_APPEND_WRONLY.
  rewrite (lay_fresh _ _ _ H1) by lia.
  eexists. split; [reflexivity|]. split; [|auto].
  constructor; cbn [fst snd logFile writer lastSegmentNo]; rewrite ?len_snoc.
  - intros name.
    destruct (decide (getLogFileName (len closed + 1 + 1) = name)) as [<-|Hne].
    + rewrite lookup_insert_eq. discriminate.
    + rewrite lookup_insert_ne by assumption. apply (lay_files _ _ _ H1).
  - intros j Hj. rewrite lookup_insert_ne.
    + apply (lay_fresh _ _ _ H1). lia.
    + intros E%getLogFileName_inj. lia.
  - reflexivity.
  - reflexivity.
  - intros j bs Hj. rewrite lookup_insert_ne.
    + apply lookup_app_Some in Hj as [Hj|[Hge Hj]].
      * now apply (lay_closed _ _ _ H1).
      * apply list_lookup_singleton_Some in Hj as [Hj <-].
        replace (Z.of_nat j + 1) with (len closed + 1) by (unfold len; lia).
        exact Hcur.
    + intros E%getLogFileName_inj. apply lookup_lt_Some in Hj.
      rewrite length_app in Hj. cbn in Hj. unfold len in E. lia.
  - exists []. rewrite lookup_insert_eq. auto.
  - unfold len, bufio.defaultBufSize. cbn. lia.
Qed.

Lemma writer_Write_layout closed cur s b :
  layout closed cur s ->
  exists s', writer_Write (frame b) s = Ok tt s'
             /\ layout closed (cur ++ [b]) s'
             /\ lastSequenceNo s'.1 = lastSequenceNo s.1
             /\ maxLogSize s'.1 = maxLogSize s.1.
Proof.
  destruct s as [w fs]. intros H. cbn [fst snd].
  destruct (lay_open _ _ _ H) as (c & Hc & Hcat). cbn [fst snd] in *.
  pose proof (lay_logFile _ _ _ H) as Hl. cbn [fst snd] in Hl.
  pose proof (lay_buffer _ _ _ H) as Hb. cbn [fst snd] in Hb.
  rewrite <- Hl in Hc. unfold writer_Write.
  destruct (bufio_Write_file _ _ (frame b) _ _ Hc Hb)
    as (c' & buf' & -> & Hcat' & Hb').
  eexists. split; [reflexivity|]. split; [|auto].
  apply (layout_insert closed cur); [assumption| |assumption].
  rewrite Hcat', Hcat, frames_app. cbn. now rewrite app_nil_r.
Qed.

(** One record more: the segment rotates exactly when the size [Stat] reports
    plus the length of the frame exceeds [maxLogSize], and the frame goes to
    the segment that is current afterwards. *)
Lemma append_record_layout closed cur s data ckpt :
  layout closed cur s -> len closed + 2 <= Int32.max_int ->
  let v := record (Int32.wrap (lastSequenceNo s.1 + 1)) data ckpt in
  exists size s',
    Stat_Size (logFile s.1) s.2 = Some size
    /\ size <= len (frames cur)
    /\ len (frames cur) <= size + bufio.defaultBufSize
    /\ append_record data ckpt s = Ok tt s'
    /\ lastSequenceNo s'.1 = Seq v
    /\ maxLogSize s'.1 = maxLogSize s.1
    /\ ((size + len (encode v) > maxLogSize s.1
         /\ layout (closed ++ [cur]) [json.Marshal v] s')
        \/ (size + len (encode v) <= maxLogSize s.1
            /\ layout closed (cur ++ [json.Marshal v]) s')).
Proof.
  destruct s as [w fs]. intros H Hmax v. cbn [fst snd] in *.
  destruct (lay_open _ _ _ H) as (c & Hc & Hcat). cbn [fst snd] in *.
  pose proof (lay_logFile _ _ _ H) as Hl. cbn [fst snd] in Hl.
  pose proof (lay_buffer _ _ _ H) as Hb. cbn [fst snd] in Hb.
  exists (len c). unfold Stat_Size. rewrite Hl, Hc.
  assert (Hsz : len (frames cur) = len c + len (writer w))
    by (rewrite <- Hcat; apply len_app).
  pose proof (len_nonneg (writer w)) as Hw0.
  unfold append_record, bind, checkAndRotateLog, Stat_Size.
  cbn [set_lastSequenceNo lastSequenceNo logFile maxLogSize]. fold v.
  rewrite Hl, Hc.
  assert (Hlen : len (json.Marshal v) + len (intToBytes (Int32.wrap (len (json.Marshal v))))
                 = len (encode v)).
  { unfold encode. rewrite frame_length. unfold len at 2. cbn [length intToBytes]. lia. }
  rewrite Hlen.
  pose proof (layout_set_lastSequenceNo _ _ _ _ (Seq v) H) as H1.
  change (set_lastSequenceNo (Seq v) w)
    with (set_lastSequenceNo (Int32.wrap (lastSequenceNo w + 1)) w) in H1.
  destruct (Z.gtb_spec (len c + len (encode v)) (maxLogSize w)) as [Hrot|Hstay].
  - destruct (rotateLog_layout _ _ _ H1 Hmax) as (s2 & -> & H2 & Hs2 & Hm2).
    destruct (writer_Write_layout _ _ s2 (json.Marshal v) H2)
      as (s' & E' & H' & Hs' & Hm').
    exists s'. fold (frame (json.Marshal v)). rewrite E'.
    repeat (split; [first [reflexivity|lia|congruence]|]).
    split; [cbn in *; congruence|]. split; [cbn in *; congruence|].
    left. split; [lia|exact H'].
  - destruct (writer_Write_layout _ _ _ (json.Marshal v) H1)
      as (s' & E' & H' & Hs' & Hm').
    exists s'. fold (frame (json.Marshal v)). rewrite E'.
    repeat (split; [first [reflexivity|lia|congruence]|]).
    split; [cbn in *; congruence|]. split; [cbn in *; congruence|].
    right. split; [lia|exact H'].
Qed.

(* --------------------------------------------------------------------- *)
(** ** Traces of writes, checkpoints and syncs *)

Lemma numbered_snoc recs v :
  numbered recs -> Seq v = len recs + 1 ->
  Int32.in_range (CRC v) -> IsValid v = true ->
  numbered (recs ++ [v]).
Proof.
  intros [Hs Hv] Hseq Hc Hval. split.
  - rewrite map_app, Hs, len_snoc. cbn [map]. rewrite Hseq.
    unfold len. rewrite <- (Nat2Z.inj_add _ 1), Nat.add_1_r, seqZ_S.
    do 2 f_equal. lia.
  - apply Forall_app. split; [assumption|]. constructor; [auto|constructor].
Qed.

Lemma len_frames_snoc bs b : len (frames (bs ++ [b])) = len (frames bs) + len (frame b).
Proof. rewrite frames_app, len_app. cbn. now rewrite app_nil_r. Qed.

Lemma append_record_wellformed maxLog closed cur s data ckpt :
  wellformed maxLog closed cur s ->
  len closed + 2 <= Int32.max_int ->
  len (concat closed ++ cur) + 1 <= Int32.max_int ->
  let v := record (len (concat closed ++ cur) + 1) data ckpt in
  exists size closed' cur' s',
    Stat_Size (logFile s.1) s.2 = Some size
    /\ append_record data ckpt s = Ok tt s'
    /\ wellformed maxLog closed' cur' s'
    /\ concat closed' ++ cur' = (concat closed ++ cur) ++ [v]
    /\ ((size + len (encode v) > maxLog
         /\ closed' = closed ++ [cur] /\ cur' = [v])
        \/ (size + len (encode v) <= maxLog
            /\ closed' = closed /\ cur' = cur ++ [v])).
Proof.
  intros ((Hlay & Hseq & Hnum) & Hmax & Hbnd) Hc Hn v.
  pose proof (len_nonneg (concat closed ++ cur)) as H0.
  assert (Hr : Int32.in_range (len (concat closed ++ cur) + 1))
    by (unfold Int32.in_range, Int32.min_int, Int32.max_int in *; lia).
  assert (Hc' : len (map (map json.Marshal) closed) + 2 <= Int32.max_int)
    by (unfold len in *; rewrite length_map; exact Hc).
  destruct (append_record_layout _ _ s data ckpt Hlay Hc')
    as (size & s' & Hstat & Hlo & Hhi & E & Hs' & Hm' & Hcase).
  rewrite Hseq, (wrap_id _ Hr) in Hs', Hcase. fold v in Hs', Hcase.
  destruct (record_in_range _ data ckpt Hr) as (_ & Hcr & Hval). fold v in Hcr, Hval.
  assert (Hnum' : numbered ((concat closed ++ cur) ++ [v]))
    by (apply numbered_snoc; auto).
  rewrite Hmax in Hcase.
  apply Forall_app in Hbnd as [Hbc Hbo]. apply Forall_inv in Hbo.
  exists size. destruct Hcase as [[Hgt Hl']|[Hle Hl']].
  - exists (closed ++ [cur]), [v], s'. split; [exact Hstat|]. split; [exact E|].
    assert (Hcat : concat (closed ++ [cur]) ++ [v] = (concat closed ++ cur) ++ [v]).
    { rewrite concat_app. cbn. now rewrite app_nil_r. }
    split; [|split; [exact Hcat|left; split; [exact Hgt|split; reflexivity]]].
    split; [|split; [congruence|]].
    + split; [|split].
      * rewrite map_app. exact Hl'.
      * rewrite Hs', Hcat, len_snoc. reflexivity.
      * rewrite Hcat. exact Hnum'.
    + rewrite map_app. apply Forall_app. split.
      * apply Forall_app. split; [assumption|].
        constructor; [exact Hbo|constructor].
      * constructor; [|constructor]. right. cbn. lia.
  - exists closed, (cur ++ [v]), s'. split; [exact Hstat|]. split; [exact E|].
    assert (Hcat : concat closed ++ cur ++ [v] = (concat closed ++ cur) ++ [v])
      by apply app_assoc.
    split; [|split; [exact Hcat|right; split; [exact Hle|split; reflexivity]]].
    split; [|split; [congruence|]].
    + split; [|split].
      * rewrite map_app. exact Hl'.
      * rewrite Hs', Hcat, len_snoc. reflexivity.
      * rewrite Hcat. exact Hnum'.
    + apply Forall_app. split; [assumption|]. constructor; [|constructor].
      left. rewrite map_app. cbn [map]. rewrite len_frames_snoc.
      fold (encode v). lia.
Qed.

Lemma Sync_wellformed maxLog closed cur s :
  wellformed maxLog closed cur s ->
  exists fs', Sync s = Ok tt (set_writer [] s.1, fs')
              /\ wellformed maxLog closed cur (set_writer [] s.1, fs')
              /\ fs' !! getLogFileName (len closed + 1)
                 = Some (File (frames (map json.Marshal cur))).
Proof.
  intros ((Hlay & Hseq & Hnum) & Hmax & Hbnd).
  destruct (Sync_layout _ _ _ Hlay) as (fs' & E & Hlay' & Hcur).
  exists fs'. split; [exact E|]. split.
  - split; [|split; assumption]. split; [exact Hlay'|]. split; assumption.
  - unfold len in *. rewrite length_map in Hcur. exact Hcur.
Qed.

Lemma records_of_app seq ops1 ops2 :
  records_of seq (ops1 ++ ops2)
  = records_of seq ops1 ++ records_of (seq + len (records_of seq ops1)) ops2.
Proof.
  revert seq. induction ops1 as [|[d| |] ops1 IH]; intros seq; cbn [app records_of].
  - unfold len. cbn. now rewrite Z.add_0_r.
  - rewrite IH. cbn [app]. do 3 f_equal. unfold len. cbn [length]. lia.
  - rewrite IH. cbn [app]. do 3 f_equal. unfold len. cbn [length]. lia.
  - apply IH.
Qed.

Lemma len_records_of seq seq' ops :
  len (records_of seq ops) = len (records_of seq' ops).
Proof.
  revert seq seq'. induction ops as [|[d| |] ops IH]; intros seq seq';
    cbn [records_of]; unfold len in *; cbn [length];
    try (specialize (IH (seq + 1) (seq' + 1)); lia); auto.
Qed.

Lemma len_records_le seq ops : len (records_of seq ops) <= len ops.
Proof.
  revert seq. induction ops as [|[d| |] ops IH]; intros seq; cbn [records_of];
    unfold len in *; cbn [length]; try (specialize (IH (seq + 1)); lia).
  - lia.
  - specialize (IH seq). lia.
Qed.

(** A trace from a well-formed log: every call succeeds and the log stays
    well formed, holding the records of the trace after those it had. *)
Lemma run_wellformed maxLog ops : forall closed cur s,
  wellformed maxLog closed cur s ->
  len closed + len (records_of 1 ops) + 1 <= Int32.max_int ->
  len (concat closed ++ cur) + len (records_of 1 ops) <= Int32.max_int ->
  exists closed' cur' s',
    run ops s = Ok tt s'
    /\ wellformed maxLog closed' cur' s'
    /\ concat closed' ++ cur'
       = (concat closed ++ cur)
           ++ records_of (len (concat closed ++ cur) + 1) ops
    /\ len closed' <= len closed + len (records_of 1 ops).
Proof.
  induction ops as [|o ops IH]; intros closed cur s Hwf Hc Hn.
  - exists closed, cur, s. split; [reflexivity|]. split; [assumption|].
    split; [now rewrite app_nil_r|]. unfold len. cbn. lia.
  - assert (Hstep : forall data ckpt,
      records_of 1 (o :: ops) = record 1 data ckpt :: records_of 2 ops ->
      records_of (len (concat closed ++ cur) + 1) (o :: ops)
      = record (len (concat closed ++ cur) + 1) data ckpt
          :: records_of (len (concat closed ++ cur) + 1 + 1) ops ->
      step o = append_record data ckpt ->
      exists closed' cur' s',
        run (o :: ops) s = Ok tt s'
        /\ wellformed maxLog closed' cur' s'
        /\ concat closed' ++ cur'
           = (concat closed ++ cur)
               ++ records_of (len (concat closed ++ cur) + 1) (o :: ops)
        /\ len closed' <= len closed + len (records_of 1 (o :: ops))).
    { intros data ckpt E1 En Es. rewrite E1 in Hc, Hn. rewrite E1, En.
      assert (Hl : len (record 1 data ckpt :: records_of 2 ops)
                   = len (records_of 1 ops) + 1).
      { unfold len. cbn [length]. pose proof (len_records_of 1 2 ops) as Hl.
        unfold len in Hl. lia. }
      rewrite Hl in *. pose proof (len_nonneg (records_of 1 ops)) as H0.
      pose proof (len_nonneg closed) as H1.
      pose proof (len_nonneg (concat closed ++ cur)) as H2.
      destruct (append_record_wellformed _ _ _ _ data ckpt Hwf)
        as (size & closed1 & cur1 & s1 & _ & E & Hwf1 & Hcat1 & Hcase);
        [lia|lia|].
      assert (Hc1 : len closed1 <= len closed + 1).
      { destruct Hcase as [(_ & -> & _)|(_ & -> & _)];
          [rewrite len_snoc|]; lia. }
      destruct (IH closed1 cur1 s1 Hwf1) as (closed' & cur' & s' & E' & Hwf' & Hcat' & Hc').
      { lia. }
      { rewrite Hcat1, len_snoc. lia. }
      exists closed', cur', s'. split.
      - cbn [run]. unfold bind. rewrite Es, E. exact E'.
      - split; [assumption|]. split; [|lia].
        rewrite Hcat', Hcat1, len_snoc, <- app_assoc. reflexivity. }
    destruct o as [data| |].
    + apply (Hstep data false); reflexivity.
    + apply (Hstep (Some []) true); reflexivity.
    + cbn [records_of] in *.
      destruct (Sync_wellformed _ _ _ _ Hwf) as (fs' & E & Hwf' & _).
      destruct (IH closed cur _ Hwf' Hc Hn) as (closed' & cur' & s' & E' & Hw' & Hcat' & Hc').
      exists closed', cur', s'. split; [|auto].
      cbn [run step]. unfold bind. rewrite E. exact E'.
Qed.

Lemma wellformed_opened maxLogSizeInKB w0 fs0 :
  NewWal maxLogSizeInKB ∅ = Ok w0 fs0 ->
  wellformed (Int32.wrap (maxLogSizeInKB * 1024)) [] [] (w0, fs0).
Proof.
  rewrite NewWal_empty. intros [= <- <-]. split; [|split].
  - split; [|split].
    + constructor; cbn [fst snd logFile writer lastSegmentNo map].
      * intros name. destruct (decide (getLogFileName 1 = name)) as [<-|Hne].
        -- rewrite lookup_singleton_eq. discriminate.
        -- rewrite lookup_singleton_ne by assumption. discriminate.
      * intros j Hj. apply lookup_singleton_ne.
        intros E%getLogFileName_inj. unfold len in Hj. cbn in Hj. lia.
      * reflexivity.
      * reflexivity.
      * intros j bs Hj. discriminate.
      * exists []. split; [apply lookup_singleton_eq|reflexivity].
      * unfold len, bufio.defaultBufSize. cbn. lia.
    + reflexivity.
    + split; [reflexivity|constructor].
  - reflexivity.
  - constructor; [|constructor]. right. cbn. lia.
Qed.

Lemma cur_bytes_layout closed cur s : layout closed cur s -> cur_bytes s = frames cur.
Proof.
  intros H. destruct (lay_open _ _ _ H) as (c & Hc & Hcat).
  unfold cur_bytes. rewrite (lay_logFile _ _ _ H), Hc. exact Hcat.
Qed.

(** C3, as amended.  From a log opened on an empty directory, after any trace
    of writes, checkpoints and syncs: a write rotates to a new segment before
    its frame is written exactly when the size [Stat] reports for the current
    segment file plus the length of the frame exceeds [maxLogSize], which is
    [maxLogSizeInKB * 1024] as an [int32]; the frame then is the whole of the
    new segment, and otherwise it follows what the segment had.  At a sync
    point every segment file has at most [maxLogSize] plus the 4096 bytes the
    writer can hold back from [Stat], unless it holds a single frame or
    none. *)
Theorem rotation_rule_and_segment_size maxLogSizeInKB ops data :
  len (records_of 1 ops) + 3 <= Int32.max_int ->
  exists w0 fs0 s size s' fs2,
    NewWal maxLogSizeInKB ∅ = Ok w0 fs0
    /\ run ops (w0, fs0) = Ok tt s
    /\ maxLogSize s.1 = Int32.wrap (maxLogSizeInKB * 1024)
    /\ Stat_Size (logFile s.1) s.2 = Some size
    /\ writeData data s = Ok tt s'
    /\ (let frame_len := len (encode (NewWalData (lastSequenceNo s.1 + 1) data)) in
        (size + frame_len > maxLogSize s.1
         /\ lastSegmentNo s'.1 = lastSegmentNo s.1 + 1
         /\ cur_bytes s' = encode (NewWalData (lastSequenceNo s.1 + 1) data))
        \/ (size + frame_len <= maxLogSize s.1
            /\ lastSegmentNo s'.1 = lastSegmentNo s.1
            /\ cur_bytes s'
               = cur_bytes s ++ encode (NewWalData (lastSequenceNo s.1 + 1) data)))
    /\ Sync s = Ok tt (set_writer [] s.1, fs2)
    /\ forall j, 1 <= j <= lastSegmentNo s.1 ->
         exists bs, fs2 !! getLogFileName j = Some (File (frames bs))
                    /\ (len (frames bs) <= maxLogSize s.1 + bufio.defaultBufSize
                        \/ (length bs <= 1)%nat).
Proof.
  intros Hmax. pose proof (len_nonneg (records_of 1 ops)) as H0.
  pose proof (wellformed_opened maxLogSizeInKB _ _ (NewWal_empty maxLogSizeInKB)) as Hwf0.
  destruct (run_wellformed _ ops _ _ _ Hwf0)
    as (closed & cur & s & E & Hwf & Hcat & Hc).
  { unfold len at 1. cbn [length]. lia. }
  { unfold len at 1. cbn [concat app length]. lia. }
  cbn [concat app] in Hcat. change (len []) with 0 in Hcat, Hc.
  rewrite Z.add_0_l in Hcat, Hc.
  pose proof (len_nonneg closed) as H1.
  destruct (append_record_wellformed _ _ _ _ data false Hwf)
    as (size & closed1 & cur1 & s' & Hstat & E' & Hwf1 & Hcat1 & Hcase).
  { lia. }
  { rewrite Hcat. lia. }
  destruct (Sync_wellformed _ _ _ _ Hwf) as (fs2 & Es & Hwf2 & Hcur2).
  destruct Hwf as ((Hlay & Hseq & Hnum) & Hm & Hbnd).
  destruct Hwf1 as ((Hlay1 & _ & _) & _ & _).
  destruct Hwf2 as ((Hlay2 & _ & _) & _ & _).
  pose proof (lay_lastSegmentNo _ _ _ Hlay) as Hseg.
  pose proof (lay_lastSegmentNo _ _ _ Hlay1) as Hseg1.
  unfold len in Hseg, Hseg1. rewrite length_map in Hseg, Hseg1.
  fold (len closed) in Hseg. fold (len closed1) in Hseg1.
  rewrite <- Hseq in Hcase. rewrite record_false in Hcase.
  eexists _, _. exists s, size, s', fs2.
  split; [apply NewWal_empty|]. split; [exact E|]. split; [exact Hm|].
  split; [exact Hstat|]. split; [exact E'|]. split; [|split; [exact Es|]].
  - cbv zeta. rewrite Hm. destruct Hcase as [(Hgt & -> & ->)|(Hle & -> & ->)].
    + left. split; [exact Hgt|]. split.
      * rewrite Hseg1, Hseg, len_snoc. reflexivity.
      * rewrite (cur_bytes_layout _ _ _ Hlay1). cbn. now rewrite app_nil_r.
    + right. split; [exact Hle|]. split.
      * rewrite Hseg1, Hseg. reflexivity.
      * rewrite (cur_bytes_layout _ _ _ Hlay1), (cur_bytes_layout _ _ _ Hlay).
        rewrite map_app, frames_app. cbn. now rewrite app_nil_r.
  - intros j Hj. rewrite Hseg in Hj. rewrite Hm.
    destruct (decide (j = len closed + 1)) as [->|Hne].
    + exists (map json.Marshal cur). split; [exact Hcur2|].
      apply Forall_app in Hbnd as [_ Hb]. now apply Forall_inv in Hb.
    + assert (Hlt : (Z.to_nat (j - 1) < length closed)%nat) by (unfold len in *; lia).
      apply lookup_lt_is_Some in Hlt as [recs Hrecs].
      exists (map json.Marshal recs). split.
      * pose proof (lay_closed _ _ _ Hlay2 (Z.to_nat (j - 1)) (map json.Marshal recs)) as Hcl.
        replace (Z.of_nat (Z.to_nat (j - 1)) + 1) with j in Hcl by lia.
        apply Hcl. rewrite list_lookup_fmap, Hrecs. reflexivity.
      * apply Forall_app in Hbnd as [Hb _].
        rewrite Forall_lookup in Hb.
        apply (Hb (Z.to_nat (j - 1))). rewrite list_lookup_fmap, Hrecs. reflexivity.
Qed.

Lemma rotation_rule_and_segment_size_witness :
  len (records_of 1 [OpWrite (Some (bytes_of "a")); OpSync]) + 3 <= Int32.max_int
  /\ exists w0 fs0 s s',
       NewWal 1 ∅ = Ok w0 fs0
       /\ run [OpWrite (Some (bytes_of "a")); OpSync] (w0, fs0) = Ok tt s
       /\ writeData (Some (bytes_of "b")) s = Ok tt s'
       /\ lastSegmentNo s'.1 = lastSegmentNo s.1.
Proof.
  assert (H : len (records_of 1 [OpWrite (Some (bytes_of "a")); OpSync]) + 3
              <= Int32.max_int) by (vm_compute; discriminate).
  split; [exact H|].
  destruct (rotation_rule_and_segment_size 1 _ (Some (bytes_of "b")) H)
    as (w0 & fs0 & s & size & s' & fs2 & E0 & E & Hm & Hstat & E' & Hcase & _).
  exists w0, fs0, s, s'. split; [exact E0|]. split; [exact E|]. split; [exact E'|].
  rewrite NewWal_empty in E0. injection E0 as <- <-.
  vm_compute in E. injection E as <-.
  vm_compute in E'. injection E' as <-. reflexivity.
Defined.

(** C3 as stated fails: three writes that the writer buffers, then a sync,
    leave a segment larger than [maxLogSize] plus its last frame. *)
Lemma segment_exceeds_maxLogSize_plus_last_frame :
  let big : slice := Some (repeat x00 600) in
  exists w0 fs0 s c,
    NewWal 1 ∅ = Ok w0 fs0
    /\ run [OpWrite big; OpWrite big; OpWrite big; OpSync] (w0, fs0) = Ok tt s
    /\ lastSegmentNo s.1 = 1
    /\ s.2 !! getLogFileName 1 = Some (File c)
    /\ c = encode (NewWalData 1 big) ++ encode (NewWalData 2 big)
             ++ encode (NewWalData 3 big)
    /\ len c > maxLogSize s.1 + len (encode (NewWalData 3 big)).
Proof.
  intros big. eexists _, _, _, _.
  split; [apply NewWal_empty|]. split; [vm_compute; reflexivity|].
  split; [reflexivity|]. split; [vm_compute; reflexivity|].
  split; [vm_compute; reflexivity|]. vm_compute. reflexivity.
Qed.

(* --------------------------------------------------------------------- *)
(** ** Reading a log that is on disk in full *)

Lemma run_app ops1 ops2 s :
  run (ops1 ++ ops2) s =
    match run ops1 s with
    | Ok _ s' => run ops2 s'
    | Err e s' => Err e s'
    | Panic p => Panic p
    | Loops => Loops
    end.
Proof.
  revert s. induction ops1 as [|o ops1 IH]; intros s; [reflexivity|].
  cbn [app run]. unfold bind. destruct (step o s); try reflexivity. apply IH.
Qed.

Lemma readSegment_stored segs s (j : nat) recs :
  stored segs s -> segs !! j = Some recs ->
  readSegment (Z.of_nat j + 1) s = Ok recs s.
Proof.
  destruct s as [w fs]. intros [_ Hst] Hj. destruct (Hst j recs Hj) as [Hf Hh].
  cbn [fst snd] in Hf. rewrite (readSegment_on_file _ _ _ _ Hf).
  now rewrite (read_image_parsed _ _ _ _ _ (parsed_frames _ _ Hh)).
Qed.

Lemma readData_stored segs s (j : nat) recs :
  stored segs s -> segs !! j = Some recs ->
  readData (Z.of_nat j + 1) s = Ok (map GetData recs) s.
Proof.
  intros Hst Hj. unfold readData, bind.
  now rewrite (readSegment_stored _ _ _ _ Hst Hj).
Qed.

Lemma ReadFromSegment_loop_stored segs s :
  stored segs s ->
  forall n (k : nat) acc, (k + n = length segs)%nat ->
    ReadFromSegment_loop n (Z.of_nat k + 1) acc s
    = Ok (acc ++ map GetData (concat (drop k segs))) s.
Proof.
  intros Hst. induction n as [|n IH]; intros k acc Hk.
  - rewrite drop_ge by lia. cbn. now rewrite app_nil_r.
  - assert (Hlt : (k < length segs)%nat) by lia.
    apply lookup_lt_is_Some in Hlt as [recs Hrecs].
    cbn [ReadFromSegment_loop]. unfold bind.
    rewrite (readData_stored _ _ _ _ Hst Hrecs).
    replace (Z.of_nat k + 1 + 1) with (Z.of_nat (S k) + 1) by lia.
    rewrite IH by lia.
    rewrite (drop_S _ _ _ Hrecs). cbn [concat].
    now rewrite map_app, <- app_assoc.
Qed.

Lemma ReadFromSegment_stored segs s (k : nat) :
  stored segs s -> (k <= length segs)%nat ->
  ReadFromSegment (Z.of_nat k + 1) s
  = Ok (map GetData (concat (drop k segs))) s.
Proof.
  destruct s as [w fs]. intros Hst Hk. unfold ReadFromSegment.
  rewrite (proj2 (Z.ltb_ge _ _)) by lia.
  destruct Hst as [Hl Hst']. cbn [fst snd] in Hl. rewrite Hl.
  rewrite (ReadFromSegment_loop_stored segs (w, fs) (conj Hl Hst')
             _ k []).
  - reflexivity.
  - unfold len. lia.
Qed.

Lemma after_last_checkpoint_app a b :
  after_last_checkpoint (a ++ b)
  = match after_last_checkpoint b with
    | Some l => Some l
    | None => option_map (fun l => l ++ b) (after_last_checkpoint a)
    end.
Proof.
  induction a as [|r a IH]; cbn [app after_last_checkpoint].
  - now destruct (after_last_checkpoint b).
  - rewrite IH. destruct (after_last_checkpoint b); [reflexivity|].
    destruct (after_last_checkpoint a); [reflexivity|].
    now destruct (IsCheckpoint r).
Qed.

(** Scanning down from segment [n]: right once the segments above [n] are
    known to hold no checkpoint. *)
Lemma ReadFromLastCheckpoint_loop_stored segs s :
  stored segs s ->
  forall n : nat, (n <= length segs)%nat ->
    after_last_checkpoint (concat (drop n segs)) = None ->
    ReadFromLastCheckpoint_loop n (Z.of_nat n) s
    = Ok (map GetData (since_checkpoint (concat segs))) s.
Proof.
  intros Hst. induction n as [|n IH]; intros Hn Hnone.
  - cbn [ReadFromLastCheckpoint_loop]. rewrite drop_0 in Hnone.
    unfold since_checkpoint. rewrite Hnone.
    change 1 with (Z.of_nat 0 + 1).
    rewrite (ReadFromSegment_stored _ _ 0 Hst) by lia. now rewrite drop_0.
  - assert (Hlt : (n < length segs)%nat) by lia.
    apply lookup_lt_is_Some in Hlt as [recs Hrecs].
    cbn [ReadFromLastCheckpoint_loop]. unfold bind.
    replace (Z.of_nat (S n)) with (Z.of_nat n + 1) by lia.
    rewrite (readSegment_stored _ _ _ _ Hst Hrecs).
    assert (Hsplit : concat segs
                     = concat (take n segs) ++ recs ++ concat (drop (S n) segs)).
    { rewrite <- (take_drop n segs) at 1. rewrite concat_app.
      now rewrite (drop_S _ _ _ Hrecs). }
    destruct (after_last_checkpoint recs) as [tail|] eqn:Etail.
    + replace (Z.of_nat n + 1 + 1) with (Z.of_nat (S n) + 1) by lia.
      rewrite (ReadFromSegment_stored _ _ (S n) Hst) by lia.
      unfold ret. f_equal. unfold since_checkpoint.
      rewrite Hsplit, !after_last_checkpoint_app, Hnone, Etail. cbn [option_map].
      now rewrite map_app.
    + replace (Z.of_nat n + 1 - 1) with (Z.of_nat n) by lia.
      apply IH; [lia|].
      rewrite (drop_S _ _ _ Hrecs). cbn [concat].
      now rewrite after_last_checkpoint_app, Hnone, Etail.
Qed.

Lemma ReadFromLastCheckpoint_stored segs s :
  stored segs s ->
  ReadFromLastCheckpoint s = Ok (map GetData (since_checkpoint (concat segs))) s.
Proof.
  destruct s as [w fs]. intros Hst. unfold ReadFromLastCheckpoint.
  pose proof Hst as [Hl _]. cbn [fst snd] in Hl. rewrite Hl.
  unfold len. rewrite Nat2Z.id.
  apply (ReadFromLastCheckpoint_loop_stored segs (w, fs) Hst); [lia|].
  now rewrite drop_all.
Qed.

(* --------------------------------------------------------------------- *)
(** ** The records of a trace and its payloads *)

Lemma no_checkpoint_records seq ops :
  existsb is_checkpoint ops = false ->
  after_last_checkpoint (records_of seq ops) = None.
Proof.
  revert seq. induction ops as [|[d| |] ops IH]; intros seq H;
    cbn [existsb is_checkpoint orb records_of after_last_checkpoint] in *.
  - reflexivity.
  - now rewrite IH.
  - discriminate.
  - now apply IH.
Qed.

Lemma some_checkpoint_records seq ops :
  existsb is_checkpoint ops = true ->
  exists l, after_last_checkpoint (records_of seq ops) = Some l.
Proof.
  revert seq. induction ops as [|[d| |] ops IH]; intros seq H;
    cbn [existsb is_checkpoint orb records_of after_last_checkpoint] in *.
  - discriminate.
  - destruct (IH (seq + 1) H) as [l ->]. eauto.
  - destruct (after_last_checkpoint (records_of (seq + 1) ops)); eauto.
  - now apply IH.
Qed.

Lemma payloads_without_checkpoint seq ops :
  existsb is_checkpoint ops = false ->
  payloads_after_checkpoint ops = map GetData (records_of seq ops).
Proof.
  revert seq. induction ops as [|[d| |] ops IH]; intros seq H;
    cbn [existsb is_checkpoint orb payloads_after_checkpoint records_of map] in *.
  - reflexivity.
  - rewrite H. cbn [GetData record Data NewWalData]. f_equal. now apply IH.
  - discriminate.
  - rewrite H. now apply IH.
Qed.

Lemma payloads_since_checkpoint seq ops :
  map GetData (since_checkpoint (records_of seq ops))
  = payloads_after_checkpoint ops.
Proof.
  revert seq. induction ops as [|o ops IH]; intros seq; [reflexivity|].
  cbn [payloads_after_checkpoint].
  destruct (existsb is_checkpoint ops) eqn:Hex.
  - assert (Hrec : exists r seq', records_of seq (o :: ops) = r ++ records_of seq' ops)
      by (destruct o; cbn [records_of];
          [exists [record seq data false], (seq + 1)
          |exists [record seq (Some []) true], (seq + 1)
          |exists [], seq]; reflexivity).
    destruct Hrec as (r & seq' & ->).
    destruct (some_checkpoint_records seq' ops Hex) as [l Hl].
    unfold since_checkpoint. rewrite after_last_checkpoint_app, Hl.
    rewrite <- (IH seq'). unfold since_checkpoint. now rewrite Hl.
  - pose proof (no_checkpoint_records (seq + 1) ops Hex) as Hn.
    destruct o as [d| |]; cbn [records_of]; unfold since_checkpoint;
      cbn [after_last_checkpoint].
    + rewrite Hn. cbn [IsCheckpoint record Checkpoint map GetData Data NewWalData].
      now rewrite (payloads_without_checkpoint (seq + 1)).
    + rewrite Hn. cbn [IsCheckpoint record Checkpoint].
      now rewrite (payloads_without_checkpoint (seq + 1)).
    + rewrite (no_checkpoint_records seq ops Hex).
      now rewrite (payloads_without_checkpoint seq).
Qed.

Lemma numbered_holds recs :
  numbered recs -> len recs <= Int32.max_int ->
  Forall (fun v => fits (json.Marshal v)) recs ->
  Forall (fun v => holds (json.Marshal v) v) recs.
Proof.
  intros [Hseq Hval] Hn Hfit. rewrite Forall_forall in *. intros v Hv.
  destruct (Hval v Hv) as [Hc Hi].
  apply holds_Marshal; [|assumption|assumption|now apply Hfit].
  assert (Hs : Seq v ∈ seqZ 1 (len recs)).
  { rewrite <- Hseq. apply list_elem_of_fmap. eauto. }
  apply elem_of_seqZ in Hs.
  unfold Int32.in_range, Int32.min_int, Int32.max_int in *. lia.
Qed.

Lemma Forall2_holds_map recs :
  Forall (fun v => holds (json.Marshal v) v) recs ->
  Forall2 holds (map json.Marshal recs) recs.
Proof. induction 1; cbn [map]; constructor; assumption. Qed.

Lemma stored_of_wellformed maxLog closed cur w (fs : FS) :
  wellformed maxLog closed cur (w, fs) ->
  fs !! getLogFileName (len closed + 1)
    = Some (File (frames (map json.Marshal cur))) ->
  len (concat closed ++ cur) <= Int32.max_int ->
  Forall (fun v => fits (json.Marshal v)) (concat closed ++ cur) ->
  stored (closed ++ [cur]) (w, fs).
Proof.
  intros ((Hlay & Hseq & Hnum) & _ & _) Hcur Hn Hfit.
  pose proof (numbered_holds _ Hnum Hn Hfit) as Hh.
  apply Forall_app in Hh as [Hhc Hho].
  split.
  - rewrite (lay_lastSegmentNo _ _ _ Hlay). unfold len.
    rewrite length_map, length_app. cbn. lia.
  - intros j recs Hj. cbn [fst snd].
    apply lookup_app_Some in Hj as [Hj|[Hge Hj]].
    + split.
      * apply (lay_closed _ _ _ Hlay j). rewrite list_lookup_fmap, Hj. reflexivity.
      * apply Forall2_holds_map. rewrite Forall_forall in *. intros v Hv.
        apply Hhc. apply (proj2 (list_elem_of_In _ _)), in_concat. exists recs.
        split; [|now apply (proj1 (list_elem_of_In _ _))].
        apply (proj1 (list_elem_of_In _ _)). eapply list_elem_of_lookup_2. exact Hj.
    + apply list_lookup_singleton_Some in Hj as [Hj <-].
      replace (Z.of_nat j + 1) with (len closed + 1) by (unfold len; lia).
      split; [exact Hcur|]. now apply Forall2_holds_map.
Qed.

Lemma concat_snoc {A} (closed : list (list A)) cur :
  concat (closed ++ [cur]) = concat closed ++ cur.
Proof. rewrite concat_app. cbn. now rewrite app_nil_r. Qed.

(** C4.  From a log opened on an empty directory, for every trace of writes
    and checkpoints (and syncs) followed by a sync: [ReadFromLastCheckpoint]
    returns exactly the payloads written strictly after the most recent
    checkpoint call, in write order across the segments, and leaves the state
    as it is; when the trace has no checkpoint call, so that no segment holds
    a checkpoint record, its result is that of [ReadFromSegment(1)].  The
    trace is short enough for sequence and segment numbers to be [int32]
    values and every serialized record fits the [int32] length prefix of its
    frame. *)
Theorem read_from_last_checkpoint maxLogSizeInKB ops :
  len (records_of 1 ops) + 2 <= Int32.max_int ->
  Forall (fun v => fits (json.Marshal v)) (records_of 1 ops) ->
  exists w0 fs0 s,
    NewWal maxLogSizeInKB ∅ = Ok w0 fs0
    /\ run (ops ++ [OpSync]) (w0, fs0) = Ok tt s
    /\ ReadFromLastCheckpoint s = Ok (payloads_after_checkpoint ops) s
    /\ (existsb is_checkpoint ops = false ->
        ReadFromLastCheckpoint s = ReadFromSegment 1 s).
Proof.
  intros Hmax Hfit. pose proof (len_nonneg (records_of 1 ops)) as H0.
  pose proof (wellformed_opened maxLogSizeInKB _ _ (NewWal_empty maxLogSizeInKB)) as Hwf0.
  destruct (run_wellformed _ ops _ _ _ Hwf0)
    as (closed & cur & s & E & Hwf & Hcat & Hc).
  { unfold len at 1. cbn [length]. lia. }
  { unfold len at 1. cbn [concat app length]. lia. }
  cbn [concat app] in Hcat. change (len []) with 0 in Hcat, Hc.
  rewrite Z.add_0_l in Hcat, Hc.
  destruct (Sync_wellformed _ _ _ _ Hwf) as (fs2 & Es & Hwf2 & Hcur2).
  assert (Hst : stored (closed ++ [cur]) (set_writer [] s.1, fs2)).
  { apply (stored_of_wellformed _ _ _ _ _ Hwf2 Hcur2); rewrite Hcat; [lia|assumption]. }
  eexists _, _. exists (set_writer [] s.1, fs2).
  split; [apply NewWal_empty|]. split; [|split].
  - rewrite run_app, E. cbn [run step]. unfold bind. now rewrite Es.
  - rewrite (ReadFromLastCheckpoint_stored _ _ Hst), concat_snoc, Hcat.
    now rewrite payloads_since_checkpoint.
  - intros Hno.
    rewrite (ReadFromLastCheckpoint_stored _ _ Hst), concat_snoc, Hcat.
    change (ReadFromSegment 1) with (ReadFromSegment (Z.of_nat 0 + 1)).
    rewrite (ReadFromSegment_stored _ _ 0 Hst) by lia.
    rewrite drop_0, concat_snoc, Hcat. unfold since_checkpoint.
    now rewrite (no_checkpoint_records 1 ops Hno).
Qed.

Lemma read_from_last_checkpoint_witness :
  let ops := [OpWrite (Some (bytes_of "a")); OpCheckpoint; OpSync;
              OpWrite (Some (bytes_of "b")); OpWrite None] in
  len (records_of 1 ops) + 2 <= Int32.max_int
  /\ Forall (fun v => fits (json.Marshal v)) (records_of 1 ops)
  /\ exists w0 fs0 s,
       NewWal 1 ∅ = Ok w0 fs0
       /\ run (ops ++ [OpSync]) (w0, fs0) = Ok tt s
       /\ ReadFromLastCheckpoint s = Ok [Some (bytes_of "b"); None] s.
Proof.
  intros ops.
  assert (H1 : len (records_of 1 ops) + 2 <= Int32.max_int)
    by (vm_compute; discriminate).
  assert (H2 : Forall (fun v => fits (json.Marshal v)) (records_of 1 ops))
    by (repeat constructor; vm_compute; discriminate).
  split; [exact H1|]. split; [exact H2|].
  destruct (read_from_last_checkpoint 1 ops H1 H2) as (w0 & fs0 & s & E0 & E & Er & _).
  exists w0, fs0, s. split; [exact E0|]. split; [exact E|]. exact Er.
Defined.

(* --------------------------------------------------------------------- *)
(** ** Repairing a segment *)

Lemma repair_file_swap (fs : FS) name tmp content data :
  content_of fs name content -> fs !! tmp = None -> tmp <> name ->
  exists fs1,
    OpenFile_CREATE_RDONLY name fs = Some (content, fs1)
    /\ exists fs2, OpenFile_CREATE_APPEND_WRONLY tmp fs1 = Some fs2
    /\ exists fs3, os.Write tmp data fs2 = Some fs3
    /\ os.Rename tmp name fs3 = Some (<[name := File data]> fs).
Proof.
  intros Hc Ht Hne.
  set (fs1 := match fs !! name with Some _ => fs | None => <[name := File []]> fs end).
  assert (H1 : OpenFile_CREATE_RDONLY name fs = Some (content, fs1)).
  { unfold OpenFile_CREATE_RDONLY, fs1. destruct Hc as [->|[-> ->]]; reflexivity. }
  assert (Hn1 : exists c, fs1 !! name = Some (File c)).
  { unfold fs1. destruct Hc as [Hc|[Hc ->]]; rewrite Hc; [eauto|].
    rewrite lookup_insert_eq. eauto. }
  assert (Ht1 : fs1 !! tmp = None).
  { unfold fs1. destruct (fs !! name); [assumption|].
    rewrite lookup_insert_ne by congruence. assumption. }
  assert (Hi1 : forall x, <[name := x]> fs1 = <[name := x]> fs).
  { intros x. unfold fs1. destruct (fs !! name); [reflexivity|].
    apply insert_insert_eq. }
  exists fs1. split; [exact H1|].
  exists (<[tmp := File []]> fs1). split.
  { unfold OpenFile_CREATE_APPEND_WRONLY. now rewrite Ht1. }
  exists (<[tmp := File data]> fs1). split.
  { unfold os.Write. rewrite lookup_insert_eq, insert_insert_eq. reflexivity. }
  unfold os.Rename. rewrite lookup_insert_eq, lookup_insert_ne by assumption.
  destruct Hn1 as [c ->]. rewrite delete_insert_id by assumption.
  now rewrite Hi1.
Qed.

Lemma tmpName_self n : tmpName (getLogFileName n) <> getLogFileName n.
Proof. apply tmpName_ne. Qed.

(** What [repairSegment] does to a segment whose image parses as [bs],
    [tl], [e], when no file is left under its temporary name. *)
Lemma repairSegment_parsed segmentNo w fs content bs vs tl e :
  content_of fs (getLogFileName segmentNo) content ->
  fs !! tmpName (getLogFileName segmentNo) = None ->
  parsed content bs vs tl e ->
  repairSegment segmentNo (w, fs) =
    match repair_ending e tt with
    | Got _ =>
        Ok tt (repaired_wal segmentNo w
                 (fold_left into_lastData bs (Some zeroWalData)),
               <[getLogFileName segmentNo := File (frames bs)]> fs)
    | Crash p => Panic p
    | Bad err => Err err (w, fs)
    | Hang => Loops
    end.
Proof.
  intros Hc Ht Hp.
  destruct (repair_file_swap fs _ _ content (frames bs) Hc Ht (tmpName_self _))
    as (fs1 & E1 & fs2 & E2 & fs3 & E3 & E4).
  unfold repairSegment. rewrite E1.
  fold (repair_image content). rewrite (repair_image_parsed _ _ _ _ _ Hp).
  destruct e; cbn [repair_ending]; try reflexivity;
    rewrite E2, E3, E4; unfold repaired_wal;
    destruct (segmentNo =? lastSegmentNo w);
    try destruct (fold_left into_lastData bs (Some zeroWalData)); reflexivity.
Qed.

Lemma member_value_dest k s v1 v2 r rest :
  json.member_value k s v1 = Some (r, rest) ->
  exists r', json.member_value k s v2 = Some (r', rest).
Proof.
  unfold json.member_value.
  repeat match goal with
         | |- context [decide ?P] => destruct (decide P)
         | |- context [json.starts_with ?a ?b] => destruct (json.starts_with a b)
         | |- context [json.int32_value ?a] => destruct (json.int32_value a) as [[? ?]|]
         | |- context [match s with [] => _ | _ :: _ => _ end] => destruct s
         | |- context [Byte.eqb ?a ?b] => destruct (Byte.eqb a b)
         | |- context [json.string_body ?a] => destruct (json.string_body a) as [[? ?]|]
         | |- context [base64.DecodeString ?a] => destruct (base64.DecodeString a)
         end;
    intros [= <- <-] || discriminate; eauto.
Qed.

Lemma members_dest fuel : forall s v1 v2 r,
  json.members fuel s v1 = Some r -> exists r', json.members fuel s v2 = Some r'.
Proof.
  induction fuel as [|fuel IH]; intros s v1 v2 r; [discriminate|].
  cbn [json.members]. destruct s as [|c s1]; [discriminate|].
  destruct (Byte.eqb c json.quote); [|discriminate].
  destruct (json.string_body s1) as [[k [|c2 s2]]|]; try discriminate.
  destruct (Byte.eqb c2 ":"); [|discriminate].
  destruct (json.member_value k s2 v1) as [[r1 [|c3 s3]]|] eqn:E1; try discriminate.
  destruct (member_value_dest _ _ _ v2 _ _ E1) as [r2 ->].
  destruct (Byte.eqb c3 ","); [apply IH|].
  destruct (Byte.eqb c3 "}"); [|discriminate].
  destruct s3; [eauto|discriminate].
Qed.

(** Whether a document decodes does not depend on what the destination
    holds. *)
Lemma Unmarshal_dest b p1 p2 v :
  json.Unmarshal b p1 = json.Pointer (Some v) ->
  exists v', json.Unmarshal b p2 = json.Pointer (Some v').
Proof.
  unfold json.Unmarshal. destruct (decide (b = bytes_of "null")); [discriminate|].
  unfold json.object. destruct b as [|c t]; [discriminate|].
  destruct (Byte.eqb c "{"); [|discriminate].
  destruct (decide (t = ["}"%byte])); [eauto|].
  destruct (json.members (length t) t (default zeroWalData p1)) as [r|] eqn:E;
    [|discriminate].
  destruct (members_dest _ _ _ (default zeroWalData p2) _ E) as [r' ->]. eauto.
Qed.

Lemma into_lastData_good b lastData :
  good b -> exists d, into_lastData lastData b = Some d.
Proof.
  intros (v & _ & Hd & _). unfold into_lastData.
  destruct (Unmarshal_dest _ _ lastData _ Hd) as [v' ->]. eauto.
Qed.

Lemma fold_into_lastData bs vs d0 :
  Forall2 holds bs vs ->
  exists d, fold_left into_lastData bs (Some d0) = Some d.
Proof.
  intros H. revert d0. induction H as [|b v bs vs Hb _ IH]; intros d0; [eauto|].
  cbn [fold_left].
  destruct (into_lastData_good b (Some d0)) as [d ->]; [now exists v|apply IH].
Qed.

Lemma into_lastData_Marshal v lastData :
  Int32.in_range (Seq v) -> Int32.in_range (CRC v) ->
  into_lastData lastData (json.Marshal v) = Some v.
Proof.
  intros Hs Hc. unfold into_lastData. now rewrite Unmarshal_Marshal.
Qed.

(** A successful write takes the next sequence number; its frame ends the
    current segment. *)
Lemma append_record_ok s data ckpt s' :
  len (writer s.1) <= bufio.defaultBufSize ->
  append_record data ckpt s = Ok tt s' ->
  let seq := Int32.wrap (lastSequenceNo s.1 + 1) in
  lastSequenceNo s'.1 = seq
  /\ exists pre, cur_bytes s' = pre ++ encode (record seq data ckpt).
Proof.
  destruct s as [w fs]. cbn [fst snd]. intros Hb E.
  set (seq := Int32.wrap (lastSequenceNo w + 1)).
  unfold append_record, bind, checkAndRotateLog, Stat_Size in E.
  cbn [set_lastSequenceNo lastSequenceNo logFile maxLogSize writer] in E.
  fold seq in E.
  destruct (fs !! logFile w) as [[c|]|] eqn:Hc; try discriminate.
  match type of E with context [if ?b then _ else _] => destruct b end.
  - unfold rotateLog, bind, Sync in E.
    cbn [set_lastSequenceNo lastSequenceNo logFile maxLogSize writer
           lastSegmentNo set_writer] in E.
    rewrite (Flush_file _ _ _ _ Hc) in E.
    cbn [set_lastSequenceNo lastSequenceNo logFile maxLogSize writer
           lastSegmentNo set_writer] in E.
    set (name := getLogFileName (Int32.wrap (lastSegmentNo w + 1))) in *.
    set (fs1 := <[logFile w := File (c ++ writer w)]> fs) in *.
    unfold OpenFile_CREATE_APPEND_WRONLY in E.
    assert (Hopen : exists fs2 c2,
      match fs1 !! name with
      | Some (File _) => Some fs1
      | Some Dir => None
      | None => Some (<[name := File []]> fs1)
      end = Some fs2 /\ fs2 !! name = Some (File c2)).
    { destruct (fs1 !! name) as [[c2|]|] eqn:En.
      - eauto.
      - cbv iota beta in E. discriminate.
      - eexists _, []. split; [reflexivity|apply lookup_insert_eq]. }
    destruct Hopen as (fs2 & c2 & Eo & Hc2). rewrite Eo in E.
    unfold writer_Write in E. cbn [logFile writer] in E.
    destruct (bufio_Write_file name [] (frame (json.Marshal (record seq data ckpt)))
                fs2 c2 Hc2) as (c' & buf' & Ew & Hcat & _).
    { unfold len, bufio.defaultBufSize. cbn. lia. }
    unfold frame in Ew. rewrite Ew in E. injection E as <-.
    split; [reflexivity|]. exists c2. unfold cur_bytes. cbn [fst snd logFile writer set_writer].
    rewrite lookup_insert_eq, Hcat, app_nil_r. reflexivity.
  - unfold writer_Write in E. cbn [logFile writer set_lastSequenceNo] in E.
    destruct (bufio_Write_file (logFile w) (writer w)
                (frame (json.Marshal (record seq data ckpt))) fs c Hc Hb)
      as (c' & buf' & Ew & Hcat & _).
    unfold frame in Ew. rewrite Ew in E. injection E as <-.
    split; [reflexivity|]. exists (c ++ writer w). unfold cur_bytes.
    cbn [fst snd logFile writer set_writer set_lastSequenceNo].
    rewrite lookup_insert_eq, Hcat. reflexivity.
Qed.

(* --------------------------------------------------------------------- *)
(** ** The run of frames that pass is determined by the image *)

Lemma frame_inj b b' r r' :
  fits b -> fits b' -> frame b ++ r = frame b' ++ r' -> b = b' /\ r = r'.
Proof.
  intros Hb Hb' E.
  assert (Hl : len b = len b').
  { rewrite <- (frame_size b r Hb), <- (frame_size b' r' Hb'). now rewrite E. }
  apply (f_equal (drop 4)) in E. rewrite !frame_drop in E.
  apply app_inj_1 in E; [exact E|]. unfold len in Hl. lia.
Qed.

Lemma good_head_no_ending e b v rest :
  holds b v -> at_head e (frame b ++ rest) -> False.
Proof.
  intros (Hb & Hd & Hv).
  pose proof (len_nonneg b) as H0. pose proof (len_nonneg rest) as H1.
  assert (Hlen : len (frame b ++ rest) = 4 + len b + len rest)
    by (rewrite len_app, frame_length; lia).
  destruct e; cbn [at_head].
  - discriminate.
  - intros [_ H]. lia.
  - intros [_ H]. rewrite frame_size in H by assumption. lia.
  - intros (_ & _ & H). rewrite frame_size in H by assumption. lia.
  - intros (b' & more & E & Hb' & Hd').
    apply frame_inj in E as [<- _]; [congruence|assumption|assumption].
  - intros (b' & more & E & Hb' & Hd').
    apply frame_inj in E as [<- _]; [congruence|assumption|assumption].
  - intros (b' & v' & more & E & Hb' & Hd' & Hv').
    apply frame_inj in E as [<- _]; [congruence|assumption|assumption].
Qed.

Lemma parsed_unique t bs vs tl e bs' vs' tl' e' :
  parsed t bs vs tl e -> parsed t bs' vs' tl' e' ->
  bs = bs' /\ vs = vs' /\ tl = tl'.
Proof.
  intros (-> & Hvs & He) (E & Hvs' & He'). revert bs' vs' Hvs' E.
  induction Hvs as [|b v bs vs Hb Hvs IH]; intros bs' vs' Hvs' E;
    destruct Hvs' as [|b' v' bs' vs' Hb' Hvs'].
  - cbn in E. auto.
  - cbn [frames map concat app] in E. change (concat (map frame bs')) with (frames bs') in E.
    rewrite <- app_assoc in E. rewrite E in He.
    now destruct (good_head_no_ending _ _ _ _ Hb' He).
  - cbn [frames map concat app] in E. change (concat (map frame bs)) with (frames bs) in E.
    rewrite <- app_assoc in E. rewrite <- E in He'.
    now destruct (good_head_no_ending _ _ _ _ Hb He').
  - rewrite !frames_cons, <- !app_assoc in E.
    apply frame_inj in E as [<- E]; [|apply Hb|apply Hb'].
    destruct (IH _ _ Hvs' E) as (-> & -> & ->).
    destruct Hb as (_ & Hd & _), Hb' as (_ & Hd' & _).
    rewrite Hd in Hd'. injection Hd' as ->. auto.
Qed.

Lemma parsed_app bs vs t bs1 vs1 tl e :
  Forall2 holds bs vs -> parsed t bs1 vs1 tl e ->
  parsed (frames bs ++ t) (bs ++ bs1) (vs ++ vs1) tl e.
Proof.
  intros H (-> & H1 & He). split; [|split; [|exact He]].
  - now rewrite frames_app, app_assoc.
  - now apply Forall2_app.
Qed.

Lemma repair_image_Got t kept lastData :
  repair_image t = Got (kept, lastData) ->
  exists bs vs tl e,
    parsed t bs vs tl e /\ kept = frames bs
    /\ lastData = fold_left into_lastData bs (Some zeroWalData)
    /\ repair_ending e tt = Got tt.
Proof.
  intros E. destruct (parse_exists t) as (bs & vs & tl & e & Hp).
  rewrite (repair_image_parsed _ _ _ _ _ Hp) in E.
  exists bs, vs, tl, e. split; [exact Hp|].
  destruct e; cbn [repair_ending] in *; try discriminate;
    injection E as <- <-; auto.
Qed.

(** C1, as amended.  For a segment made of frames that all pass the checks
    (the records [vs]) followed by an appended suffix, with no file left
    under the temporary name of the segment, and when the walk of the repair
    over the suffix returns (it panics on a negative length prefix and on a
    frame that holds the literal [null]): [repairSegment] replaces the
    segment by those frames followed by [kept], the frames at the head of
    the suffix that themselves pass all checks; reading the segment then
    gives [vs] followed by the records of [kept]; [kept] is a prefix of the
    suffix; when the suffix does not start with a whole frame that passes
    the checks, [kept] is empty and the decoded contents are exactly [vs].
    The number of records after the repair is the number of frames that
    passed before it, so under these conditions repair never increases the
    record count. *)
Theorem repairSegment_appended_suffix segmentNo w fs bs vs suffix kept lastData :
  Forall2 holds bs vs ->
  fs !! getLogFileName segmentNo = Some (File (frames bs ++ suffix)) ->
  fs !! tmpName (getLogFileName segmentNo) = None ->
  repair_image suffix = Got (kept, lastData) ->
  exists w' vs',
    let fs' := <[getLogFileName segmentNo := File (frames bs ++ kept)]> fs in
    repairSegment segmentNo (w, fs) = Ok tt (w', fs')
    /\ readSegment segmentNo (w', fs') = Ok (vs ++ vs') (w', fs')
    /\ (exists rest, suffix = kept ++ rest)
    /\ ((forall b rest, suffix = frame b ++ rest -> ~ good b) ->
        kept = [] /\ vs' = [])
    /\ (forall bs0 vs0 tl0 e0,
          parsed (frames bs ++ suffix) bs0 vs0 tl0 e0 ->
          length (vs ++ vs') = length vs0).
Proof.
  intros Hvs Hf Ht Hk.
  destruct (repair_image_Got _ _ _ Hk) as (bs1 & vs1 & tl & e & Hp1 & -> & _ & He).
  pose proof (parsed_app _ _ _ _ _ _ _ Hvs Hp1) as Hp.
  assert (Hall : Forall2 holds (bs ++ bs1) (vs ++ vs1)) by apply Hp.
  exists (repaired_wal segmentNo w
            (fold_left into_lastData (bs ++ bs1) (Some zeroWalData))), vs1.
  cbv zeta. rewrite <- frames_app. split; [|split; [|split; [|split]]].
  - rewrite (repairSegment_parsed _ _ _ _ _ _ _ _ (or_introl Hf) Ht Hp).
    destruct e; cbn [repair_ending] in *; try discriminate; reflexivity.
  - rewrite (readSegment_on_file _ _ _ (frames (bs ++ bs1)))
      by apply lookup_insert_eq.
    now rewrite (read_image_parsed _ _ _ _ _ (parsed_frames _ _ Hall)).
  - exists tl. apply Hp1.
  - intros Hno. destruct Hp1 as (Es & Hvs1 & _).
    destruct Hvs1 as [|b v bs1 vs1 Hb _]; [auto|].
    rewrite frames_cons, <- app_assoc in Es.
    destruct (Hno _ _ Es). now exists v.
  - intros bs0 vs0 tl0 e0 Hp0.
    destruct (parsed_unique _ _ _ _ _ _ _ _ _ Hp Hp0) as (_ & <- & _). reflexivity.
Qed.

Lemma repairSegment_appended_suffix_witness :
  let v := NewWalData 1 (Some (bytes_of "valid data")) in
  let suffix := bytes_of "corrupted data" in
  let fs : FS := {[ getLogFileName 1 := File (frames [json.Marshal v] ++ suffix) ]} in
  let w := mkWal (getLogFileName 1) [] 1024 1 1 in
  Forall2 holds [json.Marshal v] [v]
  /\ fs !! getLogFileName 1 = Some (File (frames [json.Marshal v] ++ suffix))
  /\ fs !! tmpName (getLogFileName 1) = None
  /\ repair_image suffix = Got ([], Some zeroWalData)
  /\ exists w' vs',
       let fs' := <[getLogFileName 1 := File (frames [json.Marshal v] ++ [])]> fs in
       repairSegment 1 (w, fs) = Ok tt (w', fs')
       /\ readSegment 1 (w', fs') = Ok ([v] ++ vs') (w', fs').
Proof.
  intros v suffix fs w.
  assert (H1 : Forall2 holds [json.Marshal v] [v]).
  { constructor; [|constructor]. apply holds_Marshal.
    - vm_compute. split; discriminate.
    - apply checksum_range.
    - apply IsValid_NewWalData.
    - vm_compute. discriminate. }
  assert (H2 : fs !! getLogFileName 1
               = Some (File (frames [json.Marshal v] ++ suffix)))
    by apply lookup_singleton_eq.
  assert (H3 : fs !! tmpName (getLogFileName 1) = None).
  { apply lookup_singleton_ne. intros E. symmetry in E. now apply tmpName_self in E. }
  assert (H4 : repair_image suffix = Got ([], Some zeroWalData))
    by (vm_compute; reflexivity).
  split; [exact H1|]. split; [exact H2|]. split; [exact H3|]. split; [exact H4|].
  destruct (repairSegment_appended_suffix 1 w fs _ _ _ _ _ H1 H2 H3 H4)
    as (w' & vs' & Hr & Hread & _).
  exists w', vs'. split; [exact Hr|exact Hread].
Defined.

(** C1 as stated fails: when the appended bytes are themselves a frame that
    passes the checks, the repaired segment decodes to more than the segment
    held before the bytes were appended. *)
Lemma repair_keeps_appended_valid_frame :
  let v1 := NewWalData 1 (Some (bytes_of "a")) in
  let v2 := NewWalData 2 (Some (bytes_of "b")) in
  let before := encode v1 in
  let suffix := encode v2 in
  let fs : FS := {[ getLogFileName 1 := File (before ++ suffix) ]} in
  let w := mkWal (getLogFileName 1) [] 1024 1 1 in
  read_image before = Got [v1]
  /\ exists s', Repair (w, fs) = Ok tt s'
                /\ readSegment 1 s' = Ok [v1; v2] s'
                /\ readSegment 1 s' <> Ok [v1] s'.
Proof.
  intros v1 v2 before suffix fs w. split; [vm_compute; reflexivity|].
  eexists. split; [vm_compute; reflexivity|].
  split; [vm_compute; reflexivity|]. vm_compute. discriminate.
Qed.

(* --------------------------------------------------------------------- *)
(** ** The sequence number after a repair *)

Lemma fold_into_lastData_snoc bs v lastData :
  Int32.in_range (Seq v) -> Int32.in_range (CRC v) ->
  fold_left into_lastData (bs ++ [json.Marshal v]) lastData = Some v.
Proof.
  intros Hs Hc. rewrite fold_left_app. cbn [fold_left].
  now apply into_lastData_Marshal.
Qed.

(** After [repairSegment] has repaired the current segment, whose image
    parses as the frames [bs] and an ending that does not abort the walk:
    [lastSequenceNo] is the [Seq] of the record the surviving frames were
    decoded into; it is the sequence number of the last surviving record when
    that record was serialized by [json.Marshal], as every frame the log
    writes is; and it is 0 when no record survives, so that the next
    successful write takes sequence number 1. *)
Lemma repair_sets_lastSequenceNo w fs content bs vs tl e :
  content_of fs (getLogFileName (lastSegmentNo w)) content ->
  fs !! tmpName (getLogFileName (lastSegmentNo w)) = None ->
  parsed content bs vs tl e ->
  repair_ending e tt = Got tt ->
  exists w' fs' d,
    repairSegment (lastSegmentNo w) (w, fs) = Ok tt (w', fs')
    /\ fs' !! getLogFileName (lastSegmentNo w) = Some (File (frames bs))
    /\ fold_left into_lastData bs (Some zeroWalData) = Some d
    /\ lastSequenceNo w' = Seq d
    /\ (forall bs0 v, bs = bs0 ++ [json.Marshal v] ->
          Int32.in_range (Seq v) -> Int32.in_range (CRC v) ->
          lastSequenceNo w' = Seq v)
    /\ (bs = [] ->
        lastSequenceNo w' = 0
        /\ forall data s', writeData data (w', fs') = Ok tt s' ->
             lastSequenceNo s'.1 = 1
             /\ exists pre, cur_bytes s' = pre ++ encode (NewWalData 1 data)).
Proof.
  intros Hc Ht Hp He.
  destruct (fold_into_lastData bs vs zeroWalData) as [d Hd]; [apply Hp|].
  assert (Hw : lastSequenceNo (repaired_wal (lastSegmentNo w) w (Some d)) = Seq d
               /\ writer (repaired_wal (lastSegmentNo w) w (Some d)) = []).
  { unfold repaired_wal. rewrite Z.eqb_refl. split; reflexivity. }
  exists (repaired_wal (lastSegmentNo w) w (Some d)),
    (<[getLogFileName (lastSegmentNo w) := File (frames bs)]> fs), d.
  split; [|split; [apply lookup_insert_eq|split; [exact Hd|split; [apply Hw|split]]]].
  - rewrite (repairSegment_parsed _ _ _ _ _ _ _ _ Hc Ht Hp), Hd.
    destruct e; cbn [repair_ending] in *; try discriminate; reflexivity.
  - intros bs0 v -> Hs Hcr. rewrite fold_into_lastData_snoc in Hd by assumption.
    injection Hd as <-. apply Hw.
  - intros ->. cbn [fold_left] in Hd. injection Hd as <-.
    split; [apply Hw|]. intros data s' E. rewrite writeData_append in E.
    apply append_record_ok in E.
    + cbn [fst snd] in E. rewrite (proj1 Hw) in E. exact E.
    + cbn [fst snd]. rewrite (proj2 Hw). unfold len, bufio.defaultBufSize. cbn. lia.
Qed.

Lemma repair_sets_lastSequenceNo_example :
  let v := NewWalData 7 (Some (bytes_of "kept")) in
  let content := encode v ++ bytes_of "torn" in
  let fs : FS := {[ getLogFileName 1 := File [] ;
                    getLogFileName 2 := File content ]} in
  let w := mkWal (getLogFileName 2) [] 1024 2 9 in
  exists w' fs', repairSegment 2 (w, fs) = Ok tt (w', fs')
                 /\ fs' !! getLogFileName 2 = Some (File (encode v))
                 /\ lastSequenceNo w' = 7.
Proof.
  intros v content fs w.
  eexists _, _. split; [vm_compute; reflexivity|].
  split; vm_compute; reflexivity.
Qed.

(** The code at the failing input of C10: the current segment holds the frame
    of record 5 followed by a frame that has no [seq] member and passes the
    CRC check as record 0.  Both survive the repair, the last surviving record
    has sequence number 0, and [lastSequenceNo] is 5: line 287 decodes into
    the record that still holds the fields of the frame before. *)
Lemma repair_lastSequenceNo_not_of_last_record :
  let v5 := NewWalData 5 (Some (bytes_of "x")) in
  let content := encode v5 ++ frame_without_seq (bytes_of "y") in
  let fs : FS := {[ getLogFileName 1 := File content ]} in
  let w := mkWal (getLogFileName 1) [] 1024 1 0 in
  exists s' last,
    Repair (w, fs) = Ok tt s'
    /\ s'.2 !! getLogFileName 1 = Some (File content)
    /\ readSegment 1 s' = Ok [v5; last] s'
    /\ Seq last = 0
    /\ lastSequenceNo s'.1 = 5.
Proof.
  intros v5 content fs w. eexists _, _.
  split; [vm_compute; reflexivity|]. split; [vm_compute; reflexivity|].
  split; [vm_compute; reflexivity|]. split; reflexivity.
Qed.

(* --------------------------------------------------------------------- *)
(** ** Repairing twice *)

Lemma repaired_wal_lastSegmentNo j w ld :
  lastSegmentNo (repaired_wal j w ld) = lastSegmentNo w.
Proof. unfold repaired_wal. destruct (j =? lastSegmentNo w), ld; reflexivity. Qed.

Lemma repaired_wal_twice j w ld :
  repaired_wal j (repaired_wal j w ld) ld = repaired_wal j w ld.
Proof.
  unfold repaired_wal. destruct (j =? lastSegmentNo w) eqn:E.
  - destruct ld; cbn [lastSegmentNo set_lastSequenceNo]; rewrite E; reflexivity.
  - now rewrite E.
Qed.

Lemma repaired_wal_other j w ld : j <> lastSegmentNo w -> repaired_wal j w ld = w.
Proof.
  intros H. unfold repaired_wal. now rewrite (proj2 (Z.eqb_neq _ _) H).
Qed.

Lemma settled_fix j s : settled j s -> repairSegment j s = Ok tt s.
Proof.
  destruct s as [w fs]. intros (bs & vs & Hf & Hvs & Ht & Hw). cbn [fst snd] in *.
  rewrite (repairSegment_parsed _ _ _ _ _ _ _ _ (or_introl Hf) Ht
             (parsed_frames _ _ Hvs)).
  cbn [repair_ending]. rewrite insert_id by assumption.
  destruct (decide (j = lastSegmentNo w)) as [Hj|Hj].
  - now rewrite <- (Hw Hj).
  - now rewrite repaired_wal_other.
Qed.

Lemma repairSegment_settles j s s' :
  s.2 !! tmpName (getLogFileName j) = None ->
  repairSegment j s = Ok tt s' ->
  settled j s'
  /\ lastSegmentNo s'.1 = lastSegmentNo s.1
  /\ (forall name, name <> getLogFileName j -> s'.2 !! name = s.2 !! name)
  /\ (j <> lastSegmentNo s.1 -> s'.1 = s.1).
Proof.
  destruct s as [w fs]. cbn [fst snd]. intros Ht E.
  assert (Hc : exists content, content_of fs (getLogFileName j) content).
  { destruct (fs !! getLogFileName j) as [[c|]|] eqn:Hf.
    - exists c. now left.
    - unfold repairSegment, OpenFile_CREATE_RDONLY in E. rewrite Hf in E.
      discriminate.
    - exists []. now right. }
  destruct Hc as [content Hc].
  destruct (parse_exists content) as (bs & vs & tl & e & Hp).
  rewrite (repairSegment_parsed _ _ _ _ _ _ _ _ Hc Ht Hp) in E.
  destruct (repair_ending e tt) as [[]| | |] eqn:He; try discriminate.
  injection E as <-. cbn [fst snd]. split; [|split; [|split]].
  - exists bs, vs. cbn [fst snd]. split; [apply lookup_insert_eq|].
    split; [apply Hp|]. split.
    + rewrite lookup_insert_ne; [assumption|].
      intros E. symmetry in E. now apply tmpName_self in E.
    + intros _. now rewrite repaired_wal_twice.
  - apply repaired_wal_lastSegmentNo.
  - intros name Hne. now rewrite lookup_insert_ne.
  - apply repaired_wal_other.
Qed.

Lemma settled_preserved j s s' :
  settled j s ->
  s'.2 !! getLogFileName j = s.2 !! getLogFileName j ->
  s'.2 !! tmpName (getLogFileName j) = s.2 !! tmpName (getLogFileName j) ->
  lastSegmentNo s'.1 = lastSegmentNo s.1 ->
  (j = lastSegmentNo s.1 -> s'.1 = s.1) ->
  settled j s'.
Proof.
  intros (bs & vs & Hf & Hvs & Ht & Hw) Ef Et El Ew.
  exists bs, vs. rewrite Ef, Et. split; [assumption|]. split; [assumption|].
  split; [assumption|]. intros Hj. rewrite El in Hj. rewrite (Ew Hj). now apply Hw.
Qed.

Lemma Repair_loop_settles n : forall i s s',
  1 <= i -> n = Z.to_nat (lastSegmentNo s.1 + 1 - i) ->
  (forall j, i <= j <= lastSegmentNo s.1 ->
     s.2 !! tmpName (getLogFileName j) = None) ->
  (forall j, 1 <= j < i -> j <= lastSegmentNo s.1 -> settled j s) ->
  Repair_loop n i s = Ok tt s' ->
  lastSegmentNo s'.1 = lastSegmentNo s.1
  /\ forall j, 1 <= j <= lastSegmentNo s.1 -> settled j s'.
Proof.
  induction n as [|n IH]; intros i s s' Hi Hn Htmp Hset E.
  - injection E as <-. split; [reflexivity|]. intros j Hj. apply Hset; lia.
  - cbn [Repair_loop] in E. unfold bind in E.
    destruct (repairSegment i s) as [[] s1|e s1|p|] eqn:E1; try discriminate.
    assert (Hil : i <= lastSegmentNo s.1) by lia.
    destruct (repairSegment_settles _ _ _ (Htmp i ltac:(lia)) E1)
      as (Hs1 & Hl1 & Hfs1 & Hw1).
    destruct (IH (i + 1) s1 s') as [Hl' Hall]; try assumption.
    + lia.
    + rewrite Hl1. lia.
    + intros j Hj. rewrite Hl1 in Hj. rewrite Hfs1; [apply Htmp; lia|].
      apply tmpName_ne.
    + intros j Hj Hjl. rewrite Hl1 in Hjl.
      destruct (decide (j = i)) as [->|Hne]; [exact Hs1|].
      apply (settled_preserved j s s1); [apply Hset; lia| | |exact Hl1|].
      * apply Hfs1. intros Ej%getLogFileName_inj. lia.
      * apply Hfs1. apply tmpName_ne.
      * intros Ej. apply Hw1. lia.
    + split; [congruence|]. intros j Hj. apply Hall. rewrite Hl1. exact Hj.
Qed.

Lemma Repair_loop_fix n : forall i s,
  (forall j, i <= j < i + Z.of_nat n -> settled j s) ->
  Repair_loop n i s = Ok tt s.
Proof.
  induction n as [|n IH]; intros i s Hset; [reflexivity|].
  cbn [Repair_loop]. unfold bind.
  rewrite (settled_fix i s) by (apply Hset; lia).
  apply IH. intros j Hj. apply Hset. lia.
Qed.

Lemma Sync_flushed w fs : writer w = [] -> Sync (w, fs) = Ok tt (w, fs).
Proof. intros H. unfold Sync. rewrite H. cbn. destruct w. cbn in H. now subst. Qed.

Lemma Sync_shape s s' :
  Sync s = Ok tt s' ->
  s'.1 = set_writer [] s.1
  /\ forall name, s.2 !! name = None -> s'.2 !! name = None.
Proof.
  destruct s as [w fs]. unfold Sync, bufio.Flush, os.Write. cbn [fst snd].
  destruct (writer w) as [|x buf]; [intros [= <-]; auto|].
  destruct (fs !! logFile w) as [[c|]|] eqn:Hc; try discriminate.
  intros [= <-]. split; [reflexivity|]. intros name Hn. cbn [snd].
  rewrite lookup_insert_ne; [assumption|congruence].
Qed.

(** Repair is idempotent when no file is left under the temporary name of a
    segment: a repair that returns leaves a state that a second repair does
    not change, so every segment keeps the byte image the first repair gave
    it. *)
Lemma Repair_idempotent s s1 :
  no_leftover s -> Repair s = Ok tt s1 -> Repair s1 = Ok tt s1.
Proof.
  intros Hno E. unfold Repair, bind in E.
  destruct (Sync s) as [[] s0|e s0|p|] eqn:Es; try discriminate.
  destruct (Sync_shape _ _ Es) as [Hw0 Hfs0].
  destruct s0 as [w0 fs0]. cbn [fst snd] in *.
  assert (Hl0 : lastSegmentNo w0 = lastSegmentNo s.1) by now rewrite Hw0.
  destruct (Repair_loop_settles (Z.to_nat (lastSegmentNo w0)) 1 (w0, fs0) s1)
    as [Hl1 Hall]; try assumption; cbn [fst snd].
  - lia.
  - f_equal. lia.
  - intros j Hj. apply Hfs0, Hno. lia.
  - intros j Hj. lia.
  - cbn [fst snd] in Hall, Hl1.
    assert (Hwr : writer s1.1 = []).
    { destruct (Z.le_gt_cases 1 (lastSegmentNo w0)) as [Hge|Hlt].
      - destruct (Hall (lastSegmentNo w0)) as (bs & vs & _ & _ & _ & Hw); [lia|].
        rewrite (Hw (eq_sym Hl1)). unfold repaired_wal.
        rewrite Hl1, Z.eqb_refl.
        now destruct (fold_left into_lastData bs (Some zeroWalData)).
      - replace (Z.to_nat (lastSegmentNo w0)) with 0%nat in E by lia.
        injection E as <-. cbn [fst]. now rewrite Hw0. }
    destruct s1 as [w1 fs1]. cbn [fst snd] in *.
    unfold Repair, bind. rewrite (Sync_flushed _ _ Hwr).
    apply Repair_loop_fix. intros j Hj. apply Hall. cbn [fst]. lia.
Qed.

(** The code at the failing input of C6: the directory holds the segment
    [wal@1.db] with one valid record and a file [wal@1.db.tmp] left by an
    interrupted repair.  The first repair appends the frames it keeps to the
    leftover bytes and renames the result over the segment; the second finds
    the segment starting with those bytes and empties it.  The two byte
    images differ. *)
Lemma repair_twice_differs_with_leftover_tmp :
  let v := NewWalData 1 (Some (bytes_of "a")) in
  let fs : FS := {[ getLogFileName 1 := File (encode v) ;
                    tmpName (getLogFileName 1) := File (bytes_of "left") ]} in
  exists w0 fs0 s1 s2,
    NewWal 1 fs = Ok w0 fs0
    /\ Repair (w0, fs0) = Ok tt s1
    /\ Repair s1 = Ok tt s2
    /\ s1.2 !! getLogFileName 1 = Some (File (bytes_of "left" ++ encode v))
    /\ s2.2 !! getLogFileName 1 = Some (File [])
    /\ s1.2 !! getLogFileName 1 <> s2.2 !! getLogFileName 1.
Proof.
  intros v fs. eexists _, _, _, _.
  split; [vm_compute; reflexivity|]. split; [vm_compute; reflexivity|].
  split; [vm_compute; reflexivity|]. split; [vm_compute; reflexivity|].
  split; [vm_compute; reflexivity|]. vm_compute. discriminate.
Qed.

(* --------------------------------------------------------------------- *)
(** ** What reads leave behind *)

Lemma only_creates_refl fs : only_creates fs fs.
Proof. intros name. now left. Qed.

Lemma only_creates_trans fs1 fs2 fs3 :
  only_creates fs1 fs2 -> only_creates fs2 fs3 -> only_creates fs1 fs3.
Proof.
  intros H12 H23 name.
  destruct (H12 name) as [E12|(N1 & E2 & Hj)], (H23 name) as [E23|(N2 & E3 & Hj')].
  - left. congruence.
  - right. split; [congruence|]. split; assumption.
  - right. split; [assumption|]. split; [congruence|assumption].
  - congruence.
Qed.

Lemma read_effect_bind {A B} (m : M A) (k : A -> M B) s :
  read_effect (m s) s ->
  (forall a s', read_effect (k a s') s') ->
  read_effect (bind m k s) s.
Proof.
  intros Hm Hk. unfold bind. destruct (m s) as [a s1|e s1|p|]; try exact Hm.
  specialize (Hk a s1). destruct Hm as [Hw Hfs].
  destruct (k a s1) as [b s2|e s2|p|]; try exact I;
    destruct Hk as [Hw' Hfs']; (split; [congruence|]);
    eapply only_creates_trans; eassumption.
Qed.

Lemma readSegment_effect n s : read_effect (readSegment n s) s.
Proof.
  destruct s as [w fs]. unfold readSegment, OpenFile_CREATE_RDONLY.
  destruct (fs !! getLogFileName n) as [[c|]|] eqn:Hf.
  - destruct (readSegment_loop _ c []); cbn; auto using only_creates_refl.
  - cbn. auto using only_creates_refl.
  - assert (Hc : only_creates fs (<[getLogFileName n := File []]> fs)).
    { intros name. destruct (decide (getLogFileName n = name)) as [<-|Hne].
      - right. rewrite lookup_insert_eq. eauto.
      - left. now rewrite lookup_insert_ne. }
    destruct (readSegment_loop _ [] []); cbn; auto.
Qed.

Lemma readSegment_unchanged n s c :
  s.2 !! getLogFileName n = Some (File c) -> unchanged (readSegment n s) s.
Proof.
  destruct s as [w fs]. cbn [snd]. intros Hf.
  rewrite (readSegment_on_file _ _ _ _ Hf).
  destruct (read_image c); cbn; auto.
Qed.

Lemma readData_effect n s : read_effect (readData n s) s.
Proof.
  unfold readData. apply read_effect_bind; [apply readSegment_effect|].
  intros a s'. cbn. auto using only_creates_refl.
Qed.

Lemma readData_unchanged n s c :
  s.2 !! getLogFileName n = Some (File c) -> unchanged (readData n s) s.
Proof.
  intros Hf. unfold readData, bind.
  pose proof (readSegment_unchanged n s c Hf) as H.
  destruct (readSegment n s); cbn in *; auto.
Qed.

Lemma ReadFromSegment_loop_effect n : forall i data s,
  read_effect (ReadFromSegment_loop n i data s) s.
Proof.
  induction n as [|n IH]; intros i data s.
  - cbn. auto using only_creates_refl.
  - cbn [ReadFromSegment_loop]. apply read_effect_bind; [apply readData_effect|].
    intros a s'. apply IH.
Qed.

Lemma ReadFromSegment_loop_unchanged n : forall i data s,
  (forall j, i <= j < i + Z.of_nat n ->
     exists c, s.2 !! getLogFileName j = Some (File c)) ->
  unchanged (ReadFromSegment_loop n i data s) s.
Proof.
  induction n as [|n IH]; intros i data s Hp; [reflexivity|].
  cbn [ReadFromSegment_loop]. unfold bind.
  destruct (Hp i ltac:(lia)) as [c Hc].
  pose proof (readData_unchanged i s c Hc) as H.
  destruct (readData i s) as [a s1|e s1|p|]; cbn in H; subst; try exact I;
    [|reflexivity].
  apply IH. intros j Hj. apply Hp. lia.
Qed.

Lemma ReadFromSegment_effect n s : read_effect (ReadFromSegment n s) s.
Proof.
  destruct s as [w fs]. unfold ReadFromSegment.
  destruct (n <? 1); [cbn; auto using only_creates_refl|].
  apply ReadFromSegment_loop_effect.
Qed.

Lemma ReadFromSegment_unchanged n s :
  segments_present s -> unchanged (ReadFromSegment n s) s.
Proof.
  destruct s as [w fs]. intros Hp. unfold ReadFromSegment.
  destruct (Z.ltb_spec n 1); [reflexivity|].
  apply ReadFromSegment_loop_unchanged. intros j Hj. apply Hp. cbn [fst]. lia.
Qed.

Lemma ReadFromLastCheckpoint_loop_effect n : forall i s,
  read_effect (ReadFromLastCheckpoint_loop n i s) s.
Proof.
  induction n as [|n IH]; intros i s.
  - apply ReadFromSegment_effect.
  - cbn [ReadFromLastCheckpoint_loop].
    apply read_effect_bind; [apply readSegment_effect|].
    intros recs s'. destruct (after_last_checkpoint recs); [|apply IH].
    apply read_effect_bind; [apply ReadFromSegment_effect|].
    intros a s''. cbn. auto using only_creates_refl.
Qed.

Lemma ReadFromLastCheckpoint_loop_unchanged n : forall i s,
  segments_present s -> i = Z.of_nat n -> i <= lastSegmentNo s.1 ->
  unchanged (ReadFromLastCheckpoint_loop n i s) s.
Proof.
  induction n as [|n IH]; intros i s Hp Hi Hl.
  - now apply ReadFromSegment_unchanged.
  - cbn [ReadFromLastCheckpoint_loop]. unfold bind.
    destruct (Hp i ltac:(lia)) as [c Hc].
    pose proof (readSegment_unchanged i s c Hc) as H.
    destruct (readSegment i s) as [recs s1|e s1|p|]; cbn in H;
      try exact I; [|exact H]. rewrite H.
    destruct (after_last_checkpoint recs); [|apply IH; [assumption|lia|lia]].
    pose proof (ReadFromSegment_unchanged (i + 1) s Hp) as H'.
    destruct (ReadFromSegment (i + 1) s); cbn in *; auto.
Qed.

(** C8, as amended.  For every state of the log and every segment number
    [n]: [Read], [ReadFromSegment(n)] and [ReadFromLastCheckpoint], when they
    return, leave the [Wal] as it was and change no entry of the data
    directory; the one change they can make is to create, empty, a segment
    file they open and do not find ([O_CREATE]).  When the files of the
    segments are all there, the state after the call is the state before. *)
Theorem reads_effect s n :
  (read_effect (Read s) s
   /\ read_effect (ReadFromSegment n s) s
   /\ read_effect (ReadFromLastCheckpoint s) s)
  /\ (segments_present s ->
      unchanged (Read s) s
      /\ unchanged (ReadFromSegment n s) s
      /\ unchanged (ReadFromLastCheckpoint s) s).
Proof.
  destruct s as [w fs]. split; [split; [|split]|].
  - apply readData_effect.
  - apply ReadFromSegment_effect.
  - apply ReadFromLastCheckpoint_loop_effect.
  - intros Hp. split; [|split].
    + destruct (Hp (lastSegmentNo w)) as [c Hc]; [now right|].
      exact (readData_unchanged _ (w, fs) c Hc).
    + now apply ReadFromSegment_unchanged.
    + unfold ReadFromLastCheckpoint.
      destruct (Z.le_gt_cases 0 (lastSegmentNo w)) as [Hge|Hlt].
      * apply ReadFromLastCheckpoint_loop_unchanged; [assumption|lia|cbn; lia].
      * replace (Z.to_nat (lastSegmentNo w)) with 0%nat by lia.
        now apply ReadFromSegment_unchanged.
Qed.

Lemma reads_effect_witness :
  let fs : FS := {[ getLogFileName 1 := File [] ]} in
  let w := mkWal (getLogFileName 1) [] 1024 1 0 in
  segments_present (w, fs)
  /\ unchanged (ReadFromSegment 1 (w, fs)) (w, fs)
  /\ ReadFromSegment 1 (w, fs) = Ok [] (w, fs).
Proof.
  intros fs w.
  assert (H2 : segments_present (w, fs)).
  { intros j Hj. cbn [fst snd lastSegmentNo w] in *. exists [].
    replace j with 1 by lia. apply lookup_singleton_eq. }
  split; [exact H2|].
  split; [exact (proj1 (proj2 (proj2 (reads_effect (w, fs) 1) H2)))|].
  vm_compute. reflexivity.
Defined.

(** C8 as stated fails: reading from a segment whose file does not exist
    creates the file. *)
Lemma read_creates_missing_segment :
  let fs : FS := {[ getLogFileName 1 := File [] ; getLogFileName 3 := File [] ]} in
  exists w0 fs0 data s',
    NewWal 1 fs = Ok w0 fs0
    /\ fs0 !! getLogFileName 2 = None
    /\ ReadFromSegment 2 (w0, fs0) = Ok data s'
    /\ s'.2 !! getLogFileName 2 = Some (File [])
    /\ s'.2 <> fs0.
Proof.
  intros fs. eexists _, _, _, _.
  split; [vm_compute; reflexivity|]. split; [vm_compute; reflexivity|].
  split; [vm_compute; reflexivity|]. split; [vm_compute; reflexivity|].
  intros E. apply (f_equal (fun m : FS => m !! getLogFileName 2)) in E.
  vm_compute in E. discriminate.
Qed.


(* --------------------------------------------------------------------- *)
(** ** Opening a directory *)

Lemma ReadDir_elem (fs : FS) name entry :
  (name, entry) ∈ ReadDir fs <-> fs !! name = Some entry.
Proof.
  unfold ReadDir. rewrite merge_sort_Permutation. apply elem_of_map_to_list.
Qed.

Lemma getLastLogFile_loop_panics entries : forall reqFile maxSegment hasFiles,
  (exists name c p, (name, File c) ∈ entries
                    /\ getSegmentNumberFromFile name = inl p) ->
  exists p, getLastLogFile_loop entries reqFile maxSegment hasFiles = inl p.
Proof.
  induction entries as [|[name0 entry0] entries IH];
    intros reqFile maxSegment hasFiles (name & c & p & Hin & Hp).
  - now apply elem_of_nil in Hin.
  - cbn [getLastLogFile_loop].
    apply elem_of_cons in Hin as [[= <- <-]|Hin].
    + rewrite Hp. eauto.
    + assert (Hex : exists name c p, (name, File c) ∈ entries
                      /\ getSegmentNumberFromFile name = inl p) by eauto 6.
      destruct entry0 as [c0|]; [|now apply IH].
      destruct (getSegmentNumberFromFile name0) as [p0|k0]; [eauto|].
      destruct (k0 >? maxSegment); now apply IH.
Qed.

Lemma getLastLogFile_loop_hasFiles entries : forall reqFile maxSegment req m has,
  getLastLogFile_loop entries reqFile maxSegment true = inr (req, m, has) ->
  has = true.
Proof.
  induction entries as [|[name0 [c0|]] entries IH];
    intros reqFile maxSegment req m has; cbn [getLastLogFile_loop].
  - congruence.
  - destruct (getSegmentNumberFromFile name0) as [|k0]; [discriminate|].
    destruct (k0 >? maxSegment); apply IH.
  - apply IH.
Qed.

(** When every regular file has a name of the accepted form, the loop ends
    with the largest segment number and a file that carries it. *)
Lemma getLastLogFile_loop_max entries : forall reqFile maxSegment hasFiles,
  (forall name c, (name, File c) ∈ entries ->
     exists k, getSegmentNumberFromFile name = inr k) ->
  exists req m has,
    getLastLogFile_loop entries reqFile maxSegment hasFiles = inr (req, m, has)
    /\ maxSegment <= m
    /\ (forall name c k, (name, File c) ∈ entries ->
          getSegmentNumberFromFile name = inr k -> k <= m /\ has = true)
    /\ ((req = reqFile /\ m = maxSegment)
        \/ (exists c, (req, File c) ∈ entries
                      /\ getSegmentNumberFromFile req = inr m)).
Proof.
  induction entries as [|[name0 entry0] entries IH];
    intros reqFile maxSegment hasFiles Hall.
  - exists reqFile, maxSegment, hasFiles. split; [reflexivity|].
    split; [lia|]. split; [|now left].
    intros name c k Hin. now apply elem_of_nil in Hin.
  - assert (Hall' : forall name c, (name, File c) ∈ entries ->
              exists k, getSegmentNumberFromFile name = inr k).
    { intros name c Hin. apply (Hall name c). now right. }
    cbn [getLastLogFile_loop]. destruct entry0 as [c0|].
    + destruct (Hall name0 c0) as [k0 Hk0]; [now left|]. rewrite Hk0.
      destruct (Z.gtb_spec k0 maxSegment) as [Hgt|Hle].
      * destruct (IH name0 k0 true Hall')
          as (req & m & has & E & Hm & Hbound & Hreq).
        exists req, m, has. split; [exact E|]. split; [lia|]. split.
        -- intros name c k Hin Hk.
           apply elem_of_cons in Hin as [[= -> ->]|Hin];
             [|exact (Hbound name c k Hin Hk)].
           rewrite Hk0 in Hk. injection Hk as <-. split; [lia|].
           exact (getLastLogFile_loop_hasFiles _ _ _ _ _ _ E).
        -- right. destruct Hreq as [[-> ->]|(c & Hin & Hk)].
           ++ exists c0. split; [now left|exact Hk0].
           ++ exists c. split; [now right|exact Hk].
      * destruct (IH reqFile maxSegment true Hall')
          as (req & m & has & E & Hm & Hbound & Hreq).
        exists req, m, has. split; [exact E|]. split; [lia|]. split.
        -- intros name c k Hin Hk.
           apply elem_of_cons in Hin as [[= -> ->]|Hin];
             [|exact (Hbound name c k Hin Hk)].
           rewrite Hk0 in Hk. injection Hk as <-. split; [lia|].
           exact (getLastLogFile_loop_hasFiles _ _ _ _ _ _ E).
        -- destruct Hreq as [[-> ->]|(c & Hin & Hk)]; [now left|].
           right. exists c. split; [now right|exact Hk].
    + destruct (IH reqFile maxSegment hasFiles Hall')
        as (req & m & has & E & Hm & Hbound & Hreq).
      exists req, m, has. split; [exact E|]. split; [lia|]. split.
      * intros name c k Hin Hk.
        apply elem_of_cons in Hin as [[=]|Hin]. exact (Hbound name c k Hin Hk).
      * destruct Hreq as [[-> ->]|(c & Hin & Hk)]; [now left|].
        right. exists c. split; [now right|exact Hk].
Qed.

(** C9, as amended.  Opening a data directory skips its subdirectories only.
    Every regular file must have a name of the form
    [<text>@<integer>.<text>]: a single file whose name is not of that form
    makes [NewWal] panic.  When all regular files have such names and one of
    them carries a positive number, the segment opened as current is a
    regular file that carries the largest number, whatever its prefix and
    extension. *)
Theorem open_rejects_other_file_names maxLogSizeInKB (fs : FS) :
  (forall name c p,
     fs !! name = Some (File c) -> getSegmentNumberFromFile name = inl p ->
     exists p', NewWal maxLogSizeInKB fs = Panic p')
  /\ ((forall name c, fs !! name = Some (File c) ->
         exists k, getSegmentNumberFromFile name = inr k) ->
      (exists name c k, fs !! name = Some (File c)
                        /\ getSegmentNumberFromFile name = inr k /\ 0 < k) ->
      exists req m c,
        getLastLogFile fs = Ok (req, m) fs
        /\ fs !! req = Some (File c)
        /\ getSegmentNumberFromFile req = inr m
        /\ forall name c' k, fs !! name = Some (File c') ->
             getSegmentNumberFromFile name = inr k -> k <= m).
Proof.
  split.
  - intros name c p Hf Hp.
    destruct (getLastLogFile_loop_panics (ReadDir fs) "" 0 false) as [p' E].
    { exists name, c, p. split; [now apply ReadDir_elem|exact Hp]. }
    exists p'. unfold NewWal, getLastLogFile. now rewrite E.
  - intros Hall (name1 & c1 & k1 & Hf1 & Hk1 & Hpos).
    destruct (getLastLogFile_loop_max (ReadDir fs) "" 0 false)
      as (req & m & has & E & Hm & Hbound & Hreq).
    { intros name c Hin. apply (Hall name c). now apply ReadDir_elem. }
    destruct (Hbound name1 c1 k1) as [Hle ->];
      [now apply ReadDir_elem|exact Hk1|].
    destruct Hreq as [[-> ->]|(c & Hin & Hk)]; [lia|].
    apply ReadDir_elem in Hin.
    exists req, m, c. unfold getLastLogFile. rewrite E.
    assert (Hne : req <> ""%string).
    { intros ->. vm_compute in Hk. discriminate. }
    rewrite decide_False by exact Hne.
    unfold OpenFile_CREATE_APPEND_WRONLY. rewrite Hin.
    split; [reflexivity|]. split; [reflexivity|]. split; [exact Hk|].
    intros name c' k Hf Hkk. apply (Hbound name c' k); [|exact Hkk].
    now apply ReadDir_elem.
Qed.

Lemma open_rejects_other_file_names_witness :
  let fs : FS := {[ getLogFileName 1 := File [] ;
                    "notes.txt"%string := File [] ]} in
  fs !! "notes.txt"%string = Some (File [])
  /\ getSegmentNumberFromFile "notes.txt"
     = inl (InvalidFileNameFormat "notes.txt")
  /\ exists p', NewWal 1 fs = Panic p'.
Proof.
  intros fs.
  assert (H1 : fs !! "notes.txt"%string = Some (File []))
    by (vm_compute; reflexivity).
  assert (H2 : getSegmentNumberFromFile "notes.txt"
               = inl (InvalidFileNameFormat "notes.txt")) by reflexivity.
  split; [exact H1|]. split; [exact H2|].
  exact (proj1 (open_rejects_other_file_names 1 fs) _ _ _ H1 H2).
Defined.

(** C9 as stated fails: with a file that is not a segment in the directory,
    opening does not complete. *)
Lemma open_panics_on_other_file :
  let fs : FS := {[ getLogFileName 1 := File [] ;
                    "notes.txt"%string := File [] ]} in
  NewWal 1 fs = Panic (InvalidFileNameFormat "notes.txt").
Proof. vm_compute. reflexivity. Qed.

(** A file that is no segment of the log but has a name of the accepted form
    is opened as the current segment. *)
Lemma open_selects_foreign_file :
  let fs : FS := {[ getLogFileName 1 := File [] ;
                    "backup@7.old"%string := File [] ]} in
  exists w fs', NewWal 1 fs = Ok w fs'
                /\ logFile w = "backup@7.old"%string
                /\ lastSegmentNo w = 7.
Proof. eexists _, _. split; [vm_compute; reflexivity|]. split; reflexivity. Qed.

(* ===================================================================== *)
(** * Further properties of the code *)
(* ===================================================================== *)

(* --------------------------------------------------------------------- *)
(** ** Names of segment files *)

Lemma digits_are_digits u :
  Forall (fun c => strconv.digit c <> None) (strconv.digits u).
Proof. induction u; cbn [strconv.digits]; constructor; auto; discriminate. Qed.

Lemma byte_eqb_refl (c : byte) : Byte.eqb c c = true.
Proof. now apply Byte.byte_dec_lb. Qed.

Lemma SplitN2_first sep a b :
  Forall (fun c => c <> sep) a -> SplitN2 sep (a ++ sep :: b) = Some (a, b).
Proof.
  induction 1 as [|c a Hc _ IH]; cbn [SplitN2 app].
  - now rewrite byte_eqb_refl.
  - destruct (Byte.eqb c sep) eqn:E; [apply Byte.byte_dec_bl in E; contradiction|].
    now rewrite IH.
Qed.

Lemma Atoi_FormatInt z :
  - 2 ^ 63 <= z <= 2 ^ 63 - 1 -> strconv.Atoi (strconv.FormatInt z) = Some z.
Proof.
  intros Hz. pose proof (DecimalZ.of_to z) as Hof.
  assert (Hscan : forall u, strconv.scan (strconv.digits u) = (u, [])).
  { intros u. rewrite <- (app_nil_r (strconv.digits u)). now apply scan_digits. }
  assert (Hr : (- 2 ^ 63 <=? z) && (z <=? 2 ^ 63 - 1) = true).
  { apply andb_true_intro. split; apply Z.leb_le; lia. }
  unfold strconv.FormatInt, strconv.Atoi.
  destruct (to_int_shape z) as (u & [E|E] & _ & Nu); rewrite E in *.
  - destruct (digits_head u Nu) as (c & t & Ec & Hm & _).
    pose proof (digits_are_digits u) as Hd. rewrite Ec in Hd.
    apply Forall_inv in Hd. rewrite Ec, Hm.
    destruct (Byte.eqb c "+"%byte) eqn:Hp.
    { apply Byte.byte_dec_bl in Hp. subst c. now destruct Hd. }
    rewrite <- Ec, Hscan. destruct u; [congruence|..]; now rewrite Hof, Hr.
  - rewrite byte_eqb_refl, Hscan.
    destruct u; [congruence|..]; now rewrite Hof, Hr.
Qed.

Lemma FormatInt_digits_or_minus z :
  Forall (fun c => c <> "."%byte /\ c <> "@"%byte) (strconv.FormatInt z).
Proof.
  assert (Hd : forall u, Forall (fun c => c <> "."%byte /\ c <> "@"%byte)
                           (strconv.digits u)).
  { intros u. eapply Forall_impl; [apply digits_are_digits|].
    intros c Hc. split; intros ->; now apply Hc. }
  unfold strconv.FormatInt. destruct (Z.to_int z); [apply Hd|].
  constructor; [split; discriminate|apply Hd].
Qed.

Lemma getSegmentNumberFromFile_ext n ext :
  Int32.in_range n ->
  getSegmentNumberFromFile
    (string_of_list_byte
       (bytes_of filePrefix ++ "@"%byte :: strconv.FormatInt n
          ++ "."%byte :: ext)) = inr n.
Proof.
  intros Hn.
  assert (H64 : - 2 ^ 63 <= n <= 2 ^ 63 - 1)
    by (unfold Int32.in_range, Int32.min_int, Int32.max_int in Hn; lia).
  assert (Hdot : Forall (fun c => c <> "."%byte) (strconv.FormatInt n)).
  { eapply Forall_impl; [apply FormatInt_digits_or_minus|]. now intros c []. }
  unfold getSegmentNumberFromFile, bytes_of.
  rewrite list_byte_of_string_of_list_byte.
  rewrite (SplitN2_first "@"%byte) by (repeat constructor; discriminate).
  rewrite (SplitN2_first "."%byte _ _ Hdot), (Atoi_FormatInt n H64).
  now rewrite wrap_id.
Qed.

Lemma getSegmentNumberFromFile_getLogFileName n :
  Int32.in_range n -> getSegmentNumberFromFile (getLogFileName n) = inr n.
Proof. apply getSegmentNumberFromFile_ext. Qed.

(** X1.  The name [getLogFileName] gives segment [n] is read back as [n] by
    [getSegmentNumberFromFile], for every [int32]; two segments have the same
    file name only when they have the same number; and the temporary file of
    a repair carries the number of its segment too, so the scan of the
    directory accepts it. *)
Theorem segment_file_name_roundtrip n :
  Int32.in_range n ->
  getSegmentNumberFromFile (getLogFileName n) = inr n
  /\ getSegmentNumberFromFile (tmpName (getLogFileName n)) = inr n
  /\ forall m, getLogFileName m = getLogFileName n -> m = n.
Proof.
  intros Hn. split; [now apply getSegmentNumberFromFile_ext|].
  split; [|intros m; apply getLogFileName_inj].
  unfold tmpName. rewrite bytes_of_getLogFileName.
  rewrite <- app_assoc. cbn [app]. rewrite <- app_assoc. cbn [app].
  now apply getSegmentNumberFromFile_ext.
Qed.

Lemma segment_file_name_roundtrip_witness :
  Int32.in_range 12
  /\ getSegmentNumberFromFile (getLogFileName 12) = inr 12
  /\ getLogFileName 12 = "wal@12.db"%string.
Proof.
  assert (H : Int32.in_range 12)
    by (unfold Int32.in_range, Int32.min_int, Int32.max_int; lia).
  split; [exact H|].
  split; [exact (proj1 (segment_file_name_roundtrip 12 H))|reflexivity].
Defined.

(* --------------------------------------------------------------------- *)
(** ** The length prefix and the checksum *)

(** X2.  [intToBytes] writes an [int32] as four bytes, least significant
    first: reading the four bytes back as a little-endian [int32] gives the
    number, and every four bytes are the image of the number they read as. *)
Theorem intToBytes_roundtrip n hdr :
  length (intToBytes n) = 4%nat
  /\ (Int32.in_range n -> int32_le (intToBytes n) = n)
  /\ (length hdr = 4%nat -> intToBytes (int32_le hdr) = hdr)
  /\ (forall m, Int32.in_range n -> Int32.in_range m ->
        intToBytes m = intToBytes n -> m = n).
Proof.
  split; [apply length_intToBytes|]. split; [|split].
  - intros Hn. now rewrite int32_le_intToBytes, wrap_id.
  - apply intToBytes_int32_le.
  - intros m Hn Hm E. apply (f_equal int32_le) in E.
    now rewrite !int32_le_intToBytes, !wrap_id in E.
Qed.

Lemma intToBytes_roundtrip_witness :
  Int32.in_range 854
  /\ intToBytes 854 = [x56; x03; x00; x00]
  /\ int32_le (intToBytes 854) = 854
  /\ intToBytes (int32_le [xfc; xff; xff; xff]) = [xfc; xff; xff; xff]
  /\ int32_le [xfc; xff; xff; xff] = -4.
Proof.
  assert (H : Int32.in_range 854)
    by (unfold Int32.in_range, Int32.min_int, Int32.max_int; lia).
  split; [exact H|]. split; [reflexivity|].
  split; [exact (proj1 (proj2 (intToBytes_roundtrip 854 [])) H)|].
  split; [|reflexivity].
  exact (proj1 (proj2 (proj2 (intToBytes_roundtrip 0 [xfc; xff; xff; xff])))
           eq_refl).
Defined.

Lemma byte_of_Z_mod z k : byte_of_Z (z + 256 * k) = byte_of_Z z.
Proof.
  unfold byte_of_Z. replace ((z + 256 * k) mod 256) with (z mod 256); [reflexivity|].
  rewrite (Z.mul_comm 256 k). now rewrite Z.mod_add by lia.
Qed.

(** X3.  The checksum of a record covers its payload and the low byte of its
    sequence number only ([byte(w.Seq)]): [IsValid] gives the same answer
    when the sequence number is moved by a multiple of 256 or the checkpoint
    flag is changed, and [NewWalData] stores the same CRC for sequence
    numbers that differ by a multiple of 256. *)
Theorem IsValid_low_byte_of_seq v k c data seq :
  IsValid {| Seq := Seq v + 256 * k; Data := Data v; CRC := CRC v;
             Checkpoint := c |} = IsValid v
  /\ CRC (NewWalData (seq + 256 * k) data) = CRC (NewWalData seq data)
  /\ IsValid {| Seq := seq + 256 * k; Data := data;
                CRC := CRC (NewWalData seq data); Checkpoint := c |} = true.
Proof.
  assert (Hc : forall s d, checksum (s + 256 * k) d = checksum s d).
  { intros s d. unfold checksum. now rewrite byte_of_Z_mod. }
  split; [|split].
  - unfold IsValid. cbn [Seq Data CRC]. now rewrite Hc.
  - cbn [NewWalData CRC]. apply Hc.
  - unfold IsValid. cbn [NewWalData Seq Data CRC]. rewrite Hc. apply Z.eqb_refl.
Qed.

(* --------------------------------------------------------------------- *)
(** ** Images that make a read or a repair panic *)

Lemma repairSegment_on_file segmentNo w (fs : FS) content :
  fs !! getLogFileName segmentNo = Some (File content) ->
  forall p, repair_image content = Crash p ->
            repairSegment segmentNo (w, fs) = Panic p.
Proof.
  intros Hf p E. unfold repairSegment, OpenFile_CREATE_RDONLY. rewrite Hf.
  unfold repair_image in E. now rewrite E.
Qed.

(** X4.  A segment in which the frames that pass the checks are followed by
    a negative length prefix makes [readSegment] and [repairSegment] panic
    in [make([]byte, size)]; one in which they are followed by a frame whose
    payload is the JSON literal [null] makes both panic on the nil record;
    and [readSegment] panics on no other image.  [Read] on the current
    segment passes the panic on. *)
Theorem corrupt_length_or_null_record_panics segmentNo w (fs : FS) content :
  fs !! getLogFileName segmentNo = Some (File content) ->
  ((exists bs vs tl, parsed content bs vs tl NegativeLength) ->
     readSegment segmentNo (w, fs) = Panic MakesliceLenOutOfRange
     /\ repairSegment segmentNo (w, fs) = Panic MakesliceLenOutOfRange)
  /\ ((exists bs vs tl, parsed content bs vs tl NullRecord) ->
        readSegment segmentNo (w, fs) = Panic NilPointerDereference
        /\ repairSegment segmentNo (w, fs) = Panic NilPointerDereference)
  /\ (forall p, readSegment segmentNo (w, fs) = Panic p ->
        exists bs vs tl, parsed content bs vs tl NegativeLength
                         \/ parsed content bs vs tl NullRecord)
  /\ (segmentNo = lastSegmentNo w ->
      forall p, readSegment segmentNo (w, fs) = Panic p ->
                Read (w, fs) = Panic p).
Proof.
  intros Hf. split; [|split; [|split]].
  - intros (bs & vs & tl & Hp). split.
    + rewrite (readSegment_on_file _ _ _ _ Hf), (read_image_parsed _ _ _ _ _ Hp).
      reflexivity.
    + apply (repairSegment_on_file _ _ _ _ Hf).
      now rewrite (repair_image_parsed _ _ _ _ _ Hp).
  - intros (bs & vs & tl & Hp). split.
    + rewrite (readSegment_on_file _ _ _ _ Hf), (read_image_parsed _ _ _ _ _ Hp).
      reflexivity.
    + apply (repairSegment_on_file _ _ _ _ Hf).
      now rewrite (repair_image_parsed _ _ _ _ _ Hp).
  - intros p. rewrite (readSegment_on_file _ _ _ _ Hf).
    destruct (parse_exists content) as (bs & vs & tl & e & Hp).
    rewrite (read_image_parsed _ _ _ _ _ Hp). exists bs, vs, tl.
    destruct e; cbn [read_ending]; try discriminate; auto.
  - intros -> p E. unfold Read, readData, bind. now rewrite E.
Qed.

Lemma corrupt_length_or_null_record_panics_witness :
  let content := intToBytes (-1) in
  let fs : FS := {[ getLogFileName 1 := File content ]} in
  let w := mkWal (getLogFileName 1) [] 1024 1 0 in
  fs !! getLogFileName 1 = Some (File content)
  /\ (exists bs vs tl, parsed content bs vs tl NegativeLength)
  /\ readSegment 1 (w, fs) = Panic MakesliceLenOutOfRange
  /\ repairSegment 1 (w, fs) = Panic MakesliceLenOutOfRange.
Proof.
  intros content fs w.
  assert (Hf : fs !! getLogFileName 1 = Some (File content))
    by apply lookup_singleton_eq.
  assert (Hp : exists bs vs tl, parsed content bs vs tl NegativeLength).
  { exists [], [], content. split; [reflexivity|]. split; [constructor|].
    split; vm_compute; [discriminate|reflexivity]. }
  split; [exact Hf|]. split; [exact Hp|].
  exact (proj1 (corrupt_length_or_null_record_panics 1 w fs content Hf) Hp).
Defined.

(* --------------------------------------------------------------------- *)
(** ** The last record of a segment *)

Lemma getLastLogData_loop_eq fuel content offset size currentOffset :
  getLastLogData_loop (S fuel) content offset size currentOffset =
    if len content - offset <=? 0 then
      if currentOffset =? 0 then Got None
      else if size <? 0 then Crash MakesliceLenOutOfRange
      else if len (drop (Z.to_nat currentOffset) content) <? size then Bad ErrRead
      else check_last (take (Z.to_nat size) (drop (Z.to_nat currentOffset) content))
    else if len content - offset <? 4 then Bad ErrRead
    else
      let curSize := int32_le (take 4 (drop (Z.to_nat offset) content)) in
      if offset + 4 + curSize <? 0 then Bad ErrRead
      else getLastLogData_loop fuel content (offset + 4 + curSize) curSize (offset + 4).
Proof. reflexivity. Qed.

Lemma getLastLogData_loop_frame fuel pre b rest size cur :
  fits b ->
  getLastLogData_loop (S fuel) (pre ++ frame b ++ rest) (len pre) size cur
  = getLastLogData_loop fuel (pre ++ frame b ++ rest)
      (len pre + 4 + len b) (len b) (len pre + 4).
Proof.
  intros Hb. rewrite getLastLogData_loop_eq.
  pose proof (len_nonneg pre) as H0. pose proof (len_nonneg b) as H1.
  pose proof (len_nonneg rest) as H2.
  rewrite !len_app, frame_length.
  destruct (Z.leb_spec (len pre + (4 + len b + len rest) - len pre) 0); [lia|].
  destruct (Z.ltb_spec (len pre + (4 + len b + len rest) - len pre) 4); [lia|].
  cbv zeta. rewrite drop_len, (frame_size _ _ Hb).
  destruct (Z.ltb_spec (len pre + 4 + len b) 0); [lia|]. reflexivity.
Qed.

Lemma len_frames_cons b bs : len (frames (b :: bs)) = 4 + len b + len (frames bs).
Proof. now rewrite frames_cons, len_app, frame_length. Qed.

Lemma length_frames_ge bs : (length bs <= length (frames bs))%nat.
Proof.
  induction bs as [|b bs IH]; [cbn; lia|].
  rewrite frames_cons, length_frame_app. cbn [length]. lia.
Qed.

(** The walk passes over frames by their length prefixes alone. *)
Lemma getLastLogData_loop_frames bs : forall pre rest size cur fuel,
  Forall fits bs ->
  exists size' cur',
    getLastLogData_loop (length bs + fuel) (pre ++ frames bs ++ rest)
      (len pre) size cur
    = getLastLogData_loop fuel (pre ++ frames bs ++ rest)
        (len pre + len (frames bs)) size' cur'
    /\ (bs = [] -> size' = size /\ cur' = cur)
    /\ (forall bs0 b, bs = bs0 ++ [b] ->
          size' = len b /\ cur' = len pre + len (frames bs0) + 4).
Proof.
  induction bs as [|b0 bs IH]; intros pre rest size cur fuel Hf.
  - exists size, cur. split; [|split].
    + cbn [length frames map concat Nat.add]. unfold len at 3. cbn [length].
      now rewrite Z.add_0_r.
    + auto.
    + intros [|] ? E; discriminate.
  - apply Forall_cons in Hf as [Hb Hf]. cbn [length Nat.add].
    rewrite frames_cons, <- (app_assoc (frame b0)).
    rewrite (getLastLogData_loop_frame _ _ _ _ _ _ Hb).
    destruct (IH (pre ++ frame b0) rest (len b0) (len pre + 4) fuel Hf)
      as (size' & cur' & E & Hnil & Hsnoc).
    rewrite <- !app_assoc in E. rewrite len_app, frame_length in E.
    exists size', cur'. split; [|split].
    + replace (len pre + 4 + len b0) with (len pre + (4 + len b0)) by lia.
      rewrite E. f_equal. rewrite len_app, frame_length. lia.
    + discriminate.
    + intros [|b1 bs0] b E'; cbn [app] in E'; injection E' as -> E'.
      * subst bs. destruct (Hnil eq_refl) as [-> ->].
        change (len (frames [])) with 0. split; lia.
      * destruct (Hsnoc _ _ E') as [-> ->]. split; [reflexivity|].
        rewrite len_app, frame_length, len_frames_cons. lia.
Qed.

Lemma getLastLogData_loop_last fuel pre b :
  fits b ->
  getLastLogData_loop (S fuel) (pre ++ frame b) (len pre + len (frame b))
    (len b) (len pre + 4)
  = check_last b.
Proof.
  intros Hb. rewrite getLastLogData_loop_eq.
  pose proof (len_nonneg pre) as H0. pose proof (len_nonneg b) as H1.
  rewrite !len_app.
  destruct (Z.leb_spec (len pre + len (frame b) - (len pre + len (frame b))) 0); [|lia].
  destruct (Z.eqb_spec (len pre + 4) 0); [lia|].
  destruct (Z.ltb_spec (len b) 0); [lia|].
  assert (Hd : drop (Z.to_nat (len pre + 4)) (pre ++ frame b) = b).
  { replace (Z.to_nat (len pre + 4)) with (length pre + 4)%nat by (unfold len; lia).
    rewrite drop_app_add'  by reflexivity. reflexivity. }
  rewrite Hd. destruct (Z.ltb_spec (len b) (len b)); [lia|].
  rewrite <- (app_nil_r b) at 2. now rewrite take_len.
Qed.

(** What is left is a frame cut short: fewer than four bytes, or a length
    prefix that promises more than is there. *)
Lemma getLastLogData_loop_short fuel pre tl size cur :
  short_length tl \/ short_payload tl ->
  getLastLogData_loop (S (S fuel)) (pre ++ tl) (len pre) size cur = Bad ErrRead.
Proof.
  intros Ht. rewrite getLastLogData_loop_eq.
  pose proof (len_nonneg pre) as H0. rewrite len_app.
  destruct Ht as [Hs|(H4 & Hn & Hp)].
  - unfold short_length in Hs.
    destruct (Z.leb_spec (len pre + len tl - len pre) 0); [lia|].
    destruct (Z.ltb_spec (len pre + len tl - len pre) 4); [reflexivity|lia].
  - destruct (Z.leb_spec (len pre + len tl - len pre) 0); [lia|].
    destruct (Z.ltb_spec (len pre + len tl - len pre) 4); [lia|].
    cbv zeta. rewrite drop_len.
    destruct (Z.ltb_spec (len pre + 4 + int32_le (take 4 tl)) 0); [lia|].
    rewrite getLastLogData_loop_eq, len_app.
    destruct (Z.leb_spec (len pre + len tl
                          - (len pre + 4 + int32_le (take 4 tl))) 0); [|lia].
    destruct (Z.eqb_spec (len pre + 4) 0); [lia|].
    destruct (Z.ltb_spec (int32_le (take 4 tl)) 0); [lia|].
    assert (Hl : len (drop (Z.to_nat (len pre + 4)) (pre ++ tl)) = len tl - 4).
    { unfold len in *. rewrite length_drop, length_app. lia. }
    rewrite Hl. destruct (Z.ltb_spec (len tl - 4) (int32_le (take 4 tl))); [reflexivity|lia].
Qed.

(** A length prefix of -4 sends the walk back to where it read it. *)
Lemma getLastLogData_loop_back pre rest : forall fuel size cur,
  getLastLogData_loop fuel (pre ++ intToBytes (-4) ++ rest) (len pre) size cur
  = Hang.
Proof.
  induction fuel as [|fuel IH]; intros size cur; [reflexivity|].
  rewrite getLastLogData_loop_eq.
  pose proof (len_nonneg pre) as H0. pose proof (len_nonneg rest) as H2.
  rewrite !len_app.
  assert (H4 : len (intToBytes (-4)) = 4) by reflexivity. rewrite H4.
  destruct (Z.leb_spec (len pre + (4 + len rest) - len pre) 0); [lia|].
  destruct (Z.ltb_spec (len pre + (4 + len rest) - len pre) 4); [lia|].
  cbv zeta. rewrite drop_len.
  assert (E : int32_le (take 4 (intToBytes (-4) ++ rest)) = -4) by reflexivity.
  rewrite E. destruct (Z.ltb_spec (len pre + 4 + -4) 0); [lia|].
  replace (len pre + 4 + -4) with (len pre) by lia. apply IH.
Qed.

Lemma getLastLogData_loop_frames_back bs : forall pre rest fuel size cur,
  Forall fits bs ->
  getLastLogData_loop fuel (pre ++ frames bs ++ intToBytes (-4) ++ rest)
    (len pre) size cur
  = Hang.
Proof.
  induction bs as [|b bs IH]; intros pre rest fuel size cur Hf.
  - apply getLastLogData_loop_back.
  - apply Forall_cons in Hf as [Hb Hf]. destruct fuel as [|fuel]; [reflexivity|].
    rewrite frames_cons, <- (app_assoc (frame b)).
    rewrite (getLastLogData_loop_frame _ _ _ _ _ _ Hb).
    pose proof (IH (pre ++ frame b) rest fuel (len b) (len pre + 4) Hf) as E.
    rewrite <- !app_assoc, len_app, frame_length in E.
    replace (len pre + 4 + len b) with (len pre + (4 + len b)) by lia.
    exact E.
Qed.


Lemma frames_snoc bs b : frames (bs ++ [b]) = frames bs ++ frame b.
Proof. rewrite frames_app, frames_cons. cbn [frames map concat]. now rewrite app_nil_r. Qed.

Lemma getLastLogData_frames name (fs : FS) bs b :
  Forall fits bs -> fits b ->
  fs !! name = Some (File (frames bs ++ frame b)) ->
  getLastLogData name fs = check_last b.
Proof.
  intros Hbs Hb Hf. unfold getLastLogData. rewrite Hf.
  assert (Hall : Forall fits (bs ++ [b])) by (apply Forall_app; auto).
  pose proof (length_frames_ge (bs ++ [b])) as Hge. rewrite frames_snoc in Hge.
  set (content := frames bs ++ frame b) in *.
  destruct (getLastLogData_loop_frames (bs ++ [b]) [] [] 0 0
              (length content + 2 - length (bs ++ [b])) Hall)
    as (size' & cur' & E & _ & Hsnoc).
  destruct (Hsnoc bs b eq_refl) as [-> ->].
  rewrite frames_snoc, app_nil_r in E. cbn [app] in E. fold content in E.
  replace (length (bs ++ [b]) + (length content + 2 - length (bs ++ [b])))%nat
    with (length content + 2)%nat in E by lia.
  change (len []) with 0 in E. rewrite E.
  replace (length content + 2 - length (bs ++ [b]))%nat
    with (S (length content + 1 - length (bs ++ [b])))%nat by lia.
  unfold content. rewrite len_app, !Z.add_0_l.
  now apply getLastLogData_loop_last.
Qed.

(** X5.  [getLastLogData] decodes and validates the last frame of the
    segment only: it passes over the frames before it by their length
    prefixes, whatever they hold, and answers what the check of the last
    serialized record answers; so a segment whose last frame passes the
    checks yields that record even when an earlier frame is not a record at
    all.  An empty segment yields no record and no error, a missing file the
    error "unable to read log file". *)
Theorem getLastLogData_checks_last_frame_only name (fs : FS) bs b :
  (fs !! name = None -> getLastLogData name fs = Bad ErrUnableToRead)
  /\ (fs !! name = Some (File []) -> getLastLogData name fs = Got None)
  /\ (Forall fits bs -> fits b ->
      fs !! name = Some (File (frames bs ++ frame b)) ->
      getLastLogData name fs = check_last b
      /\ forall v, holds b v -> getLastLogData name fs = Got (Some v)).
Proof.
  split; [|split].
  - intros Hf. unfold getLastLogData. now rewrite Hf.
  - intros Hf. unfold getLastLogData. now rewrite Hf.
  - intros Hbs Hb Hf. rewrite (getLastLogData_frames _ _ _ _ Hbs Hb Hf).
    split; [reflexivity|]. intros v (_ & Hu & Hv). unfold check_last.
    now rewrite Hu, Hv.
Qed.

Lemma getLastLogData_checks_last_frame_only_witness :
  let v := NewWalData 2 (Some (bytes_of "kept")) in
  let content := frames [bytes_of "not a record"] ++ frame (json.Marshal v) in
  let fs : FS := {[ getLogFileName 1 := File content ]} in
  Forall fits [bytes_of "not a record"]
  /\ fits (json.Marshal v)
  /\ fs !! getLogFileName 1 = Some (File content)
  /\ getLastLogData (getLogFileName 1) fs = Got (Some v)
  /\ read_image content = Bad ErrLoad.
Proof.
  intros v content fs.
  assert (H1 : Forall fits [bytes_of "not a record"]).
  { constructor; [|constructor]. vm_compute. discriminate. }
  assert (H2 : fits (json.Marshal v)) by (vm_compute; discriminate).
  assert (H3 : fs !! getLogFileName 1 = Some (File content))
    by apply lookup_singleton_eq.
  split; [exact H1|]. split; [exact H2|]. split; [exact H3|]. split.
  - apply (proj2 (proj2 (getLastLogData_checks_last_frame_only
                           (getLogFileName 1) fs _ _)) H1 H2 H3).
    apply holds_Marshal; [vm_compute; split; discriminate|apply checksum_range
                         |apply IsValid_NewWalData|exact H2].
  - vm_compute. reflexivity.
Defined.

(** X6.  A segment in which some frames are followed by the length prefix
    -4 makes the walk of [getLastLogData] seek back to the prefix it has
    just read: the loop returns for no number of rounds, and [NewWal] on a
    directory whose current segment is such a file does not return. *)
Theorem getLastLogData_never_returns maxLogSizeInKB (fs fs' : FS) file n bs rest :
  Forall fits bs ->
  fs' !! file = Some (File (frames bs ++ intToBytes (-4) ++ rest)) ->
  (forall fuel size cur,
     getLastLogData_loop fuel (frames bs ++ intToBytes (-4) ++ rest) 0 size cur
     = Hang)
  /\ getLastLogData file fs' = Hang
  /\ (getLastLogFile fs = Ok (file, n) fs' -> NewWal maxLogSizeInKB fs = Loops).
Proof.
  intros Hbs Hf.
  assert (Hloop : forall fuel size cur,
            getLastLogData_loop fuel (frames bs ++ intToBytes (-4) ++ rest)
              0 size cur = Hang).
  { intros fuel size cur.
    exact (getLastLogData_loop_frames_back bs [] rest fuel size cur Hbs). }
  assert (Hg : getLastLogData file fs' = Hang).
  { unfold getLastLogData. rewrite Hf. apply Hloop. }
  split; [exact Hloop|]. split; [exact Hg|].
  intros E. unfold NewWal. now rewrite E, Hg.
Qed.

Lemma getLastLogData_never_returns_witness :
  let v := NewWalData 1 (Some (bytes_of "a")) in
  let content := frames [json.Marshal v] ++ intToBytes (-4) ++ [] in
  let fs : FS := {[ getLogFileName 1 := File content ]} in
  Forall fits [json.Marshal v]
  /\ fs !! getLogFileName 1 = Some (File content)
  /\ getLastLogFile fs = Ok (getLogFileName 1, 1) fs
  /\ NewWal 1 fs = Loops.
Proof.
  intros v content fs.
  assert (H1 : Forall fits [json.Marshal v]).
  { constructor; [|constructor]. vm_compute. discriminate. }
  assert (H2 : fs !! getLogFileName 1 = Some (File content))
    by apply lookup_singleton_eq.
  assert (H3 : getLastLogFile fs = Ok (getLogFileName 1, 1) fs)
    by (vm_compute; reflexivity).
  split; [exact H1|]. split; [exact H2|]. split; [exact H3|].
  exact (proj2 (proj2 (getLastLogData_never_returns 1 fs fs _ 1 _ [] H1 H2)) H3).
Defined.

(* --------------------------------------------------------------------- *)
(** ** What a write and a sync do to the directory *)

Lemma grows_refl fs : grows fs fs.
Proof. intros name c H. exists []. now rewrite app_nil_r. Qed.

Lemma grows_trans fs1 fs2 fs3 : grows fs1 fs2 -> grows fs2 fs3 -> grows fs1 fs3.
Proof.
  intros H12 H23 name c H. destruct (H12 _ _ H) as [m1 H1].
  destruct (H23 _ _ H1) as [m2 H2]. exists (m1 ++ m2). now rewrite app_assoc.
Qed.

Lemma grows_insert (fs : FS) f c more :
  fs !! f = Some (File c) -> grows fs (<[f := File (c ++ more)]> fs).
Proof.
  intros Hf name c0 H. destruct (decide (f = name)) as [<-|Hne].
  - rewrite lookup_insert_eq. rewrite Hf in H. injection H as <-. eauto.
  - rewrite lookup_insert_ne by assumption. exists []. now rewrite app_nil_r.
Qed.

Lemma grows_create (fs : FS) f x :
  fs !! f = None -> grows fs (<[f := File x]> fs).
Proof.
  intros Hf name c H. destruct (decide (f = name)) as [<-|Hne]; [congruence|].
  rewrite lookup_insert_ne by assumption. exists []. now rewrite app_nil_r.
Qed.

Lemma creates_refl f fs : creates_at_most f fs fs.
Proof. intros name H. now left. Qed.

Lemma creates_insert (fs : FS) f g x :
  fs !! g <> None \/ g = f -> creates_at_most f fs (<[g := x]> fs).
Proof.
  intros Hg name H. destruct (decide (g = name)) as [<-|Hne]; [exact Hg|].
  rewrite lookup_insert_ne in H by assumption. now left.
Qed.

Lemma creates_trans f fs1 fs2 fs3 :
  creates_at_most f fs1 fs2 -> creates_at_most f fs2 fs3 ->
  creates_at_most f fs1 fs3.
Proof.
  intros H12 H23 name H. destruct (H23 _ H) as [H2| ->]; [|now right].
  exact (H12 _ H2).
Qed.

Lemma bufio_Write_grows f buf p (fs : FS) c :
  fs !! f = Some (File c) -> len buf <= bufio.defaultBufSize ->
  exists more buf',
    bufio.Write f buf p fs = Some (buf', <[f := File (c ++ more)]> fs)
    /\ more ++ buf' = buf ++ p
    /\ len buf' <= bufio.defaultBufSize
    /\ (len buf + len p <= bufio.defaultBufSize -> more = [] /\ buf' = buf ++ p).
Proof.
  intros Hf Hb. unfold bufio.Write.
  destruct (Z.leb_spec (len p) (bufio.defaultBufSize - len buf)) as [Hfit|Hbig].
  { exists [], (buf ++ p). rewrite app_nil_r, insert_id by assumption.
    split; [reflexivity|]. split; [reflexivity|]. split; [rewrite len_app; lia|auto]. }
  assert (Hno : len buf + len p <= bufio.defaultBufSize -> False) by lia.
  destruct buf as [|x buf'].
  { rewrite (os_Write_file _ _ _ _ Hf). exists p, [].
    split; [reflexivity|]. split; [now rewrite app_nil_r|].
    split; [unfold len, bufio.defaultBufSize; cbn; lia|].
    intros H. now apply Hno in H. }
  set (buf := x :: buf') in *.
  set (n := Z.to_nat (bufio.defaultBufSize - len buf)).
  rewrite (os_Write_file _ _ _ _ Hf).
  destruct (Z.leb_spec (len (drop n p)) bufio.defaultBufSize) as [Hrest|Hrest].
  - exists (buf ++ take n p), (drop n p).
    split; [reflexivity|]. split; [|split; [assumption|]].
    + rewrite <- app_assoc. f_equal. apply firstn_skipn.
    + intros H. now apply Hno in H.
  - rewrite (os_Write_file _ _ _ (c ++ buf ++ take n p))
      by apply lookup_insert_eq.
    rewrite insert_insert_eq.
    exists ((buf ++ take n p) ++ drop n p), [].
    split; [now rewrite !app_assoc|]. split; [|split].
    + rewrite app_nil_r, <- app_assoc. f_equal. apply firstn_skipn.
    + unfold len, bufio.defaultBufSize. cbn. lia.
    + intros H. now apply Hno in H.
Qed.

Lemma Sync_file w (fs : FS) c :
  fs !! logFile w = Some (File c) ->
  Sync (w, fs)
  = Ok tt (set_writer [] w, <[logFile w := File (c ++ writer w)]> fs).
Proof. intros Hc. unfold Sync. now rewrite (Flush_file _ _ _ _ Hc). Qed.

(** X7.  [Sync] on a log whose current segment file is there returns no
    error (a write to a file that exists is taken to succeed): it appends
    what the writer holds to that file and to no other, leaves the writer
    empty, and leaves the bytes of the current segment, on disk and buffered
    together, as they were; a second [Sync] right after it changes
    nothing. *)
Theorem Sync_flushes_the_writer w (fs : FS) c :
  fs !! logFile w = Some (File c) ->
  let fs' := <[logFile w := File (c ++ writer w)]> fs in
  Sync (w, fs) = Ok tt (set_writer [] w, fs')
  /\ fs' !! logFile w = Some (File (cur_bytes (w, fs)))
  /\ (forall name, name <> logFile w -> fs' !! name = fs !! name)
  /\ cur_bytes (set_writer [] w, fs') = cur_bytes (w, fs)
  /\ Sync (set_writer [] w, fs') = Ok tt (set_writer [] w, fs').
Proof.
  intros Hc fs'. split; [now apply Sync_file|]. unfold cur_bytes. cbn [fst snd].
  rewrite Hc. split; [apply lookup_insert_eq|]. split; [|split].
  - intros name Hne. apply lookup_insert_ne. congruence.
  - cbn [logFile set_writer writer]. unfold fs'.
    now rewrite lookup_insert_eq, app_nil_r.
  - now apply Sync_flushed.
Qed.

Lemma Sync_flushes_the_writer_witness :
  let fs : FS := {[ getLogFileName 1 := File (bytes_of "ab") ]} in
  let w := mkWal (getLogFileName 1) (bytes_of "cd") 1024 1 0 in
  fs !! logFile w = Some (File (bytes_of "ab"))
  /\ Sync (w, fs)
     = Ok tt (set_writer [] w, {[ getLogFileName 1 := File (bytes_of "abcd") ]}).
Proof.
  intros fs w.
  assert (H : fs !! logFile w = Some (File (bytes_of "ab")))
    by apply lookup_singleton_eq.
  split; [exact H|].
  rewrite (proj1 (Sync_flushes_the_writer w fs _ H)).
  cbn [logFile writer w]. unfold fs. now rewrite insert_singleton_eq.
Defined.

Lemma rotateLog_grows w (fs : FS) c :
  (forall name, fs !! name <> Some Dir) ->
  fs !! logFile w = Some (File c) ->
  exists w' fs',
    rotateLog (w, fs) = Ok tt (w', fs')
    /\ grows fs fs'
    /\ creates_at_most (logFile w') fs fs'
    /\ (forall name, fs' !! name <> Some Dir)
    /\ (exists c', fs' !! logFile w' = Some (File c'))
    /\ writer w' = []
    /\ lastSequenceNo w' = lastSequenceNo w
    /\ maxLogSize w' = maxLogSize w
    /\ lastSegmentNo w' = Int32.wrap (lastSegmentNo w + 1)
    /\ logFile w' = getLogFileName (lastSegmentNo w').
Proof.
  intros Hd Hc. unfold rotateLog, bind. rewrite (Sync_file _ _ _ Hc).
  cbn [lastSegmentNo set_writer maxLogSize lastSequenceNo].
  set (fs1 := <[logFile w := File (c ++ writer w)]> fs).
  set (name := getLogFileName (Int32.wrap (lastSegmentNo w + 1))).
  assert (Hg1 : grows fs fs1) by now apply grows_insert.
  assert (Hc1 : creates_at_most name fs fs1).
  { apply creates_insert. left. congruence. }
  assert (Hd1 : forall n, fs1 !! n <> Some Dir).
  { intros n. unfold fs1. destruct (decide (logFile w = n)) as [<-|Hne].
    - rewrite lookup_insert_eq. discriminate.
    - rewrite lookup_insert_ne by assumption. apply Hd. }
  unfold OpenFile_CREATE_APPEND_WRONLY.
  destruct (fs1 !! name) as [[c1|]|] eqn:En.
  - eexists _, _. split; [reflexivity|]. cbn [logFile writer lastSequenceNo
      maxLogSize lastSegmentNo]. repeat split; eauto.
  - now apply Hd1 in En.
  - eexists _, _. split; [reflexivity|]. cbn [logFile writer lastSequenceNo
      maxLogSize lastSegmentNo]. fold name.
    split; [eapply grows_trans; [exact Hg1|now apply grows_create]|].
    split; [eapply creates_trans; [exact Hc1|apply creates_insert; now right]|].
    split.
    { intros n. destruct (decide (name = n)) as [<-|Hne].
      - rewrite lookup_insert_eq. discriminate.
      - rewrite lookup_insert_ne by assumption. apply Hd1. }
    split; [exists []; apply lookup_insert_eq|]. repeat split; reflexivity.
Qed.

Lemma writer_Write_grows w (fs : FS) c p :
  fs !! logFile w = Some (File c) -> len (writer w) <= bufio.defaultBufSize ->
  exists more buf',
    writer_Write p (w, fs)
    = Ok tt (set_writer buf' w, <[logFile w := File (c ++ more)]> fs)
    /\ more ++ buf' = writer w ++ p
    /\ len buf' <= bufio.defaultBufSize
    /\ (len (writer w) + len p <= bufio.defaultBufSize ->
        more = [] /\ buf' = writer w ++ p).
Proof.
  intros Hc Hb. unfold writer_Write.
  destruct (bufio_Write_grows _ _ p _ _ Hc Hb) as (more & buf' & -> & H).
  exists more, buf'. split; [reflexivity|exact H].
Qed.

(** What a live log is after a record has been appended. *)
Lemma append_record_grows data ckpt s :
  alive s -> len (writer s.1) <= bufio.defaultBufSize ->
  exists s',
    append_record data ckpt s = Ok tt s'
    /\ grows s.2 s'.2
    /\ creates_at_most (logFile s'.1) s.2 s'.2
    /\ alive s' /\ len (writer s'.1) <= bufio.defaultBufSize
    /\ (logFile s'.1 = logFile s.1
        \/ logFile s'.1 = getLogFileName (lastSegmentNo s'.1)).
Proof.
  destruct s as [w fs]. intros [Hd [c Hc]] Hb. cbn [fst snd] in *.
  unfold append_record, bind. cbn [lastSequenceNo set_lastSequenceNo].
  set (w1 := set_lastSequenceNo (Int32.wrap (lastSequenceNo w + 1)) w).
  set (p := intToBytes _ ++ _).
  unfold checkAndRotateLog, Stat_Size. cbn [logFile w1 set_lastSequenceNo].
  rewrite Hc.
  destruct (len c + _ >? maxLogSize w1).
  - destruct (rotateLog_grows w1 fs c Hd Hc)
      as (w2 & fs2 & -> & Hg & Hcr & Hd2 & [c2 Hc2] & Hw2 & _ & _ & _ & Hl2).
    destruct (writer_Write_grows w2 fs2 c2 p Hc2) as (more & buf' & -> & _ & Hb' & _).
    { rewrite Hw2. unfold len, bufio.defaultBufSize. cbn. lia. }
    eexists. split; [reflexivity|]. cbn [fst snd logFile set_writer writer].
    split; [eapply grows_trans; [exact Hg|now apply grows_insert]|].
    split; [eapply creates_trans; [exact Hcr|apply creates_insert; now right]|].
    split; [apply (alive_insert w2); [split; eauto|now left]|].
    split; [exact Hb'|]. right. exact Hl2.
  - destruct (writer_Write_grows w1 fs c p Hc Hb) as (more & buf' & -> & _ & Hb' & _).
    eexists. split; [reflexivity|]. cbn [fst snd logFile set_writer writer w1
      set_lastSequenceNo].
    split; [now apply grows_insert|].
    split; [apply creates_insert; now right|].
    split; [apply (alive_insert w); [split; eauto|now left]|].
    split; [exact Hb'|]. now left.
Qed.

(** X8.  [Write] on a log whose current segment file is there returns no
    error (a write to a file that exists is taken to succeed) and only
    appends: every file of the directory keeps its bytes as a prefix of what
    it holds afterwards, the only file that can appear is the new current
    segment, and the log stays fit for the next write.  When the segment is
    not rotated and the frame fits the free space of the writer, the
    directory is left untouched: the record is in memory only until the
    next [Sync]. *)
Theorem Write_only_appends data s :
  alive s -> len (writer s.1) <= bufio.defaultBufSize ->
  exists s',
    Write data s = Ok tt s'
    /\ grows s.2 s'.2
    /\ creates_at_most (logFile s'.1) s.2 s'.2
    /\ alive s' /\ len (writer s'.1) <= bufio.defaultBufSize
    /\ (forall size,
          let v := NewWalData (Int32.wrap (lastSequenceNo s.1 + 1)) data in
          Stat_Size (logFile s.1) s.2 = Some size ->
          size + len (encode v) <= maxLogSize s.1 ->
          len (writer s.1) + len (encode v) <= bufio.defaultBufSize ->
          s'.2 = s.2 /\ writer s'.1 = writer s.1 ++ encode v).
Proof.
  intros Ha Hb. unfold Write. rewrite writeData_append.
  destruct (append_record_grows data false s Ha Hb)
    as (s' & E & Hg & Hc & Ha' & Hb' & _).
  exists s'. split; [exact E|]. split; [exact Hg|]. split; [exact Hc|].
  split; [exact Ha'|]. split; [exact Hb'|].
  intros size Hstat Hsize Hbuf. destruct s as [w fs]. cbn [fst snd] in *.
  set (v := NewWalData (Int32.wrap (lastSequenceNo w + 1)) data) in *.
  destruct Ha as [_ [c Hf]]. cbn [fst snd] in Hf.
  unfold append_record, bind in E. rewrite record_false in E.
  cbn [lastSequenceNo set_lastSequenceNo] in E. fold v in E.
  unfold checkAndRotateLog in E. cbn [logFile set_lastSequenceNo maxLogSize] in E.
  rewrite Hstat in E.
  assert (Hl : len (json.Marshal v) + len (intToBytes (Int32.wrap (len (json.Marshal v))))
               = len (encode v)).
  { unfold encode, frame. rewrite len_app. lia. }
  rewrite Hl in E. destruct (Z.gtb_spec (size + len (encode v)) (maxLogSize w)); [lia|].
  set (w1 := set_lastSequenceNo (Int32.wrap (lastSequenceNo w + 1)) w) in E.
  destruct (writer_Write_grows w1 fs c (encode v) Hf Hb)
    as (more & buf' & E1 & _ & _ & Hfit).
  destruct (Hfit Hbuf) as [-> ->]. unfold encode, frame in E1. rewrite E1 in E.
  injection E as <-. cbn [fst snd writer set_writer w1 set_lastSequenceNo logFile].
  split; [|reflexivity]. rewrite app_nil_r. now apply insert_id.
Qed.

Lemma Write_only_appends_witness :
  let fs : FS := {[ getLogFileName 1 := File [] ]} in
  let w := mkWal (getLogFileName 1) [] 1024 1 0 in
  alive (w, fs) /\ len (writer w) <= bufio.defaultBufSize
  /\ exists s', Write (Some (bytes_of "a")) (w, fs) = Ok tt s'
                /\ grows fs s'.2 /\ s'.2 = fs.
Proof.
  intros fs w.
  assert (Ha : alive (w, fs)).
  { split.
    - intros name. cbn [snd]. destruct (decide (getLogFileName 1 = name)) as [<-|Hne].
      + unfold fs. rewrite lookup_singleton_eq. discriminate.
      + unfold fs. rewrite lookup_singleton_ne by assumption. discriminate.
    - exists []. apply lookup_singleton_eq. }
  assert (Hb : len (writer w) <= bufio.defaultBufSize) by (vm_compute; discriminate).
  split; [exact Ha|]. split; [exact Hb|].
  destruct (Write_only_appends (Some (bytes_of "a")) (w, fs) Ha Hb)
    as (s' & E & Hg & _ & _ & _ & Hmem).
  exists s'. split; [exact E|]. split; [exact Hg|].
  apply (Hmem 0); [reflexivity|vm_compute; discriminate|vm_compute; discriminate].
Defined.

(* --------------------------------------------------------------------- *)
(** ** Traces from an empty directory *)

Lemma Sync_names s s' :
  Sync s = Ok tt s' -> named_segments s.2 -> named_segments s'.2.
Proof.
  intros E Hn name H. apply Hn. intros Hnone.
  now apply (proj2 (Sync_shape _ _ E)) in Hnone.
Qed.

Lemma wellformed_layout maxLog closed cur s :
  wellformed maxLog closed cur s ->
  layout (map (map json.Marshal) closed) (map json.Marshal cur) s.
Proof. intros H. apply H. Qed.

Lemma len_map {A B} (f : A -> B) l : len (map f l) = len l.
Proof. unfold len. now rewrite length_map. Qed.

Lemma append_record_names maxLog closed cur s data ckpt closed' cur' s' :
  wellformed maxLog closed cur s ->
  append_record data ckpt s = Ok tt s' ->
  wellformed maxLog closed' cur' s' ->
  named_segments s.2 -> named_segments s'.2.
Proof.
  intros Hwf E Hwf' Hn.
  pose proof (wellformed_layout _ _ _ _ Hwf) as Hlay.
  pose proof (wellformed_layout _ _ _ _ Hwf') as Hlay'.
  destruct (append_record_grows data ckpt s (layout_alive _ _ _ Hlay)
              (lay_buffer _ _ _ Hlay)) as (s1 & E1 & _ & Hc & _).
  rewrite E in E1. injection E1 as <-.
  intros name H. destruct (Hc _ H) as [Hold| ->]; [now apply Hn|].
  rewrite (lay_logFile _ _ _ Hlay'). eexists. split; [|reflexivity].
  pose proof (len_nonneg (map (map json.Marshal) closed')). lia.
Qed.

(** A trace keeps the log well formed, and keeps in the directory the
    segment files alone; once a segment has been closed the current one
    holds a record. *)
Lemma run_trace maxLog ops : forall closed cur s,
  wellformed maxLog closed cur s ->
  len closed + len (records_of 1 ops) + 1 <= Int32.max_int ->
  len (concat closed ++ cur) + len (records_of 1 ops) <= Int32.max_int ->
  named_segments s.2 -> (cur = [] -> closed = []) ->
  exists closed' cur' s',
    run ops s = Ok tt s'
    /\ wellformed maxLog closed' cur' s'
    /\ concat closed' ++ cur'
       = (concat closed ++ cur)
           ++ records_of (len (concat closed ++ cur) + 1) ops
    /\ named_segments s'.2
    /\ (cur' = [] -> closed' = [])
    /\ len closed' <= len closed + len (records_of 1 ops).
Proof.
  induction ops as [|o ops IH]; intros closed cur s Hwf Hc Hn Hnames Hcur.
  - exists closed, cur, s. split; [reflexivity|]. split; [assumption|].
    split; [now rewrite app_nil_r|]. split; [assumption|]. split; [assumption|].
    unfold len. cbn. lia.
  - assert (Hstep : forall data ckpt,
      records_of 1 (o :: ops) = record 1 data ckpt :: records_of 2 ops ->
      records_of (len (concat closed ++ cur) + 1) (o :: ops)
      = record (len (concat closed ++ cur) + 1) data ckpt
          :: records_of (len (concat closed ++ cur) + 1 + 1) ops ->
      step o = append_record data ckpt ->
      exists closed' cur' s',
        run (o :: ops) s = Ok tt s'
        /\ wellformed maxLog closed' cur' s'
        /\ concat closed' ++ cur'
           = (concat closed ++ cur)
               ++ records_of (len (concat closed ++ cur) + 1) (o :: ops)
        /\ named_segments s'.2
        /\ (cur' = [] -> closed' = [])
        /\ len closed' <= len closed + len (records_of 1 (o :: ops))).
    { intros data ckpt E1 En Es. rewrite E1 in Hc, Hn. rewrite E1, En.
      assert (Hl : len (record 1 data ckpt :: records_of 2 ops)
                   = len (records_of 1 ops) + 1).
      { unfold len. cbn [length]. pose proof (len_records_of 1 2 ops) as Hl.
        unfold len in Hl. lia. }
      rewrite Hl in *. pose proof (len_nonneg (records_of 1 ops)) as H0.
      pose proof (len_nonneg closed) as H1.
      pose proof (len_nonneg (concat closed ++ cur)) as H2.
      destruct (append_record_wellformed _ _ _ _ data ckpt Hwf)
        as (size & closed1 & cur1 & s1 & _ & E & Hwf1 & Hcat1 & Hcase);
        [lia|lia|].
      assert (Hc1 : len closed1 <= len closed + 1).
      { destruct Hcase as [(_ & -> & _)|(_ & -> & _)];
          [rewrite len_snoc|]; lia. }
      assert (Hcur1 : cur1 = [] -> closed1 = []).
      { destruct Hcase as [(_ & _ & ->)|(_ & _ & ->)]; [discriminate|].
        intros Hnil. now apply app_eq_nil in Hnil as [_ Hnil]. }
      pose proof (append_record_names _ _ _ _ _ _ _ _ _ Hwf E Hwf1 Hnames) as Hn1.
      destruct (IH closed1 cur1 s1 Hwf1)
        as (closed' & cur' & s' & E' & Hwf' & Hcat' & Hn' & Hcur' & Hlen');
        [lia|rewrite Hcat1, len_snoc; lia|assumption|assumption|].
      exists closed', cur', s'. split.
      - cbn [run]. unfold bind. rewrite Es, E. exact E'.
      - split; [assumption|]. split; [|split; [assumption|split; [assumption|lia]]].
        rewrite Hcat', Hcat1, len_snoc, <- app_assoc. reflexivity. }
    destruct o as [data| |].
    + apply (Hstep data false); reflexivity.
    + apply (Hstep (Some []) true); reflexivity.
    + cbn [records_of] in *.
      destruct (Sync_wellformed _ _ _ _ Hwf) as (fs' & E & Hwf' & _).
      destruct (IH closed cur _ Hwf' Hc Hn)
        as (closed' & cur' & s' & E' & Hw' & Hcat' & Hn' & Hcur' & Hlen').
      { exact (Sync_names _ _ E Hnames). }
      { assumption. }
      exists closed', cur', s'. split; [|auto].
      cbn [run step]. unfold bind. rewrite E. exact E'.
Qed.

Lemma named_opened : named_segments ({[ getLogFileName 1 := File [] ]} : FS).
Proof.
  intros name H. destruct (decide (getLogFileName 1 = name)) as [<-|Hne].
  - exists 1. split; [lia|reflexivity].
  - now rewrite lookup_singleton_ne in H.
Qed.

Lemma payloads_records seq ops :
  existsb is_checkpoint ops = false ->
  map GetData (records_of seq ops) = payloads ops.
Proof.
  revert seq. induction ops as [|[data| |] ops IH]; intros seq H;
    cbn [records_of payloads map existsb is_checkpoint orb] in *.
  - reflexivity.
  - f_equal. now apply IH.
  - discriminate.
  - now apply IH.
Qed.

(** The state a trace followed by [Sync] leaves, from an empty directory. *)
Lemma run_synced maxLogSizeInKB ops :
  len (records_of 1 ops) + 2 <= Int32.max_int ->
  Forall (fun v => fits (json.Marshal v)) (records_of 1 ops) ->
  exists closed cur w fs,
    run (ops ++ [OpSync])
      ({| logFile := getLogFileName 1; writer := [];
          maxLogSize := Int32.wrap (maxLogSizeInKB * 1024);
          lastSegmentNo := 1; lastSequenceNo := 0 |},
       {[ getLogFileName 1 := File [] ]}) = Ok tt (w, fs)
    /\ wellformed (Int32.wrap (maxLogSizeInKB * 1024)) closed cur (w, fs)
    /\ concat closed ++ cur = records_of 1 ops
    /\ stored (closed ++ [cur]) (w, fs)
    /\ writer w = []
    /\ named_segments fs
    /\ (cur = [] -> closed = [])
    /\ len closed <= len (records_of 1 ops).
Proof.
  intros Hmax Hfits. pose proof (len_nonneg (records_of 1 ops)) as H0.
  pose proof (wellformed_opened maxLogSizeInKB _ _ (NewWal_empty maxLogSizeInKB)) as Hwf0.
  destruct (run_trace _ ops _ _ _ Hwf0)
    as (closed & cur & s & E & Hwf & Hcat & Hn & Hcur & Hlen).
  { change (len []) with 0. lia. }
  { change (len (concat [] ++ [])) with 0. lia. }
  { apply named_opened. }
  { auto. }
  change (len (concat [] ++ [])) with 0 in Hcat. cbn [concat app] in Hcat.
  rewrite Z.add_0_l in Hcat.
  destruct (Sync_wellformed _ _ _ _ Hwf) as (fs' & Es & Hwf' & Hfile).
  exists closed, cur, (set_writer [] s.1), fs'.
  split; [|split; [exact Hwf'|split; [exact Hcat|split;
    [|split; [reflexivity|split; [|split]]]]]].
  - rewrite run_app, E. cbn [run step]. unfold bind. now rewrite Es.
  - apply (stored_of_wellformed _ _ _ _ _ Hwf' Hfile); rewrite Hcat; [lia|assumption].
  - exact (Sync_names _ _ Es Hn).
  - exact Hcur.
  - change (len []) with 0 in Hlen. lia.
Qed.

(* --------------------------------------------------------------------- *)
(** ** Reading back what was written *)

(** X9.  From an empty directory, after any trace of writes and syncs that
    ends with a sync: [ReadFromSegment 1] returns exactly the payloads handed
    to [Write], in write order, nil and empty payloads included;
    [ReadFromSegment n] for a later segment and [Read] return a tail of that
    list, and [Read] returns all of it as long as the log has not
    rotated. *)
Theorem write_sync_read_roundtrip maxLogSizeInKB ops :
  existsb is_checkpoint ops = false ->
  len (records_of 1 ops) + 2 <= Int32.max_int ->
  Forall (fun v => fits (json.Marshal v)) (records_of 1 ops) ->
  exists w0 fs0 s,
    NewWal maxLogSizeInKB ∅ = Ok w0 fs0
    /\ run (ops ++ [OpSync]) (w0, fs0) = Ok tt s
    /\ ReadFromSegment 1 s = Ok (payloads ops) s
    /\ (forall n, 1 <= n <= lastSegmentNo s.1 ->
          exists older recent,
            ReadFromSegment n s = Ok recent s
            /\ payloads ops = older ++ recent)
    /\ (exists older recent,
          Read s = Ok recent s
          /\ payloads ops = older ++ recent
          /\ (lastSegmentNo s.1 = 1 -> older = [])).
Proof.
  intros Hck Hmax Hfits.
  destruct (run_synced maxLogSizeInKB ops Hmax Hfits)
    as (closed & cur & w & fs & E & Hwf & Hcat & Hst & _).
  eexists _, _, (w, fs). split; [apply NewWal_empty|]. split; [exact E|].
  assert (Hall : map GetData (concat (closed ++ [cur])) = payloads ops).
  { rewrite concat_snoc, Hcat. now apply payloads_records. }
  assert (Hlast : lastSegmentNo w = len (closed ++ [cur])) by apply Hst.
  split; [|split].
  - change 1 with (Z.of_nat 0 + 1) at 1.
    rewrite (ReadFromSegment_stored _ _ 0 Hst) by lia.
    rewrite drop_0. now rewrite Hall.
  - cbn [fst]. intros n Hn. rewrite Hlast in Hn. unfold len in Hn.
    exists (map GetData (concat (take (Z.to_nat (n - 1)) (closed ++ [cur])))),
      (map GetData (concat (drop (Z.to_nat (n - 1)) (closed ++ [cur])))).
    split.
    + replace n with (Z.of_nat (Z.to_nat (n - 1)) + 1) at 1 by lia.
      apply (ReadFromSegment_stored _ _ _ Hst). lia.
    + rewrite <- Hall, <- map_app, <- concat_app. now rewrite take_drop.
  - exists (map GetData (concat closed)), (map GetData cur). split; [|split].
    + unfold Read. cbn [fst]. rewrite Hlast, len_snoc. unfold len.
      apply (readData_stored _ _ _ _ Hst). now rewrite lookup_app_r, Nat.sub_diag.
    + now rewrite <- Hall, concat_snoc, map_app.
    + cbn [fst]. rewrite Hlast, len_snoc. unfold len. intros H1.
      destruct closed; [reflexivity|cbn [length] in H1; lia].
Qed.

Lemma write_sync_read_roundtrip_witness :
  let ops := [OpWrite (Some (bytes_of "a")); OpSync; OpWrite None;
              OpWrite (Some [])] in
  existsb is_checkpoint ops = false
  /\ len (records_of 1 ops) + 2 <= Int32.max_int
  /\ Forall (fun v => fits (json.Marshal v)) (records_of 1 ops)
  /\ exists w0 fs0 s,
       NewWal 1 ∅ = Ok w0 fs0
       /\ run (ops ++ [OpSync]) (w0, fs0) = Ok tt s
       /\ ReadFromSegment 1 s = Ok [Some (bytes_of "a"); None; Some []] s.
Proof.
  intros ops.
  assert (H1 : existsb is_checkpoint ops = false) by reflexivity.
  assert (H2 : len (records_of 1 ops) + 2 <= Int32.max_int)
    by (vm_compute; discriminate).
  assert (H3 : Forall (fun v => fits (json.Marshal v)) (records_of 1 ops)).
  { repeat constructor; vm_compute; discriminate. }
  split; [exact H1|]. split; [exact H2|]. split; [exact H3|].
  destruct (write_sync_read_roundtrip 1 ops H1 H2 H3)
    as (w0 & fs0 & s & E0 & E & Hr & _).
  exists w0, fs0, s. split; [exact E0|]. split; [exact E|exact Hr].
Defined.

(* --------------------------------------------------------------------- *)
(** ** Opening a directory that a log has written *)

Lemma getLogFileName_nonempty n : getLogFileName n <> ""%string.
Proof.
  intros E. apply (f_equal bytes_of) in E.
  rewrite bytes_of_getLogFileName in E. discriminate.
Qed.

(** In a directory that holds segment files alone, [getLastLogFile] opens
    the one with the largest number. *)
Lemma getLastLogFile_segments (fs : FS) K c :
  (forall name, fs !! name <> Some Dir) ->
  named_segments fs ->
  (forall j, K < j -> fs !! getLogFileName j = None) ->
  fs !! getLogFileName K = Some (File c) ->
  1 <= K <= Int32.max_int ->
  getLastLogFile fs = Ok (getLogFileName K, K) fs.
Proof.
  intros Hd Hn Hfresh HK Hr.
  assert (Hnum : forall name, fs !! name <> None ->
            exists j, 1 <= j <= K /\ name = getLogFileName j
                      /\ getSegmentNumberFromFile name = inr j).
  { intros name H. destruct (Hn _ H) as (j & Hj & ->). exists j.
    assert (j <= K).
    { destruct (Z.le_gt_cases j K) as [|Hgt]; [assumption|].
      now rewrite (Hfresh j) in H by lia. }
    split; [lia|]. split; [reflexivity|].
    apply getSegmentNumberFromFile_getLogFileName.
    unfold Int32.in_range, Int32.min_int, Int32.max_int in *. lia. }
  destruct (getLastLogFile_loop_max (ReadDir fs) "" 0 false)
    as (req & m & has & E & Hm & Hbound & Hreq).
  { intros name c0 Hin. apply ReadDir_elem in Hin.
    destruct (Hnum name) as (j & _ & _ & Hj); [congruence|]. eauto. }
  destruct (Hnum (getLogFileName K)) as (j & _ & Ej & HKn); [congruence|].
  apply getLogFileName_inj in Ej. subst j.
  destruct (Hbound (getLogFileName K) c K) as [HKm ->];
    [now apply ReadDir_elem|exact HKn|].
  destruct Hreq as [[_ ->]|(c' & Hin & Hk)]; [lia|].
  apply ReadDir_elem in Hin.
  destruct (Hnum req) as (j & Hj & -> & Hjn); [congruence|].
  rewrite Hjn in Hk. injection Hk as ->.
  assert (m = K) by lia. subst m.
  unfold getLastLogFile. rewrite E.
  rewrite decide_False by apply getLogFileName_nonempty.
  unfold OpenFile_CREATE_APPEND_WRONLY. now rewrite HK.
Qed.

Lemma numbered_last recs v : numbered (recs ++ [v]) -> Seq v = len recs + 1.
Proof.
  intros [Hs _]. rewrite map_app, len_snoc in Hs. cbn [map] in Hs.
  unfold len in Hs. rewrite <- (Nat2Z.inj_add _ 1), Nat.add_1_r, seqZ_S in Hs.
  apply app_inj_tail in Hs as [_ Hs]. unfold len. lia.
Qed.

(** [NewWal] on the directory of a well-formed log whose writer is empty
    gives the log back, with the threshold it is called with. *)
Lemma NewWal_stored maxLogSizeInKB maxLog closed cur w (fs : FS) :
  wellformed maxLog closed cur (w, fs) ->
  stored (closed ++ [cur]) (w, fs) ->
  writer w = [] ->
  named_segments fs ->
  (cur = [] -> closed = []) ->
  len closed + 1 <= Int32.max_int ->
  NewWal maxLogSizeInKB fs
  = Ok {| logFile := logFile w; writer := [];
          maxLogSize := Int32.wrap (maxLogSizeInKB * 1024);
          lastSegmentNo := lastSegmentNo w;
          lastSequenceNo := lastSequenceNo w |} fs.
Proof.
  intros Hwf Hst Hw Hn Hcur Hmax.
  pose proof (wellformed_layout _ _ _ _ Hwf) as Hlay.
  destruct Hwf as ((_ & Hseq & Hnum) & _ & _). cbn [fst snd] in *.
  pose proof (lay_lastSegmentNo _ _ _ Hlay) as Hlast.
  pose proof (lay_logFile _ _ _ Hlay) as Hlog.
  rewrite len_map in Hlast, Hlog. cbn [fst snd] in Hlast, Hlog.
  pose proof (len_nonneg closed) as H0.
  destruct (proj2 Hst (length closed) cur) as [Hfile Hholds].
  { now rewrite lookup_app_r, Nat.sub_diag. }
  cbn [snd] in Hfile. fold (len closed) in Hfile.
  unfold NewWal.
  rewrite (getLastLogFile_segments fs (len closed + 1)
             (frames (map json.Marshal cur)) (lay_files _ _ _ Hlay) Hn).
  2:{ intros j Hj. apply (lay_fresh _ _ _ Hlay). now rewrite len_map. }
  2:{ exact Hfile. }
  2:{ lia. }
  rewrite Hlog, Hlast.
  destruct cur as [|v0 cur0 _] using rev_ind.
  - rewrite (Hcur eq_refl) in *.
    unfold getLastLogData. rewrite Hfile. cbn [map frames concat length Nat.add].
    cbn [getLastLogData_loop]. change (len [] - 0 <=? 0) with true.
    cbn [Z.eqb]. do 2 f_equal. now rewrite Hseq.
  - rewrite map_app in Hfile, Hholds. cbn [map] in Hfile, Hholds.
    rewrite frames_snoc in Hfile.
    apply Forall2_app_inv_l in Hholds as (vs1 & vs2 & Hh1 & Hh2 & Evs).
    apply Forall2_cons_inv_l in Hh2 as (v' & vs3 & Hhv & Hh3 & ->).
    apply Forall2_nil_inv_l in Hh3 as ->.
    apply app_inj_tail in Evs as [-> <-].
    assert (Hf1 : Forall fits (map json.Marshal vs1)).
    { clear -Hh1. induction Hh1 as [|? ? ? ? Hb]; constructor; [apply Hb|assumption]. }
    rewrite (getLastLogData_frames _ _ _ _ Hf1 (proj1 Hhv) Hfile).
    unfold check_last. rewrite (proj1 (proj2 Hhv)), (proj2 (proj2 Hhv)).
    unfold set_lastSequenceNo, GetLastSequence.
    cbn [logFile writer maxLogSize lastSegmentNo lastSequenceNo].
    do 2 f_equal. rewrite Hseq. rewrite app_assoc in Hnum |- *.
    rewrite (numbered_last _ _ Hnum). now rewrite len_snoc.
Qed.

(** X10.  A log that was written from an empty directory and synced can be
    closed and opened again: [NewWal] on the directory it left selects the
    same current segment and finds the sequence number of the last record
    written, so that the next write continues the numbering; called with the
    same threshold it gives the very state the log was in, and leaves the
    directory as it was. *)
Theorem reopen_continues maxLogSizeInKB maxLogSizeInKB' ops :
  existsb is_checkpoint ops = false ->
  len (records_of 1 ops) + 2 <= Int32.max_int ->
  Forall (fun v => fits (json.Marshal v)) (records_of 1 ops) ->
  exists w0 fs0 s w',
    NewWal maxLogSizeInKB ∅ = Ok w0 fs0
    /\ run (ops ++ [OpSync]) (w0, fs0) = Ok tt s
    /\ lastSequenceNo s.1 = len (payloads ops)
    /\ NewWal maxLogSizeInKB s.2 = Ok s.1 s.2
    /\ NewWal maxLogSizeInKB' s.2 = Ok w' s.2
    /\ lastSequenceNo w' = len (payloads ops)
    /\ lastSegmentNo w' = lastSegmentNo s.1
    /\ logFile w' = logFile s.1
    /\ writer w' = []
    /\ maxLogSize w' = Int32.wrap (maxLogSizeInKB' * 1024).
Proof.
  intros Hck Hmax Hfits.
  destruct (run_synced maxLogSizeInKB ops Hmax Hfits)
    as (closed & cur & w & fs & E & Hwf & Hcat & Hst & Hw & Hn & Hcur & Hlen).
  assert (Hc : len closed + 1 <= Int32.max_int) by lia.
  assert (Hseq : lastSequenceNo w = len (payloads ops)).
  { destruct Hwf as ((_ & Hseq & _) & _ & _). cbn [fst] in Hseq.
    rewrite Hseq, Hcat, <- (payloads_records 1 ops Hck). symmetry. apply len_map. }
  eexists _, _, (w, fs), _. split; [apply NewWal_empty|]. split; [exact E|].
  cbn [fst snd]. split; [exact Hseq|].
  split; [|split; [apply (NewWal_stored maxLogSizeInKB' _ _ _ _ _ Hwf Hst Hw Hn Hcur Hc)|]].
  - rewrite (NewWal_stored maxLogSizeInKB _ _ _ _ _ Hwf Hst Hw Hn Hcur Hc).
    destruct Hwf as (_ & Hm & _). cbn [fst] in Hm. rewrite <- Hm, <- Hw.
    now destruct w.
  - cbn [lastSequenceNo lastSegmentNo logFile writer maxLogSize]. auto.
Qed.

Lemma reopen_continues_witness :
  let ops := [OpWrite (Some (bytes_of "a")); OpWrite (Some (bytes_of "b"))] in
  existsb is_checkpoint ops = false
  /\ len (records_of 1 ops) + 2 <= Int32.max_int
  /\ Forall (fun v => fits (json.Marshal v)) (records_of 1 ops)
  /\ exists w0 fs0 s w',
       NewWal 1 ∅ = Ok w0 fs0
       /\ run (ops ++ [OpSync]) (w0, fs0) = Ok tt s
       /\ NewWal 2 s.2 = Ok w' s.2
       /\ lastSequenceNo w' = 2.
Proof.
  intros ops.
  assert (H1 : existsb is_checkpoint ops = false) by reflexivity.
  assert (H2 : len (records_of 1 ops) + 2 <= Int32.max_int)
    by (vm_compute; discriminate).
  assert (H3 : Forall (fun v => fits (json.Marshal v)) (records_of 1 ops)).
  { repeat constructor; vm_compute; discriminate. }
  split; [exact H1|]. split; [exact H2|]. split; [exact H3|].
  destruct (reopen_continues 1 2 ops H1 H2 H3)
    as (w0 & fs0 & s & w' & E0 & E & _ & _ & E' & Hs & _).
  exists w0, fs0, s, w'. split; [exact E0|]. split; [exact E|].
  split; [exact E'|exact Hs].
Defined.

(* --------------------------------------------------------------------- *)
(** ** Repair of a log that is intact, and of one that is not *)

Lemma named_no_tmp (fs : FS) j :
  named_segments fs -> fs !! tmpName (getLogFileName j) = None.
Proof.
  intros Hn. destruct (fs !! tmpName (getLogFileName j)) eqn:E; [|reflexivity].
  destruct (Hn (tmpName (getLogFileName j))) as (k & _ & Hk); [congruence|].
  now apply tmpName_ne in Hk.
Qed.

Lemma fold_into_lastData_Marshal recs d0 :
  Forall (fun v => Int32.in_range (Seq v) /\ Int32.in_range (CRC v)) recs ->
  fold_left into_lastData (map json.Marshal recs) (Some d0)
  = Some (default d0 (last recs)).
Proof.
  intros H. destruct recs as [|v0 recs0 _] using rev_ind; [reflexivity|].
  apply Forall_app in H as [_ H]. apply Forall_inv in H as [Hs Hc].
  rewrite map_app. cbn [map]. rewrite fold_into_lastData_snoc by assumption.
  now rewrite last_snoc.
Qed.

Lemma numbered_in_range recs :
  numbered recs -> len recs <= Int32.max_int ->
  Forall (fun v => Int32.in_range (Seq v) /\ Int32.in_range (CRC v)) recs.
Proof.
  intros [Hseq Hval] Hn. rewrite Forall_forall in *. intros v Hv.
  split; [|apply (Hval v Hv)].
  assert (Hs : Seq v ∈ seqZ 1 (len recs)).
  { rewrite <- Hseq. apply list_elem_of_fmap. eauto. }
  apply elem_of_seqZ in Hs.
  unfold Int32.in_range, Int32.min_int, Int32.max_int in *. lia.
Qed.

(** Every segment of a well-formed log whose writer is empty is as a repair
    would leave it. *)
Lemma settled_stored maxLog closed cur w (fs : FS) :
  wellformed maxLog closed cur (w, fs) ->
  stored (closed ++ [cur]) (w, fs) ->
  writer w = [] ->
  named_segments fs ->
  (cur = [] -> closed = []) ->
  len (concat closed ++ cur) <= Int32.max_int ->
  forall j, 1 <= j <= lastSegmentNo w -> settled j (w, fs).
Proof.
  intros Hwf [Hlast Hst] Hw Hn Hcur Hmax j Hj. cbn [fst snd] in *.
  pose proof (wellformed_layout _ _ _ _ Hwf) as Hlay.
  destruct Hwf as ((_ & Hseq & Hnum) & _ & _). cbn [fst snd] in *.
  pose proof (lay_logFile _ _ _ Hlay) as Hlog. rewrite len_map in Hlog.
  cbn [fst] in Hlog. rewrite len_snoc in Hlast.
  assert (Hlt : (Z.to_nat (j - 1) < length (closed ++ [cur]))%nat).
  { rewrite length_app. cbn [length]. unfold len in *. lia. }
  apply lookup_lt_is_Some in Hlt as [recs Hrecs].
  destruct (Hst _ _ Hrecs) as [Hfile Hholds].
  replace (Z.of_nat (Z.to_nat (j - 1)) + 1) with j in Hfile by lia.
  exists (map json.Marshal recs), recs.
  split; [exact Hfile|]. split; [exact Hholds|].
  split; [now apply named_no_tmp|]. cbn [fst].
  intros ->. unfold repaired_wal. rewrite Z.eqb_refl.
  assert (recs = cur) as ->.
  { rewrite Hlast in Hrecs.
    replace (Z.to_nat (len closed + 1 - 1)) with (length closed) in Hrecs
      by (unfold len; lia).
    rewrite lookup_app_r, Nat.sub_diag in Hrecs by lia. now injection Hrecs. }
  pose proof (numbered_in_range _ Hnum Hmax) as Hr.
  apply Forall_app in Hr as [_ Hr].
  rewrite (fold_into_lastData_Marshal _ _ Hr).
  unfold set_lastSequenceNo, GetLastSequence.
  cbn [logFile writer maxLogSize lastSegmentNo lastSequenceNo].
  replace (getLogFileName (lastSegmentNo w)) with (logFile w)
    by (now rewrite Hlog, Hlast).
  rewrite <- Hw.
  assert (Hs : Seq (default zeroWalData (last cur)) = lastSequenceNo w).
  { rewrite Hseq. destruct cur as [|v0 cur0 _] using rev_ind.
    - now rewrite (Hcur eq_refl).
    - rewrite last_snoc. cbn [from_option id]. rewrite app_assoc in Hnum |- *.
      rewrite (numbered_last _ _ Hnum). now rewrite len_snoc. }
  rewrite Hs. now destruct w.
Qed.

Lemma run_then_sync ops s0 s' :
  run (ops ++ [OpSync]) s0 = Ok tt s' ->
  exists s, run ops s0 = Ok tt s /\ Sync s = Ok tt s'.
Proof.
  rewrite run_app. destruct (run ops s0) as [[] s| | |]; try discriminate.
  cbn [run step]. unfold bind. intros E. exists s. split; [reflexivity|].
  destruct (Sync s) as [[] s1| | |]; try discriminate. exact E.
Qed.

(** X11.  On a log written from an empty directory, at any point of the
    trace, [Repair] does what [Sync] does and nothing more: no segment loses
    a byte, the sequence number is kept, and [ReadFromSegment 1] afterwards
    returns every payload written. *)
Theorem Repair_of_intact_log maxLogSizeInKB ops :
  existsb is_checkpoint ops = false ->
  len (records_of 1 ops) + 2 <= Int32.max_int ->
  Forall (fun v => fits (json.Marshal v)) (records_of 1 ops) ->
  exists w0 fs0 s s',
    NewWal maxLogSizeInKB ∅ = Ok w0 fs0
    /\ run ops (w0, fs0) = Ok tt s
    /\ Sync s = Ok tt s'
    /\ Repair s = Ok tt s'
    /\ Repair s' = Ok tt s'
    /\ ReadFromSegment 1 s' = Ok (payloads ops) s'.
Proof.
  intros Hck Hmax Hfits.
  destruct (run_synced maxLogSizeInKB ops Hmax Hfits)
    as (closed & cur & w & fs & E & Hwf & Hcat & Hst & Hw & Hn & Hcur & Hlen).
  destruct (run_then_sync _ _ _ E) as (s & Er & Es).
  assert (Hset : forall j, 1 <= j <= lastSegmentNo w -> settled j (w, fs)).
  { apply (settled_stored _ _ _ _ _ Hwf Hst Hw Hn Hcur). rewrite Hcat. lia. }
  assert (Hfix : forall n, (Z.of_nat n <= lastSegmentNo w) ->
            Repair_loop n 1 (w, fs) = Ok tt (w, fs)).
  { intros n Hle. apply Repair_loop_fix. intros j Hj. apply Hset. lia. }
  eexists _, _, s, (w, fs). split; [apply NewWal_empty|]. split; [exact Er|].
  split; [exact Es|]. split; [|split].
  - unfold Repair, bind. rewrite Es. apply Hfix.
    pose proof (proj1 Hst) as Hl. cbn [fst] in Hl. rewrite Hl. 
    pose proof (len_nonneg (closed ++ [cur])). lia.
  - unfold Repair, bind. rewrite (Sync_flushed _ _ Hw). apply Hfix.
    pose proof (proj1 Hst) as Hl. cbn [fst] in Hl. rewrite Hl. 
    pose proof (len_nonneg (closed ++ [cur])). lia.
  - change 1 with (Z.of_nat 0 + 1) at 1.
    rewrite (ReadFromSegment_stored _ _ 0 Hst) by lia.
    rewrite drop_0, concat_snoc, Hcat. f_equal. now apply payloads_records.
Qed.

Lemma Repair_of_intact_log_witness :
  let ops := [OpWrite (Some (bytes_of "a")); OpWrite None] in
  existsb is_checkpoint ops = false
  /\ len (records_of 1 ops) + 2 <= Int32.max_int
  /\ Forall (fun v => fits (json.Marshal v)) (records_of 1 ops)
  /\ exists w0 fs0 s s',
       NewWal 1 ∅ = Ok w0 fs0
       /\ run ops (w0, fs0) = Ok tt s
       /\ Repair s = Ok tt s'
       /\ ReadFromSegment 1 s' = Ok [Some (bytes_of "a"); None] s'.
Proof.
  intros ops.
  assert (H1 : existsb is_checkpoint ops = false) by reflexivity.
  assert (H2 : len (records_of 1 ops) + 2 <= Int32.max_int)
    by (vm_compute; discriminate).
  assert (H3 : Forall (fun v => fits (json.Marshal v)) (records_of 1 ops)).
  { repeat constructor; vm_compute; discriminate. }
  split; [exact H1|]. split; [exact H2|]. split; [exact H3|].
  destruct (Repair_of_intact_log 1 ops H1 H2 H3)
    as (w0 & fs0 & s & s' & E0 & E & _ & Er & _ & Hr).
  exists w0, fs0, s, s'. split; [exact E0|]. split; [exact E|].
  split; [exact Er|exact Hr].
Defined.

(** A repair that returns leaves every segment settled. *)
Lemma Repair_settles s s1 :
  no_leftover s -> Repair s = Ok tt s1 ->
  lastSegmentNo s1.1 = lastSegmentNo s.1
  /\ forall j, 1 <= j <= lastSegmentNo s.1 -> settled j s1.
Proof.
  intros Hno E. unfold Repair, bind in E.
  destruct (Sync s) as [[] s0|e s0|p|] eqn:Es; try discriminate.
  destruct (Sync_shape _ _ Es) as [Hw0 Hfs0].
  destruct s0 as [w0 fs0]. cbn [fst snd] in *.
  assert (Hl0 : lastSegmentNo w0 = lastSegmentNo s.1) by now rewrite Hw0.
  destruct (Repair_loop_settles (Z.to_nat (lastSegmentNo w0)) 1 (w0, fs0) s1)
    as [Hl1 Hall]; try assumption; cbn [fst snd].
  - lia.
  - f_equal. lia.
  - intros j Hj. apply Hfs0, Hno. lia.
  - intros j Hj. lia.
  - cbn [fst snd] in Hall, Hl1. split; [congruence|].
    intros j Hj. apply Hall. lia.
Qed.

Lemma readSegment_settled j s :
  settled j s -> exists vs, readSegment j s = Ok vs s.
Proof.
  destruct s as [w fs]. intros (bs & vs & Hf & Hvs & _). cbn [snd] in Hf.
  exists vs. rewrite (readSegment_on_file _ _ _ _ Hf).
  now rewrite (read_image_parsed _ _ _ _ _ (parsed_frames _ _ Hvs)).
Qed.

Lemma ReadFromSegment_loop_settled n : forall i data s,
  (forall j, i <= j < i + Z.of_nat n -> settled j s) ->
  exists data', ReadFromSegment_loop n i data s = Ok data' s.
Proof.
  induction n as [|n IH]; intros i data s Hset; [now exists data|].
  cbn [ReadFromSegment_loop]. unfold bind, readData, bind, ret.
  destruct (readSegment_settled i s) as [vs ->]; [apply Hset; lia|].
  apply IH. intros j Hj. apply Hset. lia.
Qed.

(** X12.  A [Repair] that returns, on a directory without a file left under
    the temporary name of a segment, leaves a log that reads: every segment
    up to the current one is read without error by [readSegment], and so is
    the whole log by [ReadFromSegment]; the number of the current segment is
    kept; and a second [Repair] changes nothing, on disk or in memory. *)
Theorem Repair_leaves_a_readable_log s s1 :
  no_leftover s ->
  lastSegmentNo s.1 < Int32.max_int ->
  Repair s = Ok tt s1 ->
  lastSegmentNo s1.1 = lastSegmentNo s.1
  /\ (forall j, 1 <= j <= lastSegmentNo s1.1 ->
        exists vs, readSegment j s1 = Ok vs s1)
  /\ (forall n, 1 <= n -> exists data, ReadFromSegment n s1 = Ok data s1)
  /\ Repair s1 = Ok tt s1.
Proof.
  intros Hno Hmax E. destruct (Repair_settles s s1 Hno E) as [Hl Hset].
  split; [exact Hl|]. split; [|split].
  - intros j Hj. apply readSegment_settled, Hset. lia.
  - intros n Hn. destruct s1 as [w1 fs1]. unfold ReadFromSegment.
    destruct (Z.ltb_spec n 1); [lia|].
    apply ReadFromSegment_loop_settled. cbn [fst snd] in *.
    intros j Hj. apply Hset. lia.
  - exact (Repair_idempotent s s1 Hno E).
Qed.

Lemma Repair_leaves_a_readable_log_witness :
  let v := NewWalData 1 (Some (bytes_of "kept")) in
  let fs : FS := {[ getLogFileName 1 := File (encode v ++ bytes_of "torn") ]} in
  let w := mkWal (getLogFileName 1) [] 1024 1 0 in
  let s1 := (mkWal (getLogFileName 1) [] 1024 1 1,
             ({[ getLogFileName 1 := File (encode v) ]} : FS)) in
  no_leftover (w, fs)
  /\ lastSegmentNo w < Int32.max_int
  /\ Repair (w, fs) = Ok tt s1
  /\ (exists vs, readSegment 1 s1 = Ok vs s1)
  /\ Repair s1 = Ok tt s1.
Proof.
  intros v fs w s1.
  assert (H1 : no_leftover (w, fs)).
  { intros j Hj. cbn [fst snd]. apply lookup_singleton_ne.
    intros E. symmetry in E. now apply tmpName_ne in E. }
  assert (H2 : lastSegmentNo w < Int32.max_int) by (vm_compute; reflexivity).
  assert (H3 : Repair (w, fs) = Ok tt s1) by (vm_compute; reflexivity).
  split; [exact H1|]. split; [exact H2|]. split; [exact H3|].
  destruct (Repair_leaves_a_readable_log (w, fs) s1 H1 H2 H3)
    as (_ & Hread & _ & Hagain).
  split; [|exact Hagain]. apply Hread. cbn. lia.
Defined.

(* --------------------------------------------------------------------- *)
(** ** Opening a directory after a crash *)

(** The part of a run of frames that has reached the file: whole frames,
    then nothing or a frame cut short. *)
Lemma frames_prefix bs : forall c buf,
  Forall fits bs -> c ++ buf = frames bs ->
  exists bs1 bs2 tl,
    bs = bs1 ++ bs2 /\ c = frames bs1 ++ tl
    /\ (tl = [] \/ short_length tl \/ short_payload tl)
    /\ (buf = [] -> bs2 = [] /\ tl = []).
Proof.
  induction bs as [|b bs IH]; intros c buf Hf E.
  - apply app_eq_nil in E as [-> ->]. exists [], [], []. auto.
  - apply Forall_cons in Hf as [Hb Hf]. rewrite frames_cons in E.
    destruct (Z.lt_ge_cases (len c) (len (frame b))) as [Hlt|Hge].
    + exists [], (b :: bs), c. split; [reflexivity|]. split; [reflexivity|].
      pose proof (len_nonneg c) as H0. rewrite frame_length in Hlt.
      split.
      * destruct (Z.eq_dec (len c) 0) as [Hz|Hnz].
        { left. destruct c; [reflexivity|]. unfold len in Hz. cbn in Hz. lia. }
        destruct (Z.lt_ge_cases (len c) 4) as [H4|H4].
        { right. left. unfold short_length. lia. }
        right. right. unfold short_payload.
        assert (Ht : take 4 c = take 4 (frame b ++ frames bs)).
        { rewrite <- E. rewrite take_app_le; [reflexivity|]. unfold len in H4. lia. }
        rewrite Ht, (frame_size _ _ Hb). pose proof (len_nonneg b). lia.
      * intros ->. rewrite app_nil_r in E. apply (f_equal len) in E.
        rewrite len_app, frame_length in E. pose proof (len_nonneg (frames bs)). lia.
    + assert (Hc : c = frame b ++ drop (length (frame b)) c).
      { rewrite <- (take_drop (length (frame b)) c) at 1. f_equal.
        apply (f_equal (take (length (frame b)))) in E.
        rewrite take_app_le in E by (unfold len in Hge; lia).
        rewrite E. rewrite take_app_length. reflexivity. }
      rewrite Hc, <- app_assoc in E. apply app_inv_head in E.
      destruct (IH _ _ Hf E) as (bs1 & bs2 & tl & -> & Hc' & Ht & Hbuf).
      exists (b :: bs1), bs2, tl. split; [reflexivity|]. split; [|auto].
      rewrite Hc, Hc', frames_cons, <- app_assoc. reflexivity.
Qed.

Lemma getLastLogData_torn name (fs : FS) bs tl :
  Forall fits bs -> short_length tl \/ short_payload tl ->
  fs !! name = Some (File (frames bs ++ tl)) ->
  getLastLogData name fs = Bad ErrRead.
Proof.
  intros Hbs Ht Hf. unfold getLastLogData. rewrite Hf.
  pose proof (length_frames_ge bs) as Hge.
  set (content := frames bs ++ tl).
  destruct (getLastLogData_loop_frames bs [] tl 0 0
              (length content + 2 - length bs) Hbs)
    as (size' & cur' & E & _ & _).
  cbn [app] in E. fold content in E.
  assert (Hl : (length bs <= length content)%nat).
  { unfold content. rewrite length_app. lia. }
  replace (length bs + (length content + 2 - length bs))%nat
    with (length content + 2)%nat in E by lia.
  change (len []) with 0 in E. rewrite E.
  replace (length content + 2 - length bs)%nat
    with (S (S (length content - length bs)))%nat by lia.
  rewrite Z.add_0_l. unfold content. now apply getLastLogData_loop_short.
Qed.

Lemma Repair_loop_S n i s :
  Repair_loop (S n) i s =
    match repairSegment i s with
    | Ok _ s1 => Repair_loop n (i + 1) s1
    | Err e s1 => Err e s1
    | Panic p => Panic p
    | Loops => Loops
    end.
Proof. reflexivity. Qed.

Lemma Repair_loop_snoc n : forall i s,
  Repair_loop (S n) i s
  = (Repair_loop n i ;;; repairSegment (i + Z.of_nat n)) s.
Proof.
  induction n as [|n IH]; intros i s.
  - rewrite Repair_loop_S. unfold bind. cbn [Repair_loop]. unfold ret.
    rewrite Z.add_0_r. destruct (repairSegment i s) as [[] ?| | |]; reflexivity.
  - rewrite Repair_loop_S. unfold bind. rewrite (Repair_loop_S n i s).
    destruct (repairSegment i s) as [[] s1| | |]; try reflexivity.
    rewrite IH. unfold bind.
    replace (i + 1 + Z.of_nat n) with (i + Z.of_nat (S n)) by lia. reflexivity.
Qed.

(** [NewWal] on the directory of a well-formed log whose writer was lost:
    the frames that have reached the current segment in full are kept, a
    frame cut short is dropped, and the sequence number is that of the last
    record kept in the current segment, or 0 when it has none. *)
Lemma NewWal_crashed maxLogSizeInKB maxLog closed cur w (fs : FS) :
  wellformed maxLog closed cur (w, fs) ->
  named_segments fs ->
  len closed + 1 <= Int32.max_int ->
  len (concat closed ++ cur) <= Int32.max_int ->
  Forall (fun v => fits (json.Marshal v)) (concat closed ++ cur) ->
  exists recs1 recs2,
    cur = recs1 ++ recs2
    /\ (writer w = [] -> recs2 = [])
    /\ NewWal maxLogSizeInKB fs
       = Ok {| logFile := logFile w; writer := [];
               maxLogSize := Int32.wrap (maxLogSizeInKB * 1024);
               lastSegmentNo := lastSegmentNo w;
               lastSequenceNo := Seq (default zeroWalData (last recs1)) |}
            (<[logFile w := File (frames (map json.Marshal recs1))]> fs).
Proof.
  intros Hwf Hn Hmax Hrecs Hfits.
  pose proof (wellformed_layout _ _ _ _ Hwf) as Hlay.
  destruct Hwf as ((_ & Hseq & Hnum) & _ & _). cbn [fst snd] in *.
  pose proof (lay_lastSegmentNo _ _ _ Hlay) as Hlast.
  pose proof (lay_logFile _ _ _ Hlay) as Hlog.
  rewrite len_map in Hlast, Hlog. cbn [fst snd] in Hlast, Hlog.
  pose proof (len_nonneg closed) as H0.
  destruct (lay_open _ _ _ Hlay) as (c & Hfile & Hcat).
  rewrite len_map in Hfile. cbn [fst snd] in Hfile, Hcat.
  pose proof (numbered_holds _ Hnum Hrecs Hfits) as Hh.
  apply Forall_app in Hh as [Hhc Hho].
  assert (Hfc : Forall fits (map json.Marshal cur)).
  { apply Forall_app in Hfits as [_ Hfc]. clear -Hfc.
    induction Hfc; cbn [map]; constructor; assumption. }
  destruct (frames_prefix _ _ _ Hfc Hcat) as (bs1 & bs2 & tl & Ebs & Hc & Ht & Hbuf).
  apply map_eq_app in Ebs as (recs1 & recs2 & -> & <- & <-).
  exists recs1, recs2. split; [reflexivity|]. split.
  { intros Hw. destruct (Hbuf Hw) as [Hb2 _]. now apply map_eq_nil in Hb2. }
  apply Forall_app in Hho as [Hh1 _].
  pose proof (Forall2_holds_map _ Hh1) as Hholds1.
  assert (Hf1 : Forall fits (map json.Marshal recs1)).
  { rewrite map_app in Hfc. now apply Forall_app in Hfc as [Hf1 _]. }
  apply numbered_in_range in Hnum; [|assumption].
  apply Forall_app in Hnum as [_ Hnum]. apply Forall_app in Hnum as [Hr1 _].
  unfold NewWal.
  rewrite (getLastLogFile_segments fs (len closed + 1) c (lay_files _ _ _ Hlay) Hn).
  2:{ intros j Hj. apply (lay_fresh _ _ _ Hlay). now rewrite len_map. }
  2:{ exact Hfile. }
  2:{ lia. }
  rewrite Hlog, Hlast. subst c.
  destruct Ht as [->|Ht].
  - (* nothing is cut short: no repair *)
    rewrite app_nil_r in Hfile. rewrite (insert_id _ _ _ Hfile).
    destruct recs1 as [|v0 recs0 _] using rev_ind.
    + unfold getLastLogData. rewrite Hfile. reflexivity.
    + rewrite map_app in Hfile, Hf1. cbn [map] in Hfile, Hf1.
      rewrite frames_snoc in Hfile. apply Forall_app in Hf1 as [Hf0 Hfv].
      apply Forall_inv in Hfv. apply Forall_app in Hh1 as [_ Hhv].
      apply Forall_inv in Hhv.
      rewrite (getLastLogData_frames _ _ _ _ Hf0 Hfv Hfile).
      unfold check_last. rewrite (proj1 (proj2 Hhv)), (proj2 (proj2 Hhv)).
      rewrite last_snoc. reflexivity.
  - (* a frame is cut short: the read fails and the log is repaired *)
    rewrite (getLastLogData_torn _ _ _ _ Hf1 Ht Hfile).
    set (wal0 := {| logFile := getLogFileName (len closed + 1); writer := [];
                    maxLogSize := Int32.wrap (maxLogSizeInKB * 1024);
                    lastSegmentNo := len closed + 1; lastSequenceNo := 0 |}).
    unfold Repair, bind. rewrite (Sync_flushed wal0 fs eq_refl).
    cbn [lastSegmentNo wal0].
    replace (Z.to_nat (len closed + 1)) with (S (length closed)) by (unfold len; lia).
    rewrite Repair_loop_snoc. unfold bind.
    rewrite Repair_loop_fix.
    2:{ intros j Hj.
        assert (Hlt : (Z.to_nat (j - 1) < length closed)%nat) by lia.
        apply lookup_lt_is_Some in Hlt as [recs Hrecsj].
        exists (map json.Marshal recs), recs. cbn [fst snd].
        split.
        { pose proof (lay_closed _ _ _ Hlay (Z.to_nat (j - 1))
                        (map json.Marshal recs)) as Hcl.
          replace (Z.of_nat (Z.to_nat (j - 1)) + 1) with j in Hcl by lia.
          apply Hcl. now rewrite list_lookup_fmap, Hrecsj. }
        split.
        { apply Forall2_holds_map. rewrite Forall_forall in Hhc |- *.
          intros v Hv. apply Hhc.
          apply (proj2 (list_elem_of_In _ _)), in_concat. exists recs.
          split; [|now apply (proj1 (list_elem_of_In _ _))].
          apply (proj1 (list_elem_of_In _ _)).
          eapply list_elem_of_lookup_2. exact Hrecsj. }
        split; [now apply named_no_tmp|].
        intros Ej. cbn [lastSegmentNo wal0] in Ej. unfold len in Ej. lia. }
    replace (1 + Z.of_nat (length closed)) with (len closed + 1) by (unfold len; lia).
    assert (Hrep : forall e, at_head e tl -> @repair_ending unit e tt = Got tt ->
              repairSegment (len closed + 1) (wal0, fs)
              = Ok tt (repaired_wal (len closed + 1) wal0
                         (fold_left into_lastData (map json.Marshal recs1)
                            (Some zeroWalData)),
                       <[getLogFileName (len closed + 1)
                           := File (frames (map json.Marshal recs1))]> fs)).
    { intros e He Hgot.
      assert (Hp : parsed (frames (map json.Marshal recs1) ++ tl)
                     (map json.Marshal recs1) recs1 tl e).
      { split; [reflexivity|]. split; [exact Hholds1|exact He]. }
      rewrite (repairSegment_parsed _ _ _ _ _ _ _ _ (or_introl Hfile)
                 (named_no_tmp _ _ Hn) Hp).
      now rewrite Hgot. }
    assert (E : repairSegment (len closed + 1) (wal0, fs)
              = Ok tt (repaired_wal (len closed + 1) wal0
                         (fold_left into_lastData (map json.Marshal recs1)
                            (Some zeroWalData)),
                       <[getLogFileName (len closed + 1)
                           := File (frames (map json.Marshal recs1))]> fs)).
    { destruct Ht as [Ht|Ht];
        [apply (Hrep ShortLength)|apply (Hrep ShortPayload)];
        (exact Ht || reflexivity). }
    rewrite E, (fold_into_lastData_Marshal _ _ Hr1).
    unfold repaired_wal. cbn [lastSegmentNo wal0]. rewrite Z.eqb_refl.
    reflexivity.
Qed.


Lemma numbered_app_l l1 l2 : numbered (l1 ++ l2) -> numbered l1.
Proof.
  intros [Hs Hv]. split; [|now apply Forall_app in Hv as [Hv _]].
  rewrite map_app, len_app in Hs.
  rewrite seqZ_app in Hs by apply len_nonneg.
  apply app_inj_1 in Hs as [Hs _]; [exact Hs|].
  rewrite length_map, length_seqZ. unfold len. lia.
Qed.

(** X13.  A log written from an empty directory that loses what its writer
    holds (the process stops at any point of the trace; the files keep what
    was written to them) is opened again by [NewWal] with the payloads it
    gives back being a prefix of the payloads written, in order: only the
    records that had not reached their file in full are lost, none when the
    writer was empty.  The other segment files are left
    as they were and the current segment keeps its number.  The sequence
    number found is the number of the last record kept when the current
    segment holds one, and 0 when it holds none, whatever the earlier
    segments hold. *)
Theorem crash_recovery maxLogSizeInKB maxLogSizeInKB' ops :
  existsb is_checkpoint ops = false ->
  len (records_of 1 ops) + 2 <= Int32.max_int ->
  Forall (fun v => fits (json.Marshal v)) (records_of 1 ops) ->
  exists w0 fs0 s w' fs' kept lost recent,
    NewWal maxLogSizeInKB ∅ = Ok w0 fs0
    /\ run ops (w0, fs0) = Ok tt s
    /\ NewWal maxLogSizeInKB' s.2 = Ok w' fs'
    /\ payloads ops = kept ++ lost
    /\ ReadFromSegment 1 (w', fs') = Ok kept (w', fs')
    /\ (writer s.1 = [] -> lost = [])
    /\ lastSegmentNo w' = lastSegmentNo s.1
    /\ (forall name, name <> logFile s.1 -> fs' !! name = s.2 !! name)
    /\ Read (w', fs') = Ok recent (w', fs')
    /\ (recent <> [] -> lastSequenceNo w' = len kept)
    /\ (recent = [] -> lastSequenceNo w' = 0).
Proof.
  intros Hck Hmax Hfits. pose proof (len_nonneg (records_of 1 ops)) as H0.
  pose proof (wellformed_opened maxLogSizeInKB _ _ (NewWal_empty maxLogSizeInKB)) as Hwf0.
  destruct (run_trace _ ops _ _ _ Hwf0)
    as (closed & cur & [w fs] & E & Hwf & Hcat & Hn & Hcur & Hlen).
  { change (len []) with 0. lia. }
  { change (len (concat [] ++ [])) with 0. lia. }
  { apply named_opened. }
  { auto. }
  change (len (concat [] ++ [])) with 0 in Hcat. cbn [concat app] in Hcat.
  rewrite Z.add_0_l in Hcat. change (len []) with 0 in Hlen.
  destruct (NewWal_crashed maxLogSizeInKB' _ _ _ _ _ Hwf Hn)
    as (recs1 & recs2 & -> & Hw & Enew); [lia|rewrite Hcat; lia|now rewrite Hcat|].
  pose proof (wellformed_layout _ _ _ _ Hwf) as Hlay.
  pose proof (lay_lastSegmentNo _ _ _ Hlay) as Hlast.
  pose proof (lay_logFile _ _ _ Hlay) as Hlog.
  rewrite len_map in Hlast, Hlog. cbn [fst snd] in Hlast, Hlog.
  destruct Hwf as ((_ & _ & Hnum) & _ & _).
  set (w' := {| logFile := logFile w; writer := [];
                maxLogSize := Int32.wrap (maxLogSizeInKB' * 1024);
                lastSegmentNo := lastSegmentNo w;
                lastSequenceNo := Seq (default zeroWalData (last recs1)) |}) in *.
  set (fs' := <[logFile w := File (frames (map json.Marshal recs1))]> fs) in *.
  assert (Hnum1 : numbered (concat closed ++ recs1)).
  { rewrite app_assoc in Hnum. exact (numbered_app_l _ _ Hnum). }
  assert (Hl1 : len (concat closed ++ recs1) <= Int32.max_int).
  { pose proof (f_equal len Hcat) as Hl. rewrite app_assoc, len_app in Hl.
    pose proof (len_nonneg recs2). lia. }
  assert (Hfit1 : Forall (fun v => fits (json.Marshal v)) (concat closed ++ recs1)).
  { rewrite <- Hcat, app_assoc in Hfits. now apply Forall_app in Hfits as [Hf _]. }
  pose proof (numbered_holds _ Hnum1 Hl1 Hfit1) as Hh.
  apply Forall_app in Hh as [Hhc Hh1].
  assert (Hst : stored (closed ++ [recs1]) (w', fs')).
  { split.
    - cbn [fst lastSegmentNo w']. rewrite Hlast, len_snoc. reflexivity.
    - intros j recs Hj. cbn [fst snd].
      apply lookup_app_Some in Hj as [Hj|[Hge Hj]].
      + split.
        * unfold fs'. rewrite lookup_insert_ne.
          -- apply (lay_closed _ _ _ Hlay j). now rewrite list_lookup_fmap, Hj.
          -- rewrite Hlog. intros Ej%getLogFileName_inj.
             apply lookup_lt_Some in Hj. unfold len in Ej. lia.
        * apply Forall2_holds_map. rewrite Forall_forall in *. intros v Hv.
          apply Hhc. apply (proj2 (list_elem_of_In _ _)), in_concat. exists recs.
          split; [|now apply (proj1 (list_elem_of_In _ _))].
          apply (proj1 (list_elem_of_In _ _)). eapply list_elem_of_lookup_2. exact Hj.
      + apply list_lookup_singleton_Some in Hj as [Hj <-].
        replace (Z.of_nat j + 1) with (len closed + 1) by (unfold len; lia).
        split; [|now apply Forall2_holds_map].
        unfold fs'. rewrite <- Hlog. apply lookup_insert_eq. }
  eexists _, _, (w, fs), w', fs', (map GetData (concat closed ++ recs1)),
    (map GetData recs2), (map GetData recs1).
  split; [apply NewWal_empty|]. split; [exact E|]. split; [exact Enew|].
  split; [|split; [|split; [|split; [|split; [|split; [|split]]]]]].
  - rewrite <- (payloads_records 1 ops Hck), <- Hcat, <- map_app, <- app_assoc.
    reflexivity.
  - change 1 with (Z.of_nat 0 + 1) at 1.
    rewrite (ReadFromSegment_stored _ _ 0 Hst) by lia.
    now rewrite drop_0, concat_snoc.
  - cbn [fst]. intros Hwr. now rewrite (Hw Hwr).
  - reflexivity.
  - cbn [fst snd]. intros name Hne. unfold fs'. apply lookup_insert_ne. congruence.
  - unfold Read. cbn [fst lastSegmentNo w']. rewrite Hlast. unfold len.
    apply (readData_stored _ _ _ _ Hst). now rewrite lookup_app_r, Nat.sub_diag.
  - cbn [lastSequenceNo w']. intros Hne.
    destruct recs1 as [|v0 recs0 _] using rev_ind; [now destruct Hne|].
    rewrite last_snoc. cbn [from_option id]. rewrite app_assoc in Hnum1 |- *.
    rewrite (numbered_last _ _ Hnum1). rewrite len_map, len_snoc. reflexivity.
  - cbn [lastSequenceNo w']. intros Hnil. apply map_eq_nil in Hnil. now subst.
Qed.

Lemma crash_recovery_witness :
  let ops := [OpWrite (Some (bytes_of "a")); OpSync;
              OpWrite (Some (bytes_of "b"))] in
  existsb is_checkpoint ops = false
  /\ len (records_of 1 ops) + 2 <= Int32.max_int
  /\ Forall (fun v => fits (json.Marshal v)) (records_of 1 ops)
  /\ exists w0 fs0 s w' fs' kept lost,
       NewWal 1 ∅ = Ok w0 fs0
       /\ run ops (w0, fs0) = Ok tt s
       /\ NewWal 1 s.2 = Ok w' fs'
       /\ payloads ops = kept ++ lost
       /\ ReadFromSegment 1 (w', fs') = Ok kept (w', fs').
Proof.
  intros ops.
  assert (H1 : existsb is_checkpoint ops = false) by reflexivity.
  assert (H2 : len (records_of 1 ops) + 2 <= Int32.max_int)
    by (vm_compute; discriminate).
  assert (H3 : Forall (fun v => fits (json.Marshal v)) (records_of 1 ops)).
  { repeat constructor; vm_compute; discriminate. }
  split; [exact H1|]. split; [exact H2|]. split; [exact H3|].
  destruct (crash_recovery 1 1 ops H1 H2 H3)
    as (w0 & fs0 & s & w' & fs' & kept & lost & recent & E0 & E & En & Hp & Hr & _).
  exists w0, fs0, s, w', fs', kept, lost.
  split; [exact E0|]. split; [exact E|]. split; [exact En|].
  split; [exact Hp|exact Hr].
Defined.

(** The sequence number after a crash that follows a rotation: the log has
    rotated to segment 2 for record 2, whose frame is still in the writer
    when it is lost; [NewWal] finds segment 2 empty and starts again from
    sequence number 0, with record 1 in segment 1. *)
Lemma crash_after_rotation_restarts_numbering :
  let big : slice := Some (repeat x00 600) in
  let ops := [OpWrite big; OpSync; OpWrite big] in
  exists w0 fs0 s w' fs',
    NewWal 1 ∅ = Ok w0 fs0
    /\ run ops (w0, fs0) = Ok tt s
    /\ lastSegmentNo s.1 = 2 /\ lastSequenceNo s.1 = 2
    /\ NewWal 1 s.2 = Ok w' fs'
    /\ lastSegmentNo w' = 2 /\ lastSequenceNo w' = 0
    /\ ReadFromSegment 1 (w', fs') = Ok [big] (w', fs').
Proof.
  intros big ops. eexists _, _, _, _, _.
  split; [apply NewWal_empty|]. split; [vm_compute; reflexivity|].
  split; [reflexivity|]. split; [reflexivity|].
  split; [vm_compute; reflexivity|]. split; [reflexivity|].
  split; [reflexivity|]. vm_compute. reflexivity.
Qed.

(* --------------------------------------------------------------------- *)
(** ** [ReadFromSegment] segment by segment *)

Lemma ReadFromSegment_loop_acc n : forall i acc s,
  ReadFromSegment_loop n i acc s
  = (rest <- ReadFromSegment_loop n i [] ;; ret (acc ++ rest)) s.
Proof.
  induction n as [|n IH]; intros i acc s.
  - cbn [ReadFromSegment_loop]. unfold bind, ret. now rewrite app_nil_r.
  - cbn [ReadFromSegment_loop]. unfold bind at 1 2 3.
    destruct (readData i s) as [cur s1| | |]; try reflexivity.
    rewrite (IH (i + 1) (acc ++ cur)), (IH (i + 1) ([] ++ cur)).
    unfold bind, ret.
    destruct (ReadFromSegment_loop n (i + 1) [] s1) as [rest s2| | |];
      try reflexivity.
    now rewrite app_assoc.
Qed.

Lemma readData_wal n s cur s1 : readData n s = Ok cur s1 -> s1.1 = s.1.
Proof.
  intros E. pose proof (readData_effect n s) as H. rewrite E in H. apply H.
Qed.

(** X14.  [ReadFromSegment n] refuses a segment number below 1 with the
    error "segment no must start from 1" and touches nothing; past the
    current segment it returns no payload and no error; and from a segment
    of the log it returns the payloads of that segment followed by what
    [ReadFromSegment (n + 1)] returns, failing with the error of the first
    segment that fails.  [Read] is [ReadFromSegment] of the current
    segment. *)
Theorem ReadFromSegment_by_segment n s :
  lastSegmentNo s.1 < Int32.max_int ->
  (n < 1 -> ReadFromSegment n s = Err ErrSegmentNo s)
  /\ (1 <= n -> lastSegmentNo s.1 < n -> ReadFromSegment n s = Ok [] s)
  /\ (1 <= n <= lastSegmentNo s.1 ->
      ReadFromSegment n s
      = (cur <- readData n ;; rest <- ReadFromSegment (n + 1) ;;
         ret (cur ++ rest)) s)
  /\ (1 <= lastSegmentNo s.1 -> ReadFromSegment (lastSegmentNo s.1) s = Read s).
Proof.
  intros Hmax. destruct s as [w fs]. cbn [fst snd] in *.
  assert (Hstep : forall n, 1 <= n <= lastSegmentNo w ->
            ReadFromSegment n (w, fs)
            = (cur <- readData n ;; rest <- ReadFromSegment (n + 1) ;;
               ret (cur ++ rest)) (w, fs)).
  { intros m Hm. unfold ReadFromSegment at 1.
    destruct (Z.ltb_spec m 1); [lia|].
    replace (Z.to_nat (lastSegmentNo w - m + 1))
      with (S (Z.to_nat (lastSegmentNo w - (m + 1) + 1))) by lia.
    cbn [ReadFromSegment_loop]. unfold bind at 1 2.
    destruct (readData m (w, fs)) as [cur [w1 fs1]| | |] eqn:E; try reflexivity.
    apply readData_wal in E. cbn [fst] in E. subst w1.
    rewrite ReadFromSegment_loop_acc. unfold bind, ret, ReadFromSegment.
    destruct (Z.ltb_spec (m + 1) 1); [lia|]. reflexivity. }
  split; [|split; [|split]].
  - intros Hn. unfold ReadFromSegment. now destruct (Z.ltb_spec n 1); [|lia].
  - intros Hn Hlast. unfold ReadFromSegment. destruct (Z.ltb_spec n 1); [lia|].
    now replace (Z.to_nat (lastSegmentNo w - n + 1)) with 0%nat by lia.
  - apply Hstep.
  - intros H1. rewrite Hstep by lia. unfold Read, bind, ret. cbn [fst].
    destruct (readData (lastSegmentNo w) (w, fs)) as [cur [w1 fs1]| | |] eqn:E;
      try reflexivity.
    apply readData_wal in E. cbn [fst] in E. subst w1.
    unfold ReadFromSegment. destruct (Z.ltb_spec (lastSegmentNo w + 1) 1); [lia|].
    replace (Z.to_nat (lastSegmentNo w - (lastSegmentNo w + 1) + 1)) with 0%nat by lia.
    cbn [ReadFromSegment_loop]. unfold ret. now rewrite app_nil_r.
Qed.

Lemma ReadFromSegment_by_segment_witness :
  let fs : FS := {[ getLogFileName 1 := File [] ]} in
  let w := mkWal (getLogFileName 1) [] 1024 1 0 in
  lastSegmentNo w < Int32.max_int
  /\ ReadFromSegment 0 (w, fs) = Err ErrSegmentNo (w, fs)
  /\ ReadFromSegment 2 (w, fs) = Ok [] (w, fs).
Proof.
  intros fs w.
  assert (H : lastSegmentNo w < Int32.max_int) by (vm_compute; reflexivity).
  split; [exact H|].
  destruct (ReadFromSegment_by_segment 0 (w, fs) H) as (H0 & _).
  destruct (ReadFromSegment_by_segment 2 (w, fs) H) as (_ & H2 & _).
  split; [apply H0; lia|apply H2; cbn; lia].
Defined.

(* --------------------------------------------------------------------- *)
(** ** A threshold that is not positive *)

Lemma records_of_writes payloads : forall seq (i : nat) data,
  payloads !! i = Some data ->
  records_of seq (map OpWrite payloads) !! i
  = Some (record (seq + Z.of_nat i) data false).
Proof.
  induction payloads as [|d payloads IH]; intros seq i data Hi; [discriminate|].
  cbn [map records_of]. destruct i as [|i].
  - injection Hi as ->. cbn. now rewrite Z.add_0_r.
  - change (payloads !! i = Some data) in Hi.
    change (records_of (seq + 1) (map OpWrite payloads) !! i
            = Some (record (seq + Z.of_nat (S i)) data false)).
    rewrite (IH (seq + 1) i data Hi).
    now replace (seq + 1 + Z.of_nat i) with (seq + Z.of_nat (S i)) by lia.
Qed.

Lemma len_records_of_writes seq payloads :
  len (records_of seq (map OpWrite payloads)) = len payloads.
Proof.
  revert seq. induction payloads as [|d payloads IH]; intros seq; [reflexivity|].
  cbn [map records_of]. unfold len in *. cbn [length].
  now rewrite !Nat2Z.inj_succ, IH.
Qed.

(** With a threshold that is not positive every write rotates first. *)
Lemma run_writes_rotating maxLog payloads : forall closed cur s,
  maxLog <= 0 ->
  wellformed maxLog closed cur s ->
  len closed + len payloads + 1 <= Int32.max_int ->
  len (concat closed ++ cur) + len payloads <= Int32.max_int ->
  exists closed' cur' s',
    run (map OpWrite payloads) s = Ok tt s'
    /\ wellformed maxLog closed' cur' s'
    /\ closed' ++ [cur']
       = (closed ++ [cur])
           ++ map (fun v => [v])
                (records_of (len (concat closed ++ cur) + 1) (map OpWrite payloads)).
Proof.
  induction payloads as [|d payloads IH]; intros closed cur s Hm Hwf Hc Hn.
  - exists closed, cur, s. split; [reflexivity|]. split; [assumption|].
    cbn [map records_of]. now rewrite app_nil_r.
  - assert (Hl : len (d :: payloads) = len payloads + 1)
      by (unfold len; cbn [length]; lia).
    rewrite Hl in *. pose proof (len_nonneg payloads) as H0.
    pose proof (len_nonneg closed) as H1.
    pose proof (len_nonneg (concat closed ++ cur)) as H2.
    destruct (append_record_wellformed _ _ _ _ d false Hwf)
      as (size & closed1 & cur1 & s1 & Hstat & E & Hwf1 & Hcat1 & Hcase);
      [lia|lia|].
    assert (Hsize : 0 <= size).
    { unfold Stat_Size in Hstat.
      destruct (s.2 !! logFile s.1) as [[c|]|]; try discriminate.
      injection Hstat as <-. apply len_nonneg. }
    destruct Hcase as [(_ & -> & ->)|(Hle & _ & _)].
    2:{ unfold encode in Hle. rewrite frame_length in Hle.
        pose proof (len_nonneg (json.Marshal
          (record (len (concat closed ++ cur) + 1) d false))). lia. }
    destruct (IH (closed ++ [cur])
                [record (len (concat closed ++ cur) + 1) d false] s1 Hm Hwf1)
      as (closed' & cur' & s' & E' & Hwf' & Hshape).
    { rewrite len_snoc. lia. }
    { rewrite Hcat1, len_snoc. lia. }
    exists closed', cur', s'. split; [|split; [assumption|]].
    + cbn [map run step]. unfold bind, Write. rewrite writeData_append, E. exact E'.
    + rewrite Hshape, Hcat1, len_snoc. cbn [map records_of].
      rewrite <- app_assoc. reflexivity.
Qed.

(** X16.  When [maxLogSizeInKB * 1024] is not positive as an [int32] (the
    threshold 0, or one whose product overflows), every write rotates the
    log before it writes: from an empty directory the first segment stays
    empty and the write at position [i], counting from 0, is alone in
    segment [i + 2]. *)
Theorem non_positive_threshold_rotates_every_write maxLogSizeInKB payloads :
  Int32.wrap (maxLogSizeInKB * 1024) <= 0 ->
  len payloads + 2 <= Int32.max_int ->
  exists w0 fs0 s,
    NewWal maxLogSizeInKB ∅ = Ok w0 fs0
    /\ run (map OpWrite payloads ++ [OpSync]) (w0, fs0) = Ok tt s
    /\ lastSegmentNo s.1 = len payloads + 1
    /\ s.2 !! getLogFileName 1 = Some (File [])
    /\ forall (i : nat) data, payloads !! i = Some data ->
         s.2 !! getLogFileName (Z.of_nat i + 2)
         = Some (File (encode (NewWalData (Z.of_nat i + 1) data))).
Proof.
  intros Hm Hmax. pose proof (len_nonneg payloads) as H0.
  pose proof (wellformed_opened maxLogSizeInKB _ _ (NewWal_empty maxLogSizeInKB)) as Hwf0.
  destruct (run_writes_rotating _ payloads _ _ _ Hm Hwf0)
    as (closed & cur & s & E & Hwf & Hshape).
  { change (len []) with 0. lia. }
  { change (len (concat [] ++ [])) with 0. lia. }
  change (len (concat [] ++ [])) with 0 in Hshape. rewrite Z.add_0_l in Hshape.
  cbn [app] in Hshape.
  destruct (Sync_wellformed _ _ _ _ Hwf) as (fs' & Es & Hwf' & Hfile).
  pose proof (wellformed_layout _ _ _ _ Hwf') as Hlay.
  assert (Hlook : forall (j : nat) recs, (closed ++ [cur]) !! j = Some recs ->
            fs' !! getLogFileName (Z.of_nat j + 1)
            = Some (File (frames (map json.Marshal recs)))).
  { intros j recs Hj. apply lookup_app_Some in Hj as [Hj|[Hge Hj]].
    - apply (lay_closed _ _ _ Hlay j). now rewrite list_lookup_fmap, Hj.
    - apply list_lookup_singleton_Some in Hj as [Hj <-].
      replace (Z.of_nat j + 1) with (len closed + 1) by (unfold len; lia).
      exact Hfile. }
  eexists _, _, (set_writer [] s.1, fs').
  split; [apply NewWal_empty|]. split; [|split; [|split]].
  - rewrite run_app, E. cbn [run step]. unfold bind. now rewrite Es.
  - pose proof (lay_lastSegmentNo _ _ _ Hlay) as Hl0. rewrite len_map in Hl0.
    rewrite Hl0.
    apply (f_equal len) in Hshape. rewrite len_snoc in Hshape.
    assert (Hl : len ([] :: map (fun v : WalData => [v])
                        (records_of 1 (map OpWrite payloads)))
                 = len payloads + 1).
    { unfold len. cbn [length]. rewrite length_map.
      pose proof (len_records_of_writes 1 payloads) as Hr. unfold len in Hr. lia. }
    lia.
  - cbn [snd]. apply (Hlook 0%nat []). now rewrite Hshape.
  - intros i data Hi. cbn [snd].
    replace (Z.of_nat i + 2) with (Z.of_nat (S i) + 1) by lia.
    rewrite (Hlook (S i) [record (1 + Z.of_nat i) data false]).
    + rewrite record_false. cbn [map frames concat]. rewrite app_nil_r.
      now replace (1 + Z.of_nat i) with (Z.of_nat i + 1) by lia.
    + rewrite Hshape.
      change ((map (fun v : WalData => [v]) (records_of 1 (map OpWrite payloads)))
                !! i = Some [record (1 + Z.of_nat i) data false]).
      rewrite list_lookup_fmap. now rewrite (records_of_writes _ _ _ _ Hi).
Qed.

Lemma non_positive_threshold_rotates_every_write_witness :
  let payloads := [Some (bytes_of "a"); Some (bytes_of "b")] in
  Int32.wrap (2097152 * 1024) <= 0
  /\ len payloads + 2 <= Int32.max_int
  /\ exists w0 fs0 s,
       NewWal 2097152 ∅ = Ok w0 fs0
       /\ run (map OpWrite payloads ++ [OpSync]) (w0, fs0) = Ok tt s
       /\ lastSegmentNo s.1 = 3
       /\ s.2 !! getLogFileName 3
          = Some (File (encode (NewWalData 2 (Some (bytes_of "b"))))).
Proof.
  intros payloads.
  assert (H1 : Int32.wrap (2097152 * 1024) <= 0) by (vm_compute; discriminate).
  assert (H2 : len payloads + 2 <= Int32.max_int) by (vm_compute; discriminate).
  split; [exact H1|]. split; [exact H2|].
  destruct (non_positive_threshold_rotates_every_write 2097152 payloads H1 H2)
    as (w0 & fs0 & s & E0 & E & Hl & _ & Hf).
  exists w0, fs0, s. split; [exact E0|]. split; [exact E|]. split; [exact Hl|].
  exact (Hf 1%nat (Some (bytes_of "b")) eq_refl).
Defined.

(* --------------------------------------------------------------------- *)
(** ** Opening a directory that holds no segment with a positive number *)

Lemma getLastLogFile_loop_low entries : forall reqFile maxSegment hasFiles,
  (forall name c, (name, File c) ∈ entries ->
     exists k, getSegmentNumberFromFile name = inr k /\ k <= maxSegment) ->
  exists has,
    getLastLogFile_loop entries reqFile maxSegment hasFiles
    = inr (reqFile, maxSegment, has)
    /\ ((exists name c, (name, File c) ∈ entries) -> has = true)
    /\ ((forall name c, (name, File c) ∉ entries) -> has = hasFiles).
Proof.
  induction entries as [|[name0 entry0] entries IH];
    intros reqFile maxSegment hasFiles Hall.
  - exists hasFiles. split; [reflexivity|]. split; [|reflexivity].
    intros (name & c & Hin). now apply elem_of_nil in Hin.
  - assert (Hall' : forall name c, (name, File c) ∈ entries ->
              exists k, getSegmentNumberFromFile name = inr k /\ k <= maxSegment).
    { intros name c Hin. apply (Hall name c). now right. }
    cbn [getLastLogFile_loop]. destruct entry0 as [c0|].
    + destruct (Hall name0 c0) as (k0 & -> & Hk0); [now left|].
      destruct (Z.gtb_spec k0 maxSegment); [lia|].
      destruct (IH reqFile maxSegment true Hall') as (has & E & _ & Hnone).
      assert (has = true) as ->.
      { destruct (getLastLogFile_loop_hasFiles _ _ _ _ _ _ E). reflexivity. }
      exists true. split; [exact E|]. split; [reflexivity|].
      intros Hno. destruct (Hno name0 c0). now left.
    + destruct (IH reqFile maxSegment hasFiles Hall') as (has & E & Hsome & Hnone).
      exists has. split; [exact E|]. split.
      * intros (name & c & Hin). apply Hsome. exists name, c.
        now apply elem_of_cons in Hin as [[=]|Hin].
      * intros Hno. apply Hnone. intros name c Hin. apply (Hno name c). now right.
Qed.

(** X15.  [NewWal] on a directory without regular files, empty or holding
    subdirectories only, creates the empty segment [wal@1.db] and opens the
    log on it with sequence number 0.  On a directory whose regular files
    all carry a segment number that is not positive, such as [wal@0.db], it
    panics: no file is selected and the directory itself is opened for
    writing. *)
Theorem open_without_positive_segment maxLogSizeInKB (fs : FS) :
  ((forall name c, fs !! name <> Some (File c)) ->
   fs !! getLogFileName 1 = None ->
   NewWal maxLogSizeInKB fs
   = Ok {| logFile := getLogFileName 1; writer := [];
           maxLogSize := Int32.wrap (maxLogSizeInKB * 1024);
           lastSegmentNo := 1; lastSequenceNo := 0 |}
        (<[getLogFileName 1 := File []]> fs))
  /\ ((exists name c, fs !! name = Some (File c)) ->
      (forall name c, fs !! name = Some (File c) ->
         exists k, getSegmentNumberFromFile name = inr k /\ k <= 0) ->
      NewWal maxLogSizeInKB fs = Panic (UnableToOpenFile "")).
Proof.
  split.
  - intros Hno H1.
    destruct (getLastLogFile_loop_low (ReadDir fs) "" 0 false)
      as (has & E & _ & Hnone).
    { intros name c Hin. apply ReadDir_elem in Hin. now apply Hno in Hin. }
    rewrite Hnone in E.
    2:{ intros name c Hin. apply ReadDir_elem in Hin. now apply Hno in Hin. }
    unfold NewWal, getLastLogFile. rewrite E.
    rewrite decide_False by apply getLogFileName_nonempty.
    unfold OpenFile_CREATE_APPEND_WRONLY. rewrite H1.
    unfold getLastLogData. rewrite lookup_insert_eq. reflexivity.
  - intros (name & c & Hf) Hlow.
    destruct (getLastLogFile_loop_low (ReadDir fs) "" 0 false)
      as (has & E & Hsome & _).
    { intros name' c' Hin. apply ReadDir_elem in Hin. exact (Hlow _ _ Hin). }
    rewrite Hsome in E by (exists name, c; now apply ReadDir_elem).
    unfold NewWal, getLastLogFile. rewrite E. reflexivity.
Qed.

Lemma open_without_positive_segment_witness :
  let fs : FS := {[ "wal@0.db"%string := File [] ]} in
  (exists name c, fs !! name = Some (File c))
  /\ (forall name c, fs !! name = Some (File c) ->
        exists k, getSegmentNumberFromFile name = inr k /\ k <= 0)
  /\ NewWal 1 fs = Panic (UnableToOpenFile "").
Proof.
  intros fs.
  assert (H1 : exists name c, fs !! name = Some (File c)).
  { exists "wal@0.db"%string, []. apply lookup_singleton_eq. }
  assert (H2 : forall name c, fs !! name = Some (File c) ->
                 exists k, getSegmentNumberFromFile name = inr k /\ k <= 0).
  { intros name c H. apply lookup_singleton_Some in H as [<- _].
    exists 0. split; [reflexivity|lia]. }
  split; [exact H1|]. split; [exact H2|].
  exact (proj2 (open_without_positive_segment 1 fs) H1 H2).
Defined.

